(** * The asset-graph layout worker: model-graph construction, group
    splitting, descendant statistics and the worker's request router.

    A shallow embedding of
    [asset-graph-layout-v2/worker/GraphPreprocessor.ts] (class
    [GraphProcessor]), of the worker message listener that follows it, and of
    [common/ModelGraph.ts].

    Modelling conventions.
    - A JavaScript object has an identity: the node objects a model graph owns
      live in an object store ([objects]), and a reference ([ref]) is an index
      into it.  [nodes], [rootNodes] and [nodesById] hold references, so a
      write through one alias is seen through every other one.
    - A TypeScript [Record<string, V>] that is only looked up, written and
      deleted by key is a [gmap string V] of its own properties ([byId] for
      [nodesById]).  [nodesById] is created by the literal [{}], so a key
      that is not an own property is looked up in [Object.prototype]: the
      edge pass, which stores an edge whenever the value it finds is truthy,
      looks a source up with [lookupById], which tells an own property from
      a property of [Object.prototype] and from [undefined].  The other
      lookups are of ids that the model graph holds itself, or of the group
      id of a request, which is looked up among the own properties.  A record
      that is iterated ([Object.values], [Object.keys]) is kept as the list
      of what the iteration yields, in iteration order.
    - [Object.prototype] is the one the language defines.  A write to the
      key [__proto__] of a record, or to [Object.prototype] itself, changes
      what objects inherit: the statements about edges are for the graphs
      in which [__proto__] is neither an id nor an upstream key
      ([plainKeys]).
    - An optional field [f?: T] is an [option T]; [None] is [undefined].
    - A loop or recursion that the source does not bound takes a [fuel]; a run
      ends in [Ret], in [Throw] (an uncaught exception) or in [Timeout] (the
      fuel ran out). *)

From stdpp Require Import gmap strings list fin_maps sorting.
From Stdlib Require Import ZArith DecimalString.

Open Scope string_scope.
Open Scope list_scope.
Open Scope nat_scope.

(** ** Outcomes of a run *)

Inductive JsError :=
  | TypeError
  | Error (message : string).

Inductive run (A : Type) :=
  | Ret (a : A)
  | Throw (e : JsError)
  | Timeout.
Arguments Ret {A} a.
Arguments Throw {A} e.
Arguments Timeout {A}.

Global Instance run_bind : MBind run := λ A B (k : A → run B) (m : run A),
  match m with
  | Ret a => k a
  | Throw e => Throw e
  | Timeout => Timeout
  end.

Global Instance run_ret : MRet run := λ A (a : A), Ret a.

(** Dereferencing [undefined] throws a [TypeError]. *)
Definition deref {A} (o : option A) : run A :=
  match o with
  | Some a => Ret a
  | None => Throw TypeError
  end.

(** ** JavaScript values used by the worker *)

(** The numbers the statistics pass stores: array lengths, [-1], and the two
    sentinels [Number.MAX_VALUE] and [Number.NEGATIVE_INFINITY].  An array
    length is below [2^32], far below [Number.MAX_VALUE]. *)
Inductive number :=
  | NEGATIVE_INFINITY
  | Num (z : Z)
  | MAX_VALUE.

Definition number_leb (a b : number) : bool :=
  match a, b with
  | NEGATIVE_INFINITY, _ => true
  | _, MAX_VALUE => true
  | Num x, Num y => (x <=? y)%Z
  | _, _ => false
  end.

Definition Math_min (a b : number) : number := if number_leb a b then a else b.
Definition Math_max (a b : number) : number := if number_leb a b then b else a.

Definition string_eqb (a b : string) : bool := bool_decide (a = b).

(** [s.replace(pat, rep)] with a string pattern: the first occurrence only. *)
Definition replace (pat rep s : string) : string :=
  match String.index 0 pat s with
  | Some i =>
      String.substring 0 i s +:+ rep +:+
      String.substring (i + String.length pat)
                       (String.length s - (i + String.length pat)) s
  | None => s
  end.

(** [s.split('/')]: the segments between the separators (one segment, the
    empty one, for the empty string). *)
Fixpoint split_slash_aux (cur : string) (s : string) : list string :=
  match s with
  | EmptyString => [cur]
  | String c s' =>
      if string_eqb (String c "") "/" then cur :: split_slash_aux "" s'
      else split_slash_aux (cur +:+ String c "") s'
  end.
Definition split_slash (s : string) : list string := split_slash_aux "" s.

(** [`${n}`] for a non-negative integer. *)
Definition show_nat (n : nat) : string := NilEmpty.string_of_uint (Nat.to_uint n).

(** A string is truthy when it is not empty; [undefined] is falsy. *)
Definition truthy_string (o : option string) : bool :=
  match o with
  | Some s => negb (string_eqb s "")
  | None => false
  end.

Definition truthy_bool (o : option bool) : bool := default false o.

(** [x == null]. *)
Definition is_null {A} (o : option A) : bool :=
  match o with
  | Some _ => false
  | None => true
  end.

(** [a.indexOf(x)] as an option: [None] is [-1]. *)
Fixpoint indexOf {A} `{EqDecision A} (x : A) (l : list A) : option nat :=
  match l with
  | [] => None
  | y :: l' => if decide (x = y) then Some 0 else S <$> indexOf x l'
  end.

(** [a.splice(i, 1)]. *)
Definition splice1 {A} (i : nat) (l : list A) : list A := take i l ++ drop (S i) l.

(** ** The data model ([common/ModelGraph.ts], [common/types.ts]) *)

Inductive NodeType := ASSET_NODE | GROUP_NODE.

Global Instance NodeType_eq_dec : EqDecision NodeType.
Proof. solve_decision. Defined.

Record Edge := { sourceNodeId : string; targetNodeId : string }.

(** [ModelNode = AssetNode | GroupNode].  The source casts freely between the
    two ([as AssetNode], [as GroupNode]) and tells them apart by [nodeType]
    only, so one record carries the fields of both; a field the object does
    not have is [None]. *)
Record ModelNode := {
  nodeType : NodeType;
  namespace : string;
  id : string;
  parentId : option string;
  level : nat;
  width : option Z;
  height : option Z;
  (* AssetNode *)
  incomingEdges : option (list Edge);
  outgoingEdges : option (list Edge);
  hideInLayout : option bool;
  (* GroupNode *)
  childrenIds : option (list string);
  descendantsNodeIds : option (list string);
  descendantsAssetNodeIds : option (list string);
  expanded : option bool;
  sectionContainer : option bool;
}.

Definition ref := nat.

Record ModelEdge := { edgeId : string; fromNodeId : string; toNodeId : string }.

Record ModelGraph := {
  modelGraphId : string;                     (* the field [id] *)
  objects : list ModelNode;                  (* the store of node objects *)
  nodes : list ref;
  artificialGroupNodeIds : option (list string);
  nodesById : gmap string ref;
  rootNodes : list ref;
  edgesByGroupNodeIds : gmap string (list ModelEdge);
  maxDescendantAssetNodeCount : number;
  minDescendantAssetNodeCount : number;
  layoutGraphEdges : gmap string (gmap string (gmap string bool));
}.

(** *** Field writes *)

Definition set_namespace (v : string) (n : ModelNode) : ModelNode :=
  {| nodeType := nodeType n; namespace := v; id := id n; parentId := parentId n;
     level := level n; width := width n; height := height n;
     incomingEdges := incomingEdges n; outgoingEdges := outgoingEdges n;
     hideInLayout := hideInLayout n; childrenIds := childrenIds n;
     descendantsNodeIds := descendantsNodeIds n;
     descendantsAssetNodeIds := descendantsAssetNodeIds n;
     expanded := expanded n; sectionContainer := sectionContainer n |}.

Definition set_id (v : string) (n : ModelNode) : ModelNode :=
  {| nodeType := nodeType n; namespace := namespace n; id := v; parentId := parentId n;
     level := level n; width := width n; height := height n;
     incomingEdges := incomingEdges n; outgoingEdges := outgoingEdges n;
     hideInLayout := hideInLayout n; childrenIds := childrenIds n;
     descendantsNodeIds := descendantsNodeIds n;
     descendantsAssetNodeIds := descendantsAssetNodeIds n;
     expanded := expanded n; sectionContainer := sectionContainer n |}.

Definition set_parentId (v : option string) (n : ModelNode) : ModelNode :=
  {| nodeType := nodeType n; namespace := namespace n; id := id n; parentId := v;
     level := level n; width := width n; height := height n;
     incomingEdges := incomingEdges n; outgoingEdges := outgoingEdges n;
     hideInLayout := hideInLayout n; childrenIds := childrenIds n;
     descendantsNodeIds := descendantsNodeIds n;
     descendantsAssetNodeIds := descendantsAssetNodeIds n;
     expanded := expanded n; sectionContainer := sectionContainer n |}.

Definition set_level (v : nat) (n : ModelNode) : ModelNode :=
  {| nodeType := nodeType n; namespace := namespace n; id := id n; parentId := parentId n;
     level := v; width := width n; height := height n;
     incomingEdges := incomingEdges n; outgoingEdges := outgoingEdges n;
     hideInLayout := hideInLayout n; childrenIds := childrenIds n;
     descendantsNodeIds := descendantsNodeIds n;
     descendantsAssetNodeIds := descendantsAssetNodeIds n;
     expanded := expanded n; sectionContainer := sectionContainer n |}.

Definition set_size (w h : option Z) (n : ModelNode) : ModelNode :=
  {| nodeType := nodeType n; namespace := namespace n; id := id n; parentId := parentId n;
     level := level n; width := w; height := h;
     incomingEdges := incomingEdges n; outgoingEdges := outgoingEdges n;
     hideInLayout := hideInLayout n; childrenIds := childrenIds n;
     descendantsNodeIds := descendantsNodeIds n;
     descendantsAssetNodeIds := descendantsAssetNodeIds n;
     expanded := expanded n; sectionContainer := sectionContainer n |}.

Definition set_incomingEdges (v : option (list Edge)) (n : ModelNode) : ModelNode :=
  {| nodeType := nodeType n; namespace := namespace n; id := id n; parentId := parentId n;
     level := level n; width := width n; height := height n;
     incomingEdges := v; outgoingEdges := outgoingEdges n;
     hideInLayout := hideInLayout n; childrenIds := childrenIds n;
     descendantsNodeIds := descendantsNodeIds n;
     descendantsAssetNodeIds := descendantsAssetNodeIds n;
     expanded := expanded n; sectionContainer := sectionContainer n |}.

Definition set_outgoingEdges (v : option (list Edge)) (n : ModelNode) : ModelNode :=
  {| nodeType := nodeType n; namespace := namespace n; id := id n; parentId := parentId n;
     level := level n; width := width n; height := height n;
     incomingEdges := incomingEdges n; outgoingEdges := v;
     hideInLayout := hideInLayout n; childrenIds := childrenIds n;
     descendantsNodeIds := descendantsNodeIds n;
     descendantsAssetNodeIds := descendantsAssetNodeIds n;
     expanded := expanded n; sectionContainer := sectionContainer n |}.

Definition set_childrenIds (v : option (list string)) (n : ModelNode) : ModelNode :=
  {| nodeType := nodeType n; namespace := namespace n; id := id n; parentId := parentId n;
     level := level n; width := width n; height := height n;
     incomingEdges := incomingEdges n; outgoingEdges := outgoingEdges n;
     hideInLayout := hideInLayout n; childrenIds := v;
     descendantsNodeIds := descendantsNodeIds n;
     descendantsAssetNodeIds := descendantsAssetNodeIds n;
     expanded := expanded n; sectionContainer := sectionContainer n |}.

Definition set_descendants (all assets : option (list string)) (n : ModelNode) : ModelNode :=
  {| nodeType := nodeType n; namespace := namespace n; id := id n; parentId := parentId n;
     level := level n; width := width n; height := height n;
     incomingEdges := incomingEdges n; outgoingEdges := outgoingEdges n;
     hideInLayout := hideInLayout n; childrenIds := childrenIds n;
     descendantsNodeIds := all;
     descendantsAssetNodeIds := assets;
     expanded := expanded n; sectionContainer := sectionContainer n |}.

Definition set_expanded (v : option bool) (n : ModelNode) : ModelNode :=
  {| nodeType := nodeType n; namespace := namespace n; id := id n; parentId := parentId n;
     level := level n; width := width n; height := height n;
     incomingEdges := incomingEdges n; outgoingEdges := outgoingEdges n;
     hideInLayout := hideInLayout n; childrenIds := childrenIds n;
     descendantsNodeIds := descendantsNodeIds n;
     descendantsAssetNodeIds := descendantsAssetNodeIds n;
     expanded := v; sectionContainer := sectionContainer n |}.

Definition with_objects (v : list ModelNode) (mg : ModelGraph) : ModelGraph :=
  {| modelGraphId := modelGraphId mg; objects := v; nodes := nodes mg;
     artificialGroupNodeIds := artificialGroupNodeIds mg;
     nodesById := nodesById mg; rootNodes := rootNodes mg;
     edgesByGroupNodeIds := edgesByGroupNodeIds mg;
     maxDescendantAssetNodeCount := maxDescendantAssetNodeCount mg;
     minDescendantAssetNodeCount := minDescendantAssetNodeCount mg;
     layoutGraphEdges := layoutGraphEdges mg |}.

Definition with_nodes (v : list ref) (mg : ModelGraph) : ModelGraph :=
  {| modelGraphId := modelGraphId mg; objects := objects mg; nodes := v;
     artificialGroupNodeIds := artificialGroupNodeIds mg;
     nodesById := nodesById mg; rootNodes := rootNodes mg;
     edgesByGroupNodeIds := edgesByGroupNodeIds mg;
     maxDescendantAssetNodeCount := maxDescendantAssetNodeCount mg;
     minDescendantAssetNodeCount := minDescendantAssetNodeCount mg;
     layoutGraphEdges := layoutGraphEdges mg |}.

Definition with_artificialGroupNodeIds (v : option (list string)) (mg : ModelGraph) : ModelGraph :=
  {| modelGraphId := modelGraphId mg; objects := objects mg; nodes := nodes mg;
     artificialGroupNodeIds := v;
     nodesById := nodesById mg; rootNodes := rootNodes mg;
     edgesByGroupNodeIds := edgesByGroupNodeIds mg;
     maxDescendantAssetNodeCount := maxDescendantAssetNodeCount mg;
     minDescendantAssetNodeCount := minDescendantAssetNodeCount mg;
     layoutGraphEdges := layoutGraphEdges mg |}.

Definition with_nodesById (v : gmap string ref) (mg : ModelGraph) : ModelGraph :=
  {| modelGraphId := modelGraphId mg; objects := objects mg; nodes := nodes mg;
     artificialGroupNodeIds := artificialGroupNodeIds mg;
     nodesById := v; rootNodes := rootNodes mg;
     edgesByGroupNodeIds := edgesByGroupNodeIds mg;
     maxDescendantAssetNodeCount := maxDescendantAssetNodeCount mg;
     minDescendantAssetNodeCount := minDescendantAssetNodeCount mg;
     layoutGraphEdges := layoutGraphEdges mg |}.

Definition with_rootNodes (v : list ref) (mg : ModelGraph) : ModelGraph :=
  {| modelGraphId := modelGraphId mg; objects := objects mg; nodes := nodes mg;
     artificialGroupNodeIds := artificialGroupNodeIds mg;
     nodesById := nodesById mg; rootNodes := v;
     edgesByGroupNodeIds := edgesByGroupNodeIds mg;
     maxDescendantAssetNodeCount := maxDescendantAssetNodeCount mg;
     minDescendantAssetNodeCount := minDescendantAssetNodeCount mg;
     layoutGraphEdges := layoutGraphEdges mg |}.

Definition with_edgesByGroupNodeIds (v : gmap string (list ModelEdge)) (mg : ModelGraph) : ModelGraph :=
  {| modelGraphId := modelGraphId mg; objects := objects mg; nodes := nodes mg;
     artificialGroupNodeIds := artificialGroupNodeIds mg;
     nodesById := nodesById mg; rootNodes := rootNodes mg;
     edgesByGroupNodeIds := v;
     maxDescendantAssetNodeCount := maxDescendantAssetNodeCount mg;
     minDescendantAssetNodeCount := minDescendantAssetNodeCount mg;
     layoutGraphEdges := layoutGraphEdges mg |}.

Definition with_counts (mn mx : number) (mg : ModelGraph) : ModelGraph :=
  {| modelGraphId := modelGraphId mg; objects := objects mg; nodes := nodes mg;
     artificialGroupNodeIds := artificialGroupNodeIds mg;
     nodesById := nodesById mg; rootNodes := rootNodes mg;
     edgesByGroupNodeIds := edgesByGroupNodeIds mg;
     maxDescendantAssetNodeCount := mx;
     minDescendantAssetNodeCount := mn;
     layoutGraphEdges := layoutGraphEdges mg |}.

Definition with_layoutGraphEdges (v : gmap string (gmap string (gmap string bool)))
    (mg : ModelGraph) : ModelGraph :=
  {| modelGraphId := modelGraphId mg; objects := objects mg; nodes := nodes mg;
     artificialGroupNodeIds := artificialGroupNodeIds mg;
     nodesById := nodesById mg; rootNodes := rootNodes mg;
     edgesByGroupNodeIds := edgesByGroupNodeIds mg;
     maxDescendantAssetNodeCount := maxDescendantAssetNodeCount mg;
     minDescendantAssetNodeCount := minDescendantAssetNodeCount mg;
     layoutGraphEdges := v |}.

(** *** The object store *)

(** Reading through a reference. *)
Definition obj (mg : ModelGraph) (r : ref) : option ModelNode := objects mg !! r.

(** Writing a field of the object behind a reference. *)
Definition write (r : ref) (f : ModelNode → ModelNode) (mg : ModelGraph) : ModelGraph :=
  with_objects (alter f r (objects mg)) mg.

(** A new object literal: [alloc n mg] is the store with the new object, and
    [nextRef mg] the reference to it. *)
Definition nextRef (mg : ModelGraph) : ref := length (objects mg).

Definition alloc (n : ModelNode) (mg : ModelGraph) : ModelGraph :=
  with_objects (objects mg ++ [n]) mg.

(** [modelGraph.nodesById[k]]: a reference to a node object, or [undefined].
    A reference that points outside the store reads as [undefined]
    everywhere (JavaScript has no dangling reference). *)
Definition byId (mg : ModelGraph) (k : string) : option ref :=
  match nodesById mg !! k with
  | Some r => if is_null (obj mg r) then None else Some r
  | None => None
  end.

(** The properties that every object created by [{}] inherits from
    [Object.prototype]: its methods, its accessors and [constructor]. *)
Definition Object_prototype_keys : list string :=
  [ "constructor"; "__defineGetter__"; "__defineSetter__"; "hasOwnProperty";
    "__lookupGetter__"; "__lookupSetter__"; "isPrototypeOf";
    "propertyIsEnumerable"; "toString"; "valueOf"; "__proto__";
    "toLocaleString" ].

(** What [modelGraph.nodesById[k]] evaluates to: the node that an own
    property refers to; for a key of [Object.prototype] that is not an own
    property, a function or an object of the runtime, which is truthy, is no
    node of the model graph and has none of the fields of a node; and
    [undefined] for every other key. *)
Inductive Lookup :=
  | Registered (r : ref)
  | RuntimeObject
  | Undefined.

Definition lookupById (mg : ModelGraph) (k : string) : Lookup :=
  match byId mg k with
  | Some r => Registered r
  | None => if bool_decide (k ∈ Object_prototype_keys) then RuntimeObject else Undefined
  end.

(** Modelled from the spec: [isAssetNode] and [isGroupNode] are imported from
    [common/utils.ts], which is outside the files embedded here.  The two
    guards are called on values that may be [undefined], and they separate
    the two node kinds ("asset nodes", "group nodes") by [nodeType]. *)
Definition isAssetNode (n : option ModelNode) : bool :=
  match n with
  | Some n => bool_decide (nodeType n = ASSET_NODE)
  | None => false
  end.

Definition isGroupNode (n : option ModelNode) : bool :=
  match n with
  | Some n => bool_decide (nodeType n = GROUP_NODE)
  | None => false
  end.

(** ** The input graph ([asset-graph/Utils.ts])

    Modelled from the spec: [GraphData], [GraphNode] and [groupIdForNode] are
    declared in [asset-graph/Utils.ts], which is outside the files embedded
    here.  The builder reads a graph node's [id] and the group id that the
    namespace function [groupIdForNode] derives for it, iterates
    [Object.values(graph.nodes)], and reads [Object.keys(graph.upstream[id])]:
    a graph node is kept as its id and its group id, [graph.nodes] as the list
    of its values and each upstream record as the list of its keys. *)

Record GraphNode := { graphNodeId : string; graphNodeGroup : string }.

Definition groupIdForNode (n : GraphNode) : string := graphNodeGroup n.

Record GraphData := {
  graphNodes : list GraphNode;
  upstream : gmap string (list string);
  downstream : gmap string (list string);
}.

(** ** [class GraphProcessor] *)

Record GraphProcessor := {
  paneId : string;
  graph : GraphData;
  groupNodeChildrenCountThreshold : Z;
  testMode : bool;
  flattenLayers : bool;
}.

Definition createEmptyModelGraph : ModelGraph :=
  {| modelGraphId := "<ROOT>";
     objects := [];
     nodes := [];
     artificialGroupNodeIds := None;
     nodesById := ∅;
     rootNodes := [];
     edgesByGroupNodeIds := ∅;
     layoutGraphEdges := ∅;
     minDescendantAssetNodeCount := Num (-1);
     maxDescendantAssetNodeCount := Num (-1) |}.

(** *** [processNodes] *)

Definition newAssetNode (graphNode : GraphNode) : ModelNode :=
  {| nodeType := ASSET_NODE;
     id := graphNodeId graphNode;
     level := 1;
     namespace := groupIdForNode graphNode +:+ "/" +:+ graphNodeId graphNode;
     parentId := None; width := None; height := None;
     incomingEdges := None; outgoingEdges := None; hideInLayout := None;
     childrenIds := None; descendantsNodeIds := None;
     descendantsAssetNodeIds := None; expanded := None;
     sectionContainer := None |}.

Definition newGroupNodeFor (group : string) : ModelNode :=
  {| nodeType := GROUP_NODE;
     id := group;
     level := 0;
     expanded := Some false;
     namespace := group;
     parentId := None; width := None; height := None;
     incomingEdges := None; outgoingEdges := None; hideInLayout := None;
     childrenIds := None; descendantsNodeIds := None;
     descendantsAssetNodeIds := None;
     sectionContainer := None |}.

(** [modelGraph.nodes.push(n); modelGraph.nodesById[n.id] = n] for a new
    object [n]. *)
Definition addNode (n : ModelNode) (mg : ModelGraph) : ModelGraph :=
  let r := nextRef mg in
  let mg := alloc n mg in
  let mg := with_nodes (nodes mg ++ [r]) mg in
  with_nodesById (<[id n := r]> (nodesById mg)) mg.

(** One turn of the loop over the graph nodes; the state is [seenGroups] and
    the model graph. *)
Definition processNodes_step (this : GraphProcessor)
    (st : gset string * ModelGraph) (graphNode : GraphNode) : gset string * ModelGraph :=
  let '(seenGroups, mg) := st in
  let group := groupIdForNode graphNode in
  let assetNode := newAssetNode graphNode in
  let mg := addNode assetNode mg in
  if negb (truthy_bool (hideInLayout assetNode)) && negb (flattenLayers this) then
    if bool_decide (group ∈ seenGroups) then (seenGroups, mg)
    else ({[group]} ∪ seenGroups, addNode (newGroupNodeFor group) mg)
  else (seenGroups, mg).

Definition processNodes (this : GraphProcessor) (mg : ModelGraph) : ModelGraph :=
  snd (foldl (processNodes_step this) (∅, mg) (graphNodes (graph this))).

(** *** [processEdgeRelationships] *)

(** [a.find(p) == null]. *)
Definition find_is_null {A} (p : A → bool) (l : list A) : bool := negb (existsb p l).

(** The edge list behind a field that may be [null]. *)
Definition edgesOf (f : ModelNode → option (list Edge)) (mg : ModelGraph) (r : ref)
  : option (list Edge) := obj mg r ≫= f.

(** The block under the comment [Incoming edges]: the list is created when it
    is [null], and the edge is pushed unless the list holds an edge from the
    same source. *)
Definition pushIncomingEdge (node : ref) (incomingEdge : Edge) (mg : ModelGraph)
  : ModelGraph :=
  let mg :=
    if is_null (edgesOf incomingEdges mg node)
    then write node (set_incomingEdges (Some [])) mg
    else mg in
  let es := default [] (edgesOf incomingEdges mg node) in
  if find_is_null (λ edge, string_eqb (sourceNodeId edge) (sourceNodeId incomingEdge)) es
  then write node (set_incomingEdges (Some (es ++ [incomingEdge]))) mg
  else mg.

(** The block under the comment [Outgoing edges], for a source that is a node
    of the model graph; [n] is the object behind [node]. *)
Definition pushOutgoingEdge (sourceNode : ref) (n : ModelNode) (incomingEdge : Edge)
    (mg : ModelGraph) : ModelGraph :=
  let mg :=
    if is_null (edgesOf outgoingEdges mg sourceNode)
    then write sourceNode (set_outgoingEdges (Some [])) mg
    else mg in
  let es := default [] (edgesOf outgoingEdges mg sourceNode) in
  if find_is_null (λ edge, string_eqb (targetNodeId edge) (id n)) es
  then write sourceNode
         (set_outgoingEdges
            (Some (es ++ [{| targetNodeId := id n;
                             sourceNodeId := sourceNodeId incomingEdge |}]))) mg
  else mg.

(** One turn of the inner loop: the edge from [sourceNodeId] to the graph node
    whose model node is [node].  The reference [node] is live (the caller
    found it in [nodesById]).  [sourceNode] is tested for truthiness: when
    the key is one of [Object.prototype] and no own property, the incoming
    edge is stored on [node] all the same, and the outgoing edge is written
    on the runtime's object, which the model graph does not hold. *)
Definition processEdge (graphNode : GraphNode) (node : ref)
    (mg : ModelGraph) (sourceId : string) : ModelGraph :=
  let incomingEdge :=
    {| sourceNodeId := sourceId; targetNodeId := graphNodeId graphNode |} in
  match obj mg node with
  | Some n =>
      match lookupById mg sourceId with
      | Registered sourceNode =>
          pushOutgoingEdge sourceNode n incomingEdge (pushIncomingEdge node incomingEdge mg)
      | RuntimeObject => pushIncomingEdge node incomingEdge mg
      | Undefined => mg
      end
  | None => mg
  end.

Definition processEdgeRelationships_step (this : GraphProcessor)
    (mg : ModelGraph) (graphNode : GraphNode) : ModelGraph :=
  match byId mg (graphNodeId graphNode) with
  | Some node =>
      let incomingEdges := default [] (upstream (graph this) !! graphNodeId graphNode) in
      foldl (processEdge graphNode node) mg incomingEdges
  | None => mg
  end.

Definition processEdgeRelationships (this : GraphProcessor) (mg : ModelGraph) : ModelGraph :=
  foldl (processEdgeRelationships_step this) mg (graphNodes (graph this)).

(** The model graph after the builder's two passes. *)
Definition build (this : GraphProcessor) : ModelGraph :=
  processEdgeRelationships this (processNodes this createEmptyModelGraph).


(** *** [generateLayoutGraphConnections] *)

(** Loops whose body may throw. *)
Fixpoint foldlM {A B} (f : A → B → run A) (a : A) (l : list B) : run A :=
  match l with
  | [] => Ret a
  | b :: l' => a' ← f a b; foldlM f a' l'
  end.

Fixpoint filterM {A} (p : A → run bool) (l : list A) : run (list A) :=
  match l with
  | [] => Ret []
  | x :: l' => b ← p x; r ← filterM p l'; Ret (if b : bool then x :: r else r)
  end.

Fixpoint mapM {A B} (f : A → run B) (l : list A) : run (list B) :=
  match l with
  | [] => Ret []
  | x :: l' => y ← f x; r ← mapM f l'; Ret (y :: r)
  end.

(** The predicate of the [filter] over a node's incoming edges:
    [!(modelGraph.nodesById[edge.sourceNodeId] as AssetNode).hideInLayout].
    An object of the runtime has no [hideInLayout]; reading the field of
    [undefined] throws. *)
Definition sourceIsVisible (mg : ModelGraph) (edge : Edge) : run bool :=
  match lookupById mg (sourceNodeId edge) with
  | Registered sourceNode =>
      s ← deref (obj mg sourceNode);
      Ret (negb (truthy_bool (hideInLayout s)))
  | RuntimeObject => Ret true
  | Undefined => Throw TypeError
  end.

(** One turn of the first loop, which collects
    [assetNodesWithoutIncomingEdges]. *)
Definition findRoots_step (mg : ModelGraph) (acc : list ref) (node : ref) : run (list ref) :=
  match obj mg node with
  | Some n =>
      if negb (isAssetNode (Some n)) || truthy_bool (hideInLayout n) then Ret acc
      else
        filteredIncomingEdges ← filterM (sourceIsVisible mg) (default [] (incomingEdges n));
        Ret (if (length filteredIncomingEdges =? 0)%nat then acc ++ [node] else acc)
  | None => Ret acc
  end.

Definition assetNodesWithoutIncomingEdges (mg : ModelGraph) : run (list ref) :=
  foldlM (findRoots_step mg) [] (nodes mg).

(** The breadth-first loop.  [seenNodeIds] is a JavaScript [Set], which keeps
    its elements in insertion order: a list without repetition. *)
Fixpoint bfs (fuel : nat) (mg : ModelGraph) (queue : list (option ref))
    (seenNodeIds : list string) : run (list string) :=
  match fuel with
  | 0 => Timeout
  | S fuel =>
      match queue with
      | [] => Ret seenNodeIds
      | curNode :: queue =>
          match curNode ≫= obj mg with
          | None => bfs fuel mg queue seenNodeIds
          | Some n =>
              if truthy_bool (hideInLayout n) then bfs fuel mg queue seenNodeIds
              else if bool_decide (id n ∈ seenNodeIds) then bfs fuel mg queue seenNodeIds
              else
                let seenNodeIds := seenNodeIds ++ [id n] in
                let outgoingEdges := default [] (outgoingEdges n) in
                bfs fuel mg
                    (queue ++ map (λ edge, byId mg (targetNodeId edge)) outgoingEdges)
                    seenNodeIds
          end
      end
  end.

(** The traversal of [generateLayoutGraphConnections]: the ids it has seen
    when the queue is empty, in the order of the visits. *)
Definition layoutTraversal (fuel : nat) (mg : ModelGraph) : run (list string) :=
  roots ← assetNodesWithoutIncomingEdges mg;
  bfs fuel mg (Some <$> roots) [].

Definition generateLayoutGraphConnections (fuel : nat) (mg : ModelGraph) : run ModelGraph :=
  let mg := with_layoutGraphEdges ∅ mg in
  _ ← layoutTraversal fuel mg;
  Ret mg.

(** *** [splitLargeGroupNodes] *)

(** The layout graph that [getLayoutGraph] returns ([worker/GraphLayout.ts]).
    The splitter reads [Object.keys(layoutGraph.nodes)] and looks up the two
    edge records by node id. *)
Module LayoutGraph.
Record t := {
  nodes : list string;
  incomingEdges : gmap string (list string);
  outgoingEdges : gmap string (list string);
}.
End LayoutGraph.

(** The state of the depth-first bucketing: [groups], [curGroup] and
    [visitedNodeIds]. *)
Record Buckets := {
  groups : list (list ref);
  curGroup : list ref;
  visitedNodeIds : list string;
}.

(** [node.childrenIds || []], read through a reference. *)
Definition childrenOf (mg : ModelGraph) (r : ref) : list string :=
  default [] (obj mg r ≫= childrenIds).

(** [node.namespace.split('/').filter((c) => c !== '').length]. *)
Definition levelOf (ns : string) : nat :=
  length (filter (λ c, c ≠ "") (split_slash ns)).

Section Splitting.

(** [getLayoutGraph] is imported from [worker/GraphLayout.ts], which is
    outside the files embedded here: every result below holds for whatever layout
    graph it returns (or whatever it throws).  It is taken to read the model
    graph without writing to it. *)
Variable getLayoutGraph :
  string → list (option ref) → ModelGraph → bool → bool → run LayoutGraph.t.

Variable this : GraphProcessor.

Let T := groupNodeChildrenCountThreshold this.

(** The closure [visit].  [curGroup.push(node)] is followed by a read of
    [node.id], which throws when [nodesById] has no such node, so a bucket
    holds live references only. *)
Fixpoint visit (fuel : nat) (layoutGraph : LayoutGraph.t) (mg : ModelGraph)
    (st : Buckets) (curNodeId : string) : run Buckets :=
  match fuel with
  | 0 => Timeout
  | S fuel =>
      if bool_decide (curNodeId ∈ visitedNodeIds st) then Ret st
      else
        let visited := visitedNodeIds st ++ [curNodeId] in
        node ← deref (byId mg curNodeId);
        n ← deref (obj mg node);
        let curGroup := curGroup st ++ [node] in
        let st :=
          if (Z.of_nat (length curGroup) =? T)%Z
          then {| groups := groups st ++ [curGroup]; curGroup := [];
                  visitedNodeIds := visited |}
          else {| groups := groups st; curGroup := curGroup;
                  visitedNodeIds := visited |} in
        foldlM (visit fuel layoutGraph mg) st
               (default [] (LayoutGraph.outgoingEdges layoutGraph !! id n))
  end.

(** The buckets of one split: the roots of the layout graph, the depth-first
    walk from each of them, and the leftover bucket. *)
Definition bucketize (fuel : nat) (layoutGraph : LayoutGraph.t) (mg : ModelGraph)
  : run (list (list ref)) :=
  let rootNodes :=
    omap (λ nodeId,
            if is_null (LayoutGraph.incomingEdges layoutGraph !! nodeId)
            then Some (byId mg nodeId) else None)
         (LayoutGraph.nodes layoutGraph) in
  st ← foldlM (λ st rootNode,
                 r ← deref rootNode;
                 n ← deref (obj mg r);
                 visit fuel layoutGraph mg st (id n))
              {| groups := []; curGroup := []; visitedNodeIds := [] |}
              rootNodes;
  Ret (if (Z.of_nat (length (curGroup st)) <? T)%Z
          && (0 <? Z.of_nat (length (curGroup st)))%Z
       then groups st ++ [curGroup st]
       else groups st).

(** The closure [updateNamespace]; [curGroupNode] and [newNamespacePart] are
    the variables it captures.  The loop over [node.childrenIds] walks the
    live array by index: a child that is a group is renamed in the array
    while the loop runs, and the length of the array does not change. *)
Fixpoint updateNamespace (fuel : nat) (curGroupNode : option ref)
    (newNamespacePart : string) (mg : ModelGraph) (node : ref) : run ModelGraph :=
  match fuel with
  | 0 => Timeout
  | S fuel =>
      n ← deref (obj mg node);
      let oldNamespace := namespace n in
      let ns :=
        if string_eqb oldNamespace "" then newNamespacePart
        else if is_null curGroupNode then newNamespacePart +:+ "/" +:+ namespace n
        else replace "___group___" "" (default "" (parentId n)) in
      let mg := write node (set_namespace ns) mg in
      let mg := write node (set_level (levelOf ns)) mg in
      if isGroupNode (obj mg node) then
        (* Update group node id since its namespace has been changed. *)
        let oldNodeId := id n in
        let mg := with_nodesById (delete (id n) (nodesById mg)) mg in
        let newId := ns +:+ "/" +:+ id n +:+ "___group___" in
        let mg := write node (set_id newId) mg in
        let mg := with_nodesById (<[newId := node]> (nodesById mg)) mg in
        (* Update its parent's children to use the new id. *)
        mg ← (if truthy_string (parentId n) then
                nsParent ← deref (byId mg (default "" (parentId n)));
                p ← deref (obj mg nsParent);
                match childrenIds p with
                | Some cs =>
                    match indexOf oldNodeId cs with
                    | Some index =>
                        Ret (write nsParent (set_childrenIds (Some (<[index := newId]> cs))) mg)
                    | None => Ret mg
                    end
                | None => Ret mg
                end
              else Ret mg);
        foldlM (λ mg index,
                  match childrenOf mg node !! index with
                  | Some childId =>
                      match byId mg childId with
                      | Some childNode =>
                          (* Update its children's nsParent id. *)
                          let mg := write childNode
                                      (set_parentId (id <$> obj mg node)) mg in
                          updateNamespace fuel curGroupNode newNamespacePart mg childNode
                      | None => Ret mg
                      end
                  | None => Ret mg
                  end)
               mg (seq 0 (length (childrenOf mg node)))
      else Ret mg
  end.

(** One turn of the loop over [groups]: the new section for the bucket
    [bucketNodes] (the source's [nodes]) at [groupIndex].  The state is the
    model graph and [newGroupNodes]. *)
Definition splitBucket (fuel : nat) (curGroupNode : option ref) (groupsLength : nat)
    (st : ModelGraph * list ref) (bucket : nat * list ref)
  : run (ModelGraph * list ref) :=
  let '(mg, newGroupNodes) := st in
  let '(groupIndex, bucketNodes) := bucket in
  newGroupNodeNamespace ←
    match curGroupNode return run string with
    | None => Ret ""
    | Some cur => c ← deref (obj mg cur); Ret (namespace c +:+ "/" +:+ id c)
    end;
  let baseId := "section_" +:+ show_nat (groupIndex + 1) +:+ "_of_" +:+ show_nat groupsLength in
  let newGroupNodeId := baseId +:+ "___group___" in
  ids ← mapM (λ node, n ← deref (obj mg node); Ret (id n)) bucketNodes;
  let newGroupNode := nextRef mg in
  let parent := curGroupNode ≫= obj mg in
  let mg :=
    alloc {| nodeType := GROUP_NODE;
           id := newGroupNodeId;
           namespace := newGroupNodeNamespace;
           level := 0;
           parentId := id <$> parent;
           childrenIds := Some ids;
           expanded := Some false;
           sectionContainer := Some true;
           width := None; height := None;
           incomingEdges := None; outgoingEdges := None; hideInLayout := None;
           descendantsNodeIds := None; descendantsAssetNodeIds := None |} mg in
  let newGroupNodes := newGroupNodes ++ [newGroupNode] in
  (* Add the new group node to the model graph. *)
  let mg := with_nodes (nodes mg ++ [newGroupNode]) mg in
  let mg := with_nodesById (<[newGroupNodeId := newGroupNode]> (nodesById mg)) mg in
  let mg := with_artificialGroupNodeIds
              (Some (default [] (artificialGroupNodeIds mg) ++ [newGroupNodeId])) mg in
  (* Update the ns parent for all nodes in the new group. *)
  let mg := foldl (λ mg node,
              write node (set_parentId (id <$> obj mg newGroupNode)) mg) mg bucketNodes in
  (* Update the namespace of all nodes and their descendants in the new group. *)
  let newNamespacePart := replace "___group___" "" newGroupNodeId in
  mg ← foldlM (updateNamespace fuel curGroupNode newNamespacePart) mg bucketNodes;
  let mg :=
    if is_null curGroupNode then
      (* Remove the nodes in the current new group if they are in the root
         node list. *)
      let mg := foldl (λ mg node,
                  match indexOf node (rootNodes mg) with
                  | Some index => with_rootNodes (splice1 index (rootNodes mg)) mg
                  | None => mg
                  end) mg bucketNodes in
      (* Add the new group node to root node list if its namespace is empty. *)
      if bool_decide (namespace <$> obj mg newGroupNode = Some "")
      then with_rootNodes (rootNodes mg ++ [newGroupNode]) mg
      else mg
    else mg in
  Ret (mg, newGroupNodes).

(** The branch taken when the child count is over the threshold.  It returns
    the model graph and the new value of [children]. *)
Definition splitGroup (fuel : nat) (curGroupNode : option ref)
    (children : list (option ref)) (mg : ModelGraph)
  : run (ModelGraph * list (option ref)) :=
  layoutGraph ← getLayoutGraph (default "" (id <$> (curGroupNode ≫= obj mg)))
                               children mg (testMode this) true;
  groups ← bucketize fuel layoutGraph mg;
  '(mg, newGroupNodes) ←
    foldlM (splitBucket fuel curGroupNode (length groups)) (mg, [])
           (zip (seq 0 (length groups)) groups);
  let children := if groups is [] then children else Some <$> newGroupNodes in
  (* Update curGroupNode's childrenIds. *)
  match curGroupNode with
  | Some cur =>
      ids ← mapM (λ node, n ← deref (obj mg node); Ret (id n)) newGroupNodes;
      Ret (write cur (set_childrenIds (Some ids)) mg, children)
  | None => Ret (mg, children)
  end.

(** The breadth-first loop over the group nodes; [None] in the queue is the
    root scope.  It returns the model graph and [hasLargeGroupNodes]. *)
Fixpoint splitLoop (fuel : nat) (queue : list (option ref)) (hasLargeGroupNodes : bool)
    (mg : ModelGraph) : run (ModelGraph * bool) :=
  match fuel with
  | 0 => Timeout
  | S fuel =>
      match queue with
      | [] => Ret (mg, hasLargeGroupNodes)
      | curGroupNode :: queue =>
          let children : list (option ref) :=
            match curGroupNode with
            | None => Some <$> rootNodes mg
            | Some cur => byId mg <$> childrenOf mg cur
            end in
          (* Split the group node if its child count is over the threshold. *)
          '(mg, children, hasLargeGroupNodes) ←
            (if (Z.of_nat (length children) >? T)%Z then
               '(mg, children) ← splitGroup fuel curGroupNode children mg;
               Ret (mg, children, true)
             else Ret (mg, children, hasLargeGroupNodes));
          let queue :=
            queue ++ filter (λ child, isGroupNode (child ≫= obj mg) = true) children in
          splitLoop fuel queue hasLargeGroupNodes mg
      end
  end.

Definition splitLargeGroupNodes (fuel : nat) (mg : ModelGraph) : run ModelGraph :=
  '(mg, hasLargeGroupNodes) ← splitLoop fuel [None] false mg;
  if hasLargeGroupNodes : bool then generateLayoutGraphConnections fuel mg
  else Ret mg.

(** *** [populateDescendantsAndCounts] *)

(** [gatherDescendants]; the array [descendants] is threaded through. *)
Fixpoint gatherDescendants (fuel : nat) (mg : ModelGraph) (descendants : list ref)
    (curRoot : ref) : run (list ref) :=
  match fuel with
  | 0 => Timeout
  | S fuel =>
      foldlM (λ descendants childId,
                let child := byId mg childId in
                let c := child ≫= obj mg in
                let descendants :=
                  match child with
                  | Some r =>
                      if isGroupNode c
                         || (isAssetNode c && negb (truthy_bool (c ≫= hideInLayout)))
                      then descendants ++ [r] else descendants
                  | None => descendants
                  end in
                match child with
                | Some r =>
                    if isGroupNode c then gatherDescendants fuel mg descendants r
                    else Ret descendants
                | None => Ret descendants
                end)
             descendants (childrenOf mg curRoot)
  end.

(** The ids of the objects behind a list of references. *)
Definition idsOf (mg : ModelGraph) (l : list ref) : list string :=
  omap (λ r, id <$> obj mg r) l.

(** One turn of the loop over [modelGraph.nodes]; the state is the model
    graph, [minAssetNodeCount] and [maxAssetNodeCount]. *)
Definition populate_step (fuel : nat) (st : ModelGraph * number * number) (node : ref)
  : run (ModelGraph * number * number) :=
  let '(mg, minAssetNodeCount, maxAssetNodeCount) := st in
  if isGroupNode (obj mg node) then
    descendants ← gatherDescendants fuel mg [] node;
    let mg := write node
                (set_descendants
                   (Some (idsOf mg descendants))
                   (Some (idsOf mg
                            (filter (λ r, nodeType <$> obj mg r = Some ASSET_NODE)
                                    descendants)))) mg in
    let assetNodeCount :=
      Num (Z.of_nat (length (default [] (obj mg node ≫= descendantsAssetNodeIds)))) in
    Ret (mg, Math_min assetNodeCount minAssetNodeCount,
             Math_max assetNodeCount maxAssetNodeCount)
  else Ret st.

Definition populateDescendantsAndCounts (fuel : nat) (mg : ModelGraph) : run ModelGraph :=
  '(mg, minAssetNodeCount, maxAssetNodeCount) ←
    foldlM (populate_step fuel) (mg, MAX_VALUE, NEGATIVE_INFINITY) (nodes mg);
  Ret (with_counts minAssetNodeCount maxAssetNodeCount mg).

End Splitting.

(** ** Worker events ([common/WorkerEvents.ts]) *)

Inductive ProcessingLabel :=
  | PROCESSING_NODES_AND_EDGES
  | PROCESSING_LAYOUT_DATA
  | SPLITTING_LARGE_LAYERS
  | LAYING_OUT_ROOT_LAYER.

(** [Rect] is declared in [common/types.ts]; the worker only echoes it. *)
Definition Rect : Type := Z * Z * Z * Z.

(** [postMessage] sends a structured clone: an event carries the value the
    model graph had when it was posted. *)
Inductive WorkerEvent :=
  | ProcessGraphRequest (graph : GraphData) (graphId : string) (initialLayout : option bool)
  | ProcessGraphResponse (modelGraph : ModelGraph) (graphId : string)
  | ExpandOrCollapseGroupNodeRequest
      (modelGraphId : string) (groupNodeId : option string) (expand : bool)
      (rendererId : string) (graphId : string) (all : option bool) (ts : option Z)
  | ExpandOrCollapseGroupNodeResponse
      (modelGraph : ModelGraph) (expanded : bool) (groupNodeId : option string)
      (rendererId : string) (deepestExpandedGroupNodeIds : list string)
  | RelayoutGraphRequest
      (modelGraphId : string) (targetDeepestGroupNodeIdsToExpand : option (list string))
      (selectedNodeId : string) (rendererId : string) (forRestoringUiState : option bool)
      (rectToZoomFit : option Rect) (clearAllExpandStates : option bool)
      (forRestoringSnapshotAfterTogglingFlattenLayers : option bool)
  | RelayoutGraphResponse
      (modelGraph : ModelGraph) (selectedNodeId : string) (rendererId : string)
      (forRestoringUiState : option bool) (rectToZoomFit : option Rect)
      (forRestoringSnapshotAfterTogglingFlattenLayers : option bool)
      (targetDeepestGroupNodeIdsToExpand : option (list string))
  | UpdateProcessingProgressRequest
      (graphId : string) (label : ProcessingLabel) (error : option string)
  | CleanupRequest.

(** [updateProcessingProgress] ([worker/workerUtil.ts]): the message it
    posts. *)
Definition updateProcessingProgress (graphId : string) (label : ProcessingLabel)
    (error : option string) : WorkerEvent :=
  UpdateProcessingProgressRequest graphId label error.

(** ** [GraphProcessor.process] *)

Section Process.

Variable getLayoutGraph :
  string → list (option ref) → ModelGraph → bool → bool → run LayoutGraph.t.

(** [process] returns the progress messages it has posted, in order, and
    its outcome. *)
Definition process (fuel : nat) (this : GraphProcessor) : list WorkerEvent * run ModelGraph :=
  let modelGraph := createEmptyModelGraph in
  let modelGraph := processNodes this modelGraph in
  let modelGraph := processEdgeRelationships this modelGraph in
  let p1 := updateProcessingProgress (paneId this) PROCESSING_NODES_AND_EDGES None in
  match generateLayoutGraphConnections fuel modelGraph with
  | Ret modelGraph =>
      let p2 := updateProcessingProgress (paneId this) PROCESSING_LAYOUT_DATA None in
      match splitLargeGroupNodes getLayoutGraph this fuel modelGraph with
      | Ret modelGraph =>
          let p3 := updateProcessingProgress (paneId this) SPLITTING_LARGE_LAYERS None in
          ([p1; p2; p3], populateDescendantsAndCounts fuel modelGraph)
      | r => ([p1; p2], r)
      end
  | r => ([p1], r)
  end.

End Process.

(** Modelled from the spec: [getLayoutGraph] ([worker/GraphLayout.ts]) is
    outside the files embedded here.  The spec has it build a layout-connectivity
    subgraph restricted to the given children: its nodes are the children
    that are not hidden from layout, and its edges are the successor relation
    that [layoutGraphEdges] records for the scope, between two such nodes. *)
Definition getLayoutGraph_spec (rootGroupNodeId : string) (children : list (option ref))
    (mg : ModelGraph) (testMode useFakeNodeSize : bool) : run LayoutGraph.t :=
  let visible :=
    omap (λ child : option ref,
            n ← child ≫= obj mg;
            if isAssetNode (Some n) && truthy_bool (hideInLayout n) then None
            else Some (id n)) children in
  let scope := default ∅ (layoutGraphEdges mg !! rootGroupNodeId) in
  let successors (fromNodeId : string) : list string :=
    filter (λ k, k ∈ visible)
           (fst <$> map_to_list (default ∅ (scope !! fromNodeId))) in
  let outgoing : gmap string (list string) :=
    list_to_map
      (omap (λ k, match successors k with [] => None | l => Some (k, l) end) visible) in
  let incoming : gmap string (list string) :=
    list_to_map
      (omap (λ k, match filter (λ s, k ∈ successors s) visible with
                  | [] => None
                  | l => Some (k, l)
                  end) visible) in
  Ret {| LayoutGraph.nodes := visible;
         LayoutGraph.incomingEdges := incoming;
         LayoutGraph.outgoingEdges := outgoing |}.

(** ** The worker: the session store and the message listener *)

(** Code that writes to the cached model graph in place and may throw: the
    writes made before the exception stay. *)
Definition mutating (A : Type) : Type := ModelGraph → ModelGraph * run A.

Global Instance mutating_bind : MBind mutating := λ A B (k : A → mutating B) (m : mutating A) mg,
  match m mg with
  | (mg, Ret a) => k a mg
  | (mg, Throw e) => (mg, Throw e)
  | (mg, Timeout) => (mg, Timeout)
  end.

Global Instance mutating_ret : MRet mutating := λ A (a : A) mg, (mg, Ret a).

(** Pure reads and writes, lifted. *)
Definition reading {A} (f : ModelGraph → run A) : mutating A := λ mg, (mg, f mg).
Definition writing (f : ModelGraph → ModelGraph) : mutating unit := λ mg, (f mg, Ret tt).

Fixpoint forEach {B} (f : B → mutating unit) (l : list B) : mutating unit :=
  match l with
  | [] => mret tt
  | b :: l' => _ ← f b; forEach f l'
  end.

(** The double quote character. *)
Definition dquote : string := String (Ascii.ascii_of_nat 34) "".

(** [`${e}`] for a caught exception ([Error.prototype.toString]): the name
    alone when the message is empty, [`${name}: ${message}`] otherwise.  The
    text of a [TypeError] depends on the engine and is left out. *)
Definition showError (e : JsError) : string :=
  match e with
  | TypeError => "TypeError"
  | Error message => if string_eqb message "" then "Error" else "Error: " +:+ message
  end.

Definition getModelGraphKey (modelGraphId rendererId : string) : string :=
  modelGraphId +:+ "___" +:+ rendererId.

(** The worker's state.  [MODEL_GRAPHS_CACHE] holds references to model graph
    objects, which live in [graphs]; [posted] is what [postMessage] has sent,
    in order. *)
Record Worker := {
  graphs : list ModelGraph;
  MODEL_GRAPHS_CACHE : gmap string nat;
  posted : list WorkerEvent;
}.

Definition cacheModelGraph (w : Worker) (modelGraph : nat) (rendererId : string) : Worker :=
  match graphs w !! modelGraph with
  | Some mg =>
      {| graphs := graphs w;
         MODEL_GRAPHS_CACHE :=
           <[getModelGraphKey (modelGraphId mg) rendererId := modelGraph]> (MODEL_GRAPHS_CACHE w);
         posted := posted w |}
  | None => w
  end.

Definition getCachedModelGraph (w : Worker) (modelGraphId rendererId : string) : run nat :=
  match MODEL_GRAPHS_CACHE w !! getModelGraphKey modelGraphId rendererId with
  | Some cachedModelGraph => Ret cachedModelGraph
  | None =>
      Throw (Error ("ModelGraph with id " +:+ dquote +:+ modelGraphId +:+ dquote +:+
                    " not found for rendererId " +:+ dquote +:+ rendererId +:+ dquote))
  end.

Definition postMessage (e : WorkerEvent) (w : Worker) : Worker :=
  {| graphs := graphs w; MODEL_GRAPHS_CACHE := MODEL_GRAPHS_CACHE w;
     posted := posted w ++ [e] |}.

Section Listener.

(** The collaborators that are imported from files outside the ones embedded
    here: [getLayoutGraph] and the class [GraphLayout]
    ([worker/GraphLayout.ts]), the class [GraphExpander]
    ([worker/GraphExpander.ts]), [getDeepestExpandedGroupNodeIds]
    ([common/utils.ts]) and the default threshold ([common/conts.ts]).
    Each method may write to the model graph and may throw;
    [getDeepestExpandedGroupNodeIds] pushes onto the array it is given. *)
Variable getLayoutGraph :
  string → list (option ref) → ModelGraph → bool → bool → run LayoutGraph.t.
Variable DEFAULT_GROUP_NODE_CHILDREN_COUNT_THRESHOLD : Z.
Variable GraphLayout_layout : mutating unit.
Variable reLayoutGraph : option (list string) → option bool → mutating unit.
Variable expandAllGroups : mutating (list string).
Variable collapseGroupNode : string → mutating (list string).
Variable collapseAllGroup : mutating (list string).
Variable getDeepestExpandedGroupNodeIds : option ref → list string → mutating (list string).

(** [handleProcessGraph]: the messages posted and the outcome. *)
Definition handleProcessGraph (fuel : nat) (graphId : string) (graph : GraphData)
    (initialLayout : option bool) : list WorkerEvent * run ModelGraph :=
  (* Processes the given input graph into a ModelGraph. *)
  let processor :=
    {| paneId := graphId; graph := graph;
       groupNodeChildrenCountThreshold := DEFAULT_GROUP_NODE_CHILDREN_COUNT_THRESHOLD;
       testMode := false; flattenLayers := false |} in
  match process getLayoutGraph fuel processor with
  | (msgs, Ret modelGraph) =>
      (* Check nodes with empty ids. *)
      let error : option string :=
        if is_null (byId modelGraph "") then None
        else Some "Some nodes have empty strings as ids which will cause layout failures. See console for details." in
      (* Do the initial layout. *)
      if is_null error && truthy_bool initialLayout then
        match GraphLayout_layout modelGraph with
        | (modelGraph, Ret _) =>
            (msgs ++ [updateProcessingProgress graphId LAYING_OUT_ROOT_LAYER error],
             Ret modelGraph)
        | (modelGraph, Throw e) =>
            let error := Some ("Failed to layout graph: " +:+ showError e) in
            (msgs ++ [updateProcessingProgress graphId LAYING_OUT_ROOT_LAYER error],
             Ret modelGraph)
        | (_, Timeout) => (msgs, Timeout)
        end
      else
        (msgs ++ [updateProcessingProgress graphId LAYING_OUT_ROOT_LAYER error],
         Ret modelGraph)
  | (msgs, r) => (msgs, r)
  end.

(** The [while (true)] loop of [handleExpandGroupNode]: expand the chain of
    only children that are groups; it returns the last [curGroupNode]. *)
Fixpoint expandOnlyChildren (fuel : nat) (curGroupNode : ref) : mutating ref :=
  match fuel with
  | 0 => λ mg, (mg, Timeout)
  | S fuel => λ mg,
      match childrenOf mg curGroupNode with
      | [childId] =>
          match byId mg childId with
          | Some child =>
              if isGroupNode (obj mg child) then
                expandOnlyChildren fuel child (write child (set_expanded (Some true)) mg)
              else (mg, Ret curGroupNode)
          | None => (mg, Ret curGroupNode)
          end
      | _ => (mg, Ret curGroupNode)
      end
  end.

Definition handleExpandGroupNode (fuel : nat) (groupNodeId : option string) (all : bool)
  : mutating (list string) :=
  match groupNodeId with
  | Some groupNodeId =>
      groupNode ← reading (λ mg, Ret (byId mg groupNodeId));
      isGroup ← reading (λ mg, Ret (isGroupNode (groupNode ≫= obj mg)));
      deepestExpandedGroupNodeId ←
        match groupNode with
        | Some g =>
            if isGroup : bool then
              _ ← writing (write g (set_expanded (Some true)));
              (* Recursively expand child group node if there is only one child. *)
              curGroupNode ← expandOnlyChildren fuel g;
              (* Get the deepest expanded group nodes from the curGroupNode. *)
              ids ← getDeepestExpandedGroupNodeIds (Some curGroupNode) [];
              cur ← reading (λ mg, deref (obj mg curGroupNode));
              let deepest := if ids is [] then [id cur] else ids in
              (* Clear layout data for all nodes under curGroupNode. *)
              _ ← forEach (λ nodeId,
                     node ← reading (λ mg, deref (byId mg nodeId));
                     writing (write node (set_size None None)))
                   (default [] (descendantsNodeIds cur));
              mret (Some deepest)
            else mret None
        | None => mret None
        end;
      deepestExpandedGroupNodeId ←
        (if all then
           g ← reading (λ mg, deref (groupNode ≫= obj mg));
           _ ← forEach (λ childNodeId,
                  node ← reading (λ mg, Ret (byId mg childNodeId));
                  match node with
                  | Some node =>
                      isGroup ← reading (λ mg, Ret (isGroupNode (obj mg node)));
                      if isGroup : bool then writing (write node (set_expanded (Some true)))
                      else mret tt
                  | None => mret tt
                  end)
                (default [] (descendantsNodeIds g));
           mret None
         else mret deepestExpandedGroupNodeId);
      _ ← reLayoutGraph deepestExpandedGroupNodeId None;
      getDeepestExpandedGroupNodeIds None []
  | None =>
      (* Expand all group nodes in the graph. *)
      expandAllGroups
  end.

Definition handleCollapseGroupNode (groupNodeId : option string) (all : bool)
  : mutating (list string) :=
  match groupNodeId with
  | Some groupNodeId =>
      _ ← (if all then
             groupNode ← reading (λ mg, deref (byId mg groupNodeId ≫= obj mg));
             forEach (λ childNodeId,
                  node ← reading (λ mg, Ret (byId mg childNodeId));
                  match node with
                  | Some node =>
                      isGroup ← reading (λ mg, Ret (isGroupNode (obj mg node)));
                      if isGroup : bool then
                        _ ← writing (write node (set_expanded (Some false)));
                        _ ← writing (write node (set_size None None));
                        writing (λ mg,
                          with_edgesByGroupNodeIds
                            (delete (default "" (id <$> obj mg node))
                                    (edgesByGroupNodeIds mg)) mg)
                      else mret tt
                  | None => mret tt
                  end)
                (default [] (descendantsNodeIds groupNode))
           else mret tt);
      collapseGroupNode groupNodeId
  | None => collapseAllGroup
  end.

Definition handleReLayoutGraph (targetDeepestGroupNodeIdsToExpand : option (list string))
    (clearAllExpandStates : option bool) : mutating unit :=
  reLayoutGraph targetDeepestGroupNodeIdsToExpand clearAllExpandStates.

(** Running a handler on the cached model graph object [g]: the object is
    written in place, whatever the outcome. *)
Definition onCached {A} (w : Worker) (g : nat) (h : mutating A) : Worker * run A :=
  match graphs w !! g with
  | Some mg =>
      let '(mg, r) := h mg in
      ({| graphs := <[g := mg]> (graphs w);
          MODEL_GRAPHS_CACHE := MODEL_GRAPHS_CACHE w;
          posted := posted w |}, r)
  | None => (w, Throw TypeError)
  end.

(** The message listener.  An exception that leaves it is uncaught: the
    request ends without a response. *)
Definition onMessage (fuel : nat) (w : Worker) (workerEvent : WorkerEvent)
  : Worker * run unit :=
  match workerEvent with
  (* Handle processing input graph. *)
  | ProcessGraphRequest graph graphId initialLayout =>
      let '(msgs, r) := handleProcessGraph fuel graphId graph initialLayout in
      let w := foldl (λ w e, postMessage e w) w msgs in
      match r with
      | Ret mg =>
          let modelGraph := length (graphs w) in
          let w := {| graphs := graphs w ++ [mg];
                      MODEL_GRAPHS_CACHE := MODEL_GRAPHS_CACHE w;
                      posted := posted w |} in
          let w := cacheModelGraph w modelGraph graphId in
          (postMessage (ProcessGraphResponse mg graphId) w, Ret tt)
      | Throw e => (w, Throw e)
      | Timeout => (w, Timeout)
      end
  | ExpandOrCollapseGroupNodeRequest modelGraphId groupNodeId expand rendererId _ all _ =>
      match getCachedModelGraph w modelGraphId rendererId with
      | Ret modelGraph =>
          let '(w, r) :=
            onCached w modelGraph
              (if expand
               then handleExpandGroupNode fuel groupNodeId (bool_decide (all = Some true))
               else handleCollapseGroupNode groupNodeId (bool_decide (all = Some true))) in
          match r with
          | Ret deepestExpandedGroupNodeIds =>
              let w := cacheModelGraph w modelGraph rendererId in
              match graphs w !! modelGraph with
              | Some mg =>
                  (postMessage
                     (ExpandOrCollapseGroupNodeResponse mg expand groupNodeId rendererId
                        deepestExpandedGroupNodeIds) w, Ret tt)
              | None => (w, Throw TypeError)
              end
          | Throw e => (w, Throw e)
          | Timeout => (w, Timeout)
          end
      | Throw e => (w, Throw e)
      | Timeout => (w, Timeout)
      end
  | RelayoutGraphRequest modelGraphId targetDeepestGroupNodeIdsToExpand selectedNodeId
      rendererId forRestoringUiState rectToZoomFit clearAllExpandStates
      forRestoringSnapshotAfterTogglingFlattenLayers =>
      match getCachedModelGraph w modelGraphId rendererId with
      | Ret modelGraph =>
          let '(w, r) :=
            onCached w modelGraph
              (handleReLayoutGraph targetDeepestGroupNodeIdsToExpand clearAllExpandStates) in
          match r with
          | Ret _ =>
              let w := cacheModelGraph w modelGraph rendererId in
              match graphs w !! modelGraph with
              | Some mg =>
                  (postMessage
                     (RelayoutGraphResponse mg selectedNodeId rendererId forRestoringUiState
                        rectToZoomFit forRestoringSnapshotAfterTogglingFlattenLayers
                        targetDeepestGroupNodeIdsToExpand) w, Ret tt)
              | None => (w, Throw TypeError)
              end
          | Throw e => (w, Throw e)
          | Timeout => (w, Timeout)
          end
      | Throw e => (w, Throw e)
      | Timeout => (w, Timeout)
      end
  | CleanupRequest =>
      ({| graphs := graphs w; MODEL_GRAPHS_CACHE := ∅; posted := posted w |}, Ret tt)
  | _ => (w, Ret tt)
  end.

End Listener.

(** ** Example inputs *)

(** The input graph [a → b → c], all in the group [g]. *)
Definition chainGraph : GraphData :=
  {| graphNodes := [ {| graphNodeId := "a"; graphNodeGroup := "g" |};
                     {| graphNodeId := "b"; graphNodeGroup := "g" |};
                     {| graphNodeId := "c"; graphNodeGroup := "g" |} ];
     upstream := {[ "b" := ["a"]; "c" := ["b"] ]};
     downstream := {[ "a" := ["b"]; "b" := ["c"] ]} |}.

Definition chainProcessor (threshold : Z) (flatten : bool) : GraphProcessor :=
  {| paneId := "pane"; graph := chainGraph;
     groupNodeChildrenCountThreshold := threshold;
     testMode := false; flattenLayers := flatten |}.

(** A model graph with one root group [g] that has the five asset nodes
    [a] to [e] as its children, and no edges. *)
Definition assetChild (name : string) : ModelNode :=
  {| nodeType := ASSET_NODE; namespace := "g/" +:+ name; id := name;
     parentId := Some "g"; level := 1; width := None; height := None;
     incomingEdges := None; outgoingEdges := None; hideInLayout := None;
     childrenIds := None; descendantsNodeIds := None;
     descendantsAssetNodeIds := None; expanded := None; sectionContainer := None |}.

Definition fiveChildren : ModelGraph :=
  {| modelGraphId := "<ROOT>";
     objects :=
       [ {| nodeType := GROUP_NODE; namespace := "g"; id := "g";
            parentId := None; level := 0; width := None; height := None;
            incomingEdges := None; outgoingEdges := None; hideInLayout := None;
            childrenIds := Some ["a"; "b"; "c"; "d"; "e"];
            descendantsNodeIds := None; descendantsAssetNodeIds := None;
            expanded := Some false; sectionContainer := None |};
         assetChild "a"; assetChild "b"; assetChild "c"; assetChild "d";
         assetChild "e" ];
     nodes := [0; 1; 2; 3; 4; 5];
     artificialGroupNodeIds := None;
     nodesById := list_to_map [("g", 0); ("a", 1); ("b", 2); ("c", 3); ("d", 4); ("e", 5)];
     rootNodes := [0];
     edgesByGroupNodeIds := ∅;
     maxDescendantAssetNodeCount := Num (-1);
     minDescendantAssetNodeCount := Num (-1);
     layoutGraphEdges := ∅ |}.

Definition emptyGraph : GraphData :=
  {| graphNodes := []; upstream := ∅; downstream := ∅ |}.

(** A processor with the given threshold. *)
Definition splitter (threshold : Z) : GraphProcessor :=
  {| paneId := "pane"; graph := emptyGraph;
     groupNodeChildrenCountThreshold := threshold;
     testMode := false; flattenLayers := false |}.

(** The outcome of the splitter on [fiveChildren] with threshold 2. *)
Definition splitFive : ModelGraph :=
  match splitLargeGroupNodes getLayoutGraph_spec (splitter 2) 50 fiveChildren with
  | Ret mg => mg
  | _ => fiveChildren
  end.

(** A worker that has served one [ProcessGraph] request, for the graph
    [a → b → c] under the graph id ["graph-1"], with collaborators that do
    nothing. *)
Definition emptyWorker : Worker :=
  {| graphs := []; MODEL_GRAPHS_CACHE := ∅; posted := [] |}.

Definition chainWorker : Worker :=
  (onMessage getLayoutGraph_spec 10
     (λ mg, (mg, Ret tt)) (λ _ _ mg, (mg, Ret tt)) (λ mg, (mg, Ret []))
     (λ _ mg, (mg, Ret [])) (λ mg, (mg, Ret [])) (λ _ ids mg, (mg, Ret ids))
     20 emptyWorker (ProcessGraphRequest chainGraph "graph-1" None)).1.

(** The group hierarchy below the node [r] is at most [d] levels deep. *)
Fixpoint depthWithin (d : nat) (mg : ModelGraph) (r : ref) : bool :=
  match d with
  | 0 => false
  | S d =>
      forallb (λ childId,
                 match byId mg childId with
                 | Some child =>
                     if isGroupNode (obj mg child) then depthWithin d mg child else true
                 | None => true
                 end)
              (childrenOf mg r)
  end.

(** The model graph that worker caches. *)
Definition chainModelGraph : ModelGraph :=
  match (process getLayoutGraph_spec 20
           {| paneId := "graph-1"; graph := chainGraph;
              groupNodeChildrenCountThreshold := 10;
              testMode := false; flattenLayers := false |}).2 with
  | Ret mg => mg
  | _ => createEmptyModelGraph
  end.


(** Every scope of the model graph, the root scope and every group, has at
    most [threshold] direct children. *)
Definition withinThreshold (threshold : Z) (mg : ModelGraph) : Prop :=
  (Z.of_nat (length (rootNodes mg)) ≤ threshold)%Z ∧
  Forall (λ n, (Z.of_nat (length (default [] (childrenIds n))) ≤ threshold)%Z)
         (objects mg).

(** The outcome of the splitter on [fiveChildren] with threshold 3. *)
Definition splitFiveByThree : ModelGraph :=
  match splitLargeGroupNodes getLayoutGraph_spec (splitter 3) 50 fiveChildren with
  | Ret mg => mg
  | _ => fiveChildren
  end.

(** ** Specification predicates and proof invariants *)

(** What the pass leaves on a group node: both descendant lists are set, the
    asset ids are among the descendant ids, and their number lies between the
    two bounds. *)
Definition descendantsConsistent (mn mx : number) (n : ModelNode) : Prop :=
  ∃ all assets,
    descendantsNodeIds n = Some all ∧
    descendantsAssetNodeIds n = Some assets ∧
    assets ⊆ all ∧
    number_leb mn (Num (Z.of_nat (length assets))) = true ∧
    number_leb (Num (Z.of_nat (length assets))) mx = true.

(** Every key of [nodesById] refers to a live object that carries the key as
    its id. *)
Definition index_ok (mg : ModelGraph) : Prop :=
  ∀ k r, nodesById mg !! k = Some r → ∃ n, obj mg r = Some n ∧ id n = k.

(** A node as the builder creates it: no parent, no children, not hidden, no
    descendant lists. *)
Definition bare (n : ModelNode) : Prop :=
  parentId n = None ∧ childrenIds n = None ∧ hideInLayout n = None ∧
  descendantsNodeIds n = None ∧ descendantsAssetNodeIds n = None ∧
  sectionContainer n = None.

(** What holds of the model graph all along the builder's passes. *)
Record built (mg : ModelGraph) : Prop := {
  built_id : modelGraphId mg = "<ROOT>";
  built_rootNodes : rootNodes mg = [];
  built_nodes : nodes mg = seq 0 (length (objects mg));
  built_index : index_ok mg;
  built_bare : ∀ r n, obj mg r = Some n → bare n;
  built_artificial : artificialGroupNodeIds mg = None;
}.

(** The fields that the edge pass does not touch. *)
Definition skeleton (n : ModelNode) :=
  (nodeType n, namespace n, id n, parentId n, level n, width n, height n,
   hideInLayout n, childrenIds n, descendantsNodeIds n, descendantsAssetNodeIds n,
   expanded n, sectionContainer n).

(** Two model graphs that differ in the edge lists of their nodes only. *)
Record sameButEdges (mg mg' : ModelGraph) : Prop := {
  sbe_id : modelGraphId mg' = modelGraphId mg;
  sbe_rootNodes : rootNodes mg' = rootNodes mg;
  sbe_nodes : nodes mg' = nodes mg;
  sbe_nodesById : nodesById mg' = nodesById mg;
  sbe_artificial : artificialGroupNodeIds mg' = artificialGroupNodeIds mg;
  sbe_layout : layoutGraphEdges mg' = layoutGraphEdges mg;
  sbe_length : length (objects mg') = length (objects mg);
  sbe_skeleton : ∀ r, skeleton <$> obj mg' r = skeleton <$> obj mg r;
}.

(** How many outgoing edges to [b] the node registered under the id [a]
    holds, and how many incoming edges from [a] the node registered under
    [b] holds. *)
Definition outgoingCount (mg : ModelGraph) (a b : string) : nat :=
  match byId mg a with
  | Some A =>
      length (filter (λ e, targetNodeId e = b) (default [] (edgesOf outgoingEdges mg A)))
  | None => 0
  end.

Definition incomingCount (mg : ModelGraph) (b a : string) : nat :=
  match byId mg b with
  | Some B =>
      length (filter (λ e, sourceNodeId e = a) (default [] (edgesOf incomingEdges mg B)))
  | None => 0
  end.

(** The invariant of the edge pass: for a registered source the two counts
    agree, they are at most one, and an object that is not the one registered
    under its id holds no edge list. *)
Record edgesSymmetric (mg : ModelGraph) : Prop := {
  es_count : ∀ a b, is_Some (byId mg a) → outgoingCount mg a b = incomingCount mg b a;
  es_once : ∀ a b, incomingCount mg b a ≤ 1;
  es_shadowed : ∀ r n, obj mg r = Some n → byId mg (id n) ≠ Some r →
                       incomingEdges n = None ∧ outgoingEdges n = None;
}.






(** Edge symmetry as the spec states it: for any two nodes [A] and [B] of
    the node list, [A] has an outgoing edge to [B] if and only if [B] has an
    incoming edge from [A].  (An edge names its two ends by their ids.) *)
Definition edgeSymmetry (mg : ModelGraph) : Prop :=
  ∀ A B nA nB, A ∈ nodes mg → B ∈ nodes mg → obj mg A = Some nA → obj mg B = Some nB →
    (∃ e, e ∈ default [] (outgoingEdges nA) ∧ targetNodeId e = id nB) ↔
    (∃ e, e ∈ default [] (incomingEdges nB) ∧ sourceNodeId e = id nA).

(** The ids of the input graph are pairwise distinct: no two nodes share an
    id and, unless the layers are flattened, no node has the id of a
    group. *)
Definition distinctIds (this : GraphProcessor) : Prop :=
  NoDup (graphNodeId <$> graphNodes (graph this)) ∧
  (flattenLayers this = false →
   ∀ k, k ∈ graphNodeId <$> graphNodes (graph this) →
        k ∉ groupIdForNode <$> graphNodes (graph this)).

(** Every node object is the one that [nodesById] registers under its
    id. *)
Definition allRegistered (mg : ModelGraph) : Prop :=
  ∀ r n, obj mg r = Some n → nodesById mg !! id n = Some r.

(** Every incoming edge that the edge pass stores has a source that
    [nodesById] leads somewhere: to a node, or to an object of the
    runtime. *)
Definition sourcesFound (mg : ModelGraph) : Prop :=
  ∀ r e, e ∈ default [] (edgesOf incomingEdges mg r) →
         lookupById mg (sourceNodeId e) ≠ Undefined.

(** The work the breadth-first loop has left: the queue, and for every object
    whose id has not been seen, one visit and the pushes of its outgoing
    edges. *)
Definition outDegree (n : ModelNode) : nat := length (default [] (outgoingEdges n)).

Definition unseenWork (mg : ModelGraph) (seen : list string) : nat :=
  sum_list_with (λ n, if decide (id n ∈ seen) then 0 else S (outDegree n)) (objects mg).

(** Enough fuel for [process] on a given input. *)
Definition processFuel (this : GraphProcessor) : nat :=
  2 + length (nodes (build this)) + unseenWork (build this) [].

(** What [process] leaves on a node: no parent, no children, and, on a group
    node that the statistics pass has reached, two empty descendant lists. *)
Definition flat (done : list ref) (mg : ModelGraph) : Prop :=
  ∀ r n, obj mg r = Some n →
    parentId n = None ∧ childrenIds n = None ∧
    (r ∈ done → nodeType n = GROUP_NODE →
     descendantsNodeIds n = Some [] ∧ descendantsAssetNodeIds n = Some []).



(** A section group: an artificial group node whose child list is a
    bucket. *)
Definition section_ok (this : GraphProcessor) (n : ModelNode) : Prop :=
  nodeType n = GROUP_NODE ∧ sectionContainer n = Some true ∧
  ∃ cs, childrenIds n = Some cs ∧ 1 ≤ length cs ∧
        (Z.of_nat (length cs) ≤ groupNodeChildrenCountThreshold this)%Z.

(** The invariant of a run that started on a model graph with [L] objects and
    the node list [N0]: the store holds at least [M] objects, the node list
    has only grown, by references to objects created since, and every object
    created since is a section group. *)
Record splitInv (this : GraphProcessor) (L : nat) (N0 : list ref) (M : nat)
    (mg : ModelGraph) : Prop := {
  si_length : M ≤ length (objects mg);
  si_nodes : ∃ news, nodes mg = N0 ++ news ∧
                     Forall (λ r, L ≤ r < length (objects mg)) news;
  si_sections : ∀ r n, L ≤ r → obj mg r = Some n → section_ok this n;
}.

(** ** Further specification predicates and proof invariants *)

(** The graphs the model covers: [__proto__] is neither the id of a node,
    nor a group id, nor an upstream key.  (An assignment to
    [nodesById["__proto__"]] replaces the prototype of the record, and an
    upstream key [__proto__] makes the edge pass write on [Object.prototype],
    which every object inherits from.) *)
Definition plainKeys (g : GraphData) : Prop :=
  ("__proto__" ∉ graphNodeId <$> graphNodes g) ∧
  ("__proto__" ∉ groupIdForNode <$> graphNodes g) ∧
  map_Forall (λ _ keys, "__proto__" ∉ (keys : list string)) (upstream g).

Global Instance plainKeys_dec (g : GraphData) : Decision (plainKeys g).
Proof. unfold plainKeys. apply _. Defined.

(** The node objects of [modelGraph.nodes], in order. *)
Definition nodeList (mg : ModelGraph) : list ModelNode := omap (obj mg) (nodes mg).

(** What a group node is created with: level 0, its id as its namespace,
    collapsed. *)
Definition freshGroup (n : ModelNode) : Prop :=
  level n = 0 ∧ namespace n = id n ∧ expanded n = Some false.

(** Every edge stored on a node has that node as its end: the target of an
    incoming edge, the source of an outgoing edge. *)
Definition edgesAnchored (mg : ModelGraph) : Prop :=
  (∀ r e, e ∈ default [] (edgesOf incomingEdges mg r) →
          id <$> obj mg r = Some (targetNodeId e)) ∧
  (∀ r e, e ∈ default [] (edgesOf outgoingEdges mg r) →
          id <$> obj mg r = Some (sourceNodeId e)).

(** The fields of a node that the statistics pass does not write: all but
    the two descendant lists. *)
Definition nodeBody (n : ModelNode) :=
  (nodeType n, namespace n, id n, parentId n, level n, width n, height n,
   incomingEdges n, outgoingEdges n, hideInLayout n, childrenIds n,
   expanded n, sectionContainer n).

(** Two model graphs that differ in the descendant lists of group nodes and
    in the two counts only. *)
Record sameButDescendants (mg mg' : ModelGraph) : Prop := {
  sbd_id : modelGraphId mg' = modelGraphId mg;
  sbd_nodes : nodes mg' = nodes mg;
  sbd_nodesById : nodesById mg' = nodesById mg;
  sbd_rootNodes : rootNodes mg' = rootNodes mg;
  sbd_artificial : artificialGroupNodeIds mg' = artificialGroupNodeIds mg;
  sbd_edges : edgesByGroupNodeIds mg' = edgesByGroupNodeIds mg;
  sbd_layout : layoutGraphEdges mg' = layoutGraphEdges mg;
  sbd_length : length (objects mg') = length (objects mg);
  sbd_body : ∀ r, nodeBody <$> obj mg' r = nodeBody <$> obj mg r;
  sbd_assets : ∀ r n, obj mg r = Some n → nodeType n = ASSET_NODE → obj mg' r = Some n;
}.

(** A node that [gatherDescendants] lists when it meets it: a group node, or
    an asset node that is not hidden from layout. *)
Definition listed (mg : ModelGraph) (d : ref) : Prop :=
  isGroupNode (obj mg d) || (isAssetNode (obj mg d) &&
                             negb (truthy_bool (obj mg d ≫= hideInLayout))) = true.

(** The descendants of the node [r]: the nodes its [childrenIds] register,
    and the descendants of those of them that are group nodes. *)
Inductive descendantOf (mg : ModelGraph) : ref → ref → Prop :=
  | descendant_child r c d :
      c ∈ childrenOf mg r → byId mg c = Some d → descendantOf mg r d
  | descendant_deeper r c g d :
      c ∈ childrenOf mg r → byId mg c = Some g → isGroupNode (obj mg g) = true →
      descendantOf mg g d → descendantOf mg r d.

(** What the pass stores on the group node [r]: the ids of the nodes that
    [gatherDescendants] collects from [r], and those of the asset nodes among
    them. *)
Definition gathered (fuel : nat) (mg : ModelGraph) (r : ref) (n : ModelNode) : Prop :=
  ∃ ds, gatherDescendants fuel mg [] r = Ret ds ∧
        descendantsNodeIds n = Some (idsOf mg ds) ∧
        descendantsAssetNodeIds n
        = Some (idsOf mg (filter (λ d, nodeType <$> obj mg d = Some ASSET_NODE) ds)).

(** A count that is the number of descendant asset nodes of a group node
    among [l]. *)
Definition attained (mg : ModelGraph) (l : list ref) (v : number) : Prop :=
  ∃ r n, r ∈ l ∧ obj mg r = Some n ∧ nodeType n = GROUP_NODE ∧
         v = Num (Z.of_nat (length (default [] (descendantsAssetNodeIds n)))).

(** The state of the depth-first bucketing, all along the walk: every closed
    bucket is full, the open bucket is not, no id has been visited twice, and
    the buckets hold, in the order of the visits, the nodes registered under
    the visited ids. *)
Record bucketsInv (this : GraphProcessor) (mg : ModelGraph) (st : Buckets) : Prop := {
  bi_full : Forall (λ b, Z.of_nat (length b) = groupNodeChildrenCountThreshold this ∧
                         0 < length b)
                   (groups st);
  bi_open : (1 ≤ groupNodeChildrenCountThreshold this)%Z →
            (Z.of_nat (length (curGroup st)) < groupNodeChildrenCountThreshold this)%Z;
  bi_NoDup : NoDup (visitedNodeIds st);
  bi_nodes : Some <$> (concat (groups st) ++ curGroup st) = byId mg <$> visitedNodeIds st;
}.

(** The depth-first walk of a graph given by its successor lists, as a
    relation between the ids visited before and after: [walkFrom succ seen v
    seen'] visits [v] unless it has been visited, and then its successors in
    order; [walkAll] walks from each id of a list in turn.  The ids are kept
    in the order of their first visit. *)
Inductive walkFrom (succ : string → list string) : list string → string → list string → Prop :=
  | walk_seen seen v : v ∈ seen → walkFrom succ seen v seen
  | walk_new seen v seen' :
      v ∉ seen → walkAll succ (seen ++ [v]) (succ v) seen' → walkFrom succ seen v seen'
with walkAll (succ : string → list string) : list string → list string → list string → Prop :=
  | walkAll_nil seen : walkAll succ seen [] seen
  | walkAll_cons seen v vs seen1 seen2 :
      walkFrom succ seen v seen1 → walkAll succ seen1 vs seen2 →
      walkAll succ seen (v :: vs) seen2.

Scheme walkFrom_walkAll_ind := Induction for walkFrom Sort Prop
  with walkAll_walkFrom_ind := Induction for walkAll Sort Prop.

(** The ids of a layout graph in the order of the depth-first walk from its
    roots, the nodes without incoming edges, in the order of
    [Object.keys(layoutGraph.nodes)]. *)
Definition depthFirst (layoutGraph : LayoutGraph.t) (visited : list string) : Prop :=
  walkAll (λ v, default [] (LayoutGraph.outgoingEdges layoutGraph !! v)) []
          (filter (λ nodeId, LayoutGraph.incomingEdges layoutGraph !! nodeId = None)
                  (LayoutGraph.nodes layoutGraph))
          visited.

(** The id of a section group: [`section_${i}_of_${n}___group___`], for the
    [i]-th of [n] buckets. *)
Definition sectionId (x : string) : Prop :=
  ∃ i n, 1 ≤ i ≤ n ∧
         x = ("section_" +:+ show_nat i +:+ "_of_" +:+ show_nat n) +:+ "___group___".

(** The fields of the model graph that a split does not write, its list of
    artificial group ids and its node list. *)
Definition frameFields (mg : ModelGraph) :=
  (modelGraphId mg, edgesByGroupNodeIds mg, minDescendantAssetNodeCount mg,
   maxDescendantAssetNodeCount mg, layoutGraphEdges mg,
   artificialGroupNodeIds mg, nodes mg).

(** What a run of the splitter that started on [mg0] keeps: the id, the
    edges per group, the two counts and the layout edges are those of [mg0],
    and the list of artificial group ids has grown by one section id for
    every node the node list has grown by. *)
Record splitFrame (mg0 mg : ModelGraph) : Prop := {
  sf_id : modelGraphId mg = modelGraphId mg0;
  sf_edges : edgesByGroupNodeIds mg = edgesByGroupNodeIds mg0;
  sf_min : minDescendantAssetNodeCount mg = minDescendantAssetNodeCount mg0;
  sf_max : maxDescendantAssetNodeCount mg = maxDescendantAssetNodeCount mg0;
  sf_layout : layoutGraphEdges mg = layoutGraphEdges mg0;
  sf_sections :
    ∃ ids, default [] (artificialGroupNodeIds mg)
           = default [] (artificialGroupNodeIds mg0) ++ ids ∧
           length (nodes mg) = length (nodes mg0) + length ids ∧
           Forall sectionId ids;
}.

(** Two model graphs of which the second has had group nodes expanded, and
    nothing else written. *)
Record onlyExpanded (mg mg' : ModelGraph) : Prop := {
  oe_nodes : nodes mg' = nodes mg;
  oe_nodesById : nodesById mg' = nodesById mg;
  oe_objects : ∀ r,
    match obj mg' r, obj mg r with
    | Some n', Some n =>
        n' = n ∨ (nodeType n = GROUP_NODE ∧ n' = set_expanded (Some true) n)
    | None, None => True
    | _, _ => False
    end;
}.

(** A group node with exactly one child, which is a group node. *)
Definition hasOnlyGroupChild (mg : ModelGraph) (r : ref) : Prop :=
  ∃ childId child,
    childrenOf mg r = [childId] ∧ byId mg childId = Some child ∧
    isGroupNode (obj mg child) = true.

(** A node as the collapse-all loop leaves a group node: collapsed, with no
    size. *)
Definition collapsed (n : ModelNode) : ModelNode :=
  set_size None None (set_expanded (Some false) n).

(** Two model graphs of which the second has had group nodes collapsed and
    their edges dropped from [edgesByGroupNodeIds], and nothing else
    written. *)
Record onlyCollapsed (mg mg' : ModelGraph) : Prop := {
  oc_nodes : nodes mg' = nodes mg;
  oc_nodesById : nodesById mg' = nodesById mg;
  oc_objects : ∀ r,
    match obj mg' r, obj mg r with
    | Some n', Some n => n' = n ∨ (nodeType n = GROUP_NODE ∧ n' = collapsed n)
    | None, None => True
    | _, _ => False
    end;
  oc_edges : ∀ k, edgesByGroupNodeIds mg' !! k = None ∨
                  edgesByGroupNodeIds mg' !! k = edgesByGroupNodeIds mg !! k;
}.

(** ** Worker events, continued ([common/WorkerEvents.ts]) *)



(** The text of the error [getCachedModelGraph] throws. *)
Definition notFound (modelGraphId rendererId : string) : JsError :=
  Error ("ModelGraph with id " +:+ dquote +:+ modelGraphId +:+ dquote +:+
         " not found for rendererId " +:+ dquote +:+ rendererId +:+ dquote).

(** ** The graph id of the layout hook ([useAssetGraphLayoutV2.tsx])

    [computeGraphId] reads the raw JavaScript objects of a [GraphData]: it
    lists their keys, sorts them, and builds new objects.  A plain object
    that is iterated is kept as the list of its own enumerable properties in
    property order: the keys that are array indices first, in ascending
    numeric order, then the other keys in the order of their creation. *)
Definition Obj (V : Type) : Type := list (string * V).

(** [Object.keys(o)]. *)
Definition Object_keys {V} (o : Obj V) : list string := o.*1.

(** [o[k]], for an own property. *)
Fixpoint getProp {V} (k : string) (o : Obj V) : option V :=
  match o with
  | [] => None
  | (k', v) :: o' => if string_eqb k' k then Some v else getProp k o'
  end.

(** An array index: the canonical decimal form of an integer below
    [2^32 - 1]. *)
Definition arrayIndex (k : string) : option N :=
  u ← NilEmpty.uint_of_string k;
  let n := N.of_uint u in
  if string_eqb (NilEmpty.string_of_uint (N.to_uint n)) k && (n <? 2 ^ 32 - 1)%N
  then Some n else None.

(** Where a new property goes: an array index before the first key that is
    not one or is a larger one, any other key at the end. *)
Fixpoint insertProp {V} (k : string) (v : V) (o : Obj V) : Obj V :=
  match o with
  | [] => [(k, v)]
  | (k', v') :: o' =>
      match arrayIndex k, arrayIndex k' with
      | Some i, Some i' =>
          if (i <? i')%N then (k, v) :: o else (k', v') :: insertProp k v o'
      | Some _, None => (k, v) :: o
      | None, _ => (k', v') :: insertProp k v o'
      end
  end.

(** [o[k] = v] on an object created by [{}].  Assigning to [__proto__] goes to
    the accessor of [Object.prototype] and creates no own property. *)
Definition setProp {V} (k : string) (v : V) (o : Obj V) : Obj V :=
  if string_eqb k "__proto__" then o
  else if bool_decide (k ∈ Object_keys o)
       then (λ kv, if string_eqb kv.1 k then (k, v) else kv) <$> o
       else insertProp k v o.

(** The object literal that [computeGraphId] hands to [JSON.stringify]: the
    two records rebuilt with sorted keys, and the array of the nodes. *)
Record GraphIdPayload (V : Type) : Type := {
  payloadDownstream : Obj (Obj bool);
  payloadUpstream : Obj (Obj bool);
  payloadNodes : list V;
}.

Arguments payloadDownstream {V} g.

Arguments payloadUpstream {V} g.

Arguments payloadNodes {V} g.

(** The raw [GraphData]: [nodes] maps a key to a graph node, [upstream] and
    [downstream] map a key to a record of flags. *)
Record RawGraphData (V : Type) : Type := {
  rawNodes : Obj V;
  rawUpstream : Obj (Obj bool);
  rawDownstream : Obj (Obj bool);
}.

Arguments rawNodes {V} r.

Arguments rawUpstream {V} r.

Arguments rawDownstream {V} r.

Section ComputeGraphId.

(** The graph nodes are values of a type [V].  [Array.prototype.sort] with no
    comparator orders strings by their UTF-16 code units: a total order
    [code_unit_le] on strings, of which nothing else is used.
    [JSON.stringify] is a function of the value it is given. *)
Context {V : Type}.

Variable code_unit_le : relation string.

Context `{!RelDecision code_unit_le}.

Variable JSON_stringify : GraphIdPayload V → string.

(** [keys.sort()]. *)
Definition Array_sort (keys : list string) : list string := merge_sort code_unit_le keys.

(** The closure [recreateObjectWithKeysSorted].  A key that
    [Object.keys] lists is an own property, so both lookups find it. *)
Definition recreateObjectWithKeysSorted (obj : Obj (Obj bool)) : Obj (Obj bool) :=
  foldl (λ newObj key,
           match getProp key obj with
           | Some inner =>
               setProp key
                 (foldl (λ acc k,
                           match getProp k inner with
                           | Some flag => setProp k flag acc
                           | None => acc
                           end) [] (Array_sort (Object_keys inner)))
                 newObj
           | None => newObj
           end) [] (Array_sort (Object_keys obj)).

Definition computeGraphId (graphData : RawGraphData V) : string :=
  JSON_stringify
    {| payloadDownstream := recreateObjectWithKeysSorted (rawDownstream graphData);
       payloadUpstream := recreateObjectWithKeysSorted (rawUpstream graphData);
       payloadNodes :=
         omap (λ key, getProp key (rawNodes graphData))
              (Array_sort (Object_keys (rawNodes graphData))) |}.

End ComputeGraphId.

(** Two objects with the same properties, whatever the order of their
    keys. *)
Definition sameProps {V} (o1 o2 : Obj V) : Prop :=
  NoDup (Object_keys o1) ∧ NoDup (Object_keys o2) ∧ o1 ≡ₚ o2.

(** Two records of flag records with the same properties at both levels. *)
Definition sameFlags (o1 o2 : Obj (Obj bool)) : Prop :=
  NoDup (Object_keys o1) ∧ NoDup (Object_keys o2) ∧
  Object_keys o1 ≡ₚ Object_keys o2 ∧
  ∀ k i1 i2, getProp k o1 = Some i1 → getProp k o2 = Some i2 → sameProps i1 i2.

(** ** Further example inputs *)

(** The input graph [g → b] in which the asset [g], of the group [h], has
    the id of the group of [b]: the group node [g] takes the place of the
    asset node [g] in [nodesById]. *)
Definition shadowGraph : GraphData :=
  {| graphNodes := [ {| graphNodeId := "g"; graphNodeGroup := "h" |};
                     {| graphNodeId := "b"; graphNodeGroup := "g" |} ];
     upstream := {[ "b" := ["g"] ]};
     downstream := {[ "g" := ["b"] ]} |}.

Definition shadowProcessor : GraphProcessor :=
  {| paneId := "pane"; graph := shadowGraph;
     groupNodeChildrenCountThreshold := 10;
     testMode := false; flattenLayers := false |}.

(** The input graph [a → b → c], all in the group [g], in which [b] also
    lists the upstream keys [constructor], a key of [Object.prototype], and
    [missing], which names nothing. *)
Definition runtimeKeyGraph : GraphData :=
  {| graphNodes := [ {| graphNodeId := "a"; graphNodeGroup := "g" |};
                     {| graphNodeId := "b"; graphNodeGroup := "g" |};
                     {| graphNodeId := "c"; graphNodeGroup := "g" |} ];
     upstream := {[ "b" := ["a"; "constructor"; "missing"]; "c" := ["b"] ]};
     downstream := {[ "a" := ["b"]; "b" := ["c"] ]} |}.

Definition runtimeKeyProcessor (flatten : bool) : GraphProcessor :=
  {| paneId := "pane"; graph := runtimeKeyGraph;
     groupNodeChildrenCountThreshold := 10;
     testMode := false; flattenLayers := flatten |}.

(** The outcome of the statistics pass on [splitFive]. *)
Definition splitFiveStats : ModelGraph :=
  match populateDescendantsAndCounts 5 splitFive with
  | Ret mg => mg
  | _ => splitFive
  end.

(** A layout graph of the five children of [fiveChildren] that branches:
    [a → c → d], [a → e], and [b] on its own. *)
Definition branchingLayout : LayoutGraph.t :=
  {| LayoutGraph.nodes := ["a"; "b"; "c"; "d"; "e"];
     LayoutGraph.incomingEdges := {[ "c" := ["a"]; "d" := ["c"]; "e" := ["a"] ]};
     LayoutGraph.outgoingEdges := {[ "a" := ["c"; "e"]; "c" := ["d"] ]} |}.




(** A model graph in which the group [outer] has the group [inner] as its
    only child, and [inner] has the two asset nodes [a] and [b] as its
    children. *)
Definition nestedGroups : ModelGraph :=
  {| modelGraphId := "<ROOT>";
     objects :=
       [ {| nodeType := GROUP_NODE; namespace := ""; id := "outer";
            parentId := None; level := 0; width := None; height := None;
            incomingEdges := None; outgoingEdges := None; hideInLayout := None;
            childrenIds := Some ["inner"];
            descendantsNodeIds := Some ["inner"; "a"; "b"];
            descendantsAssetNodeIds := Some ["a"; "b"];
            expanded := Some false; sectionContainer := None |};
         {| nodeType := GROUP_NODE; namespace := "outer"; id := "inner";
            parentId := Some "outer"; level := 1; width := Some 10%Z; height := Some 10%Z;
            incomingEdges := None; outgoingEdges := None; hideInLayout := None;
            childrenIds := Some ["a"; "b"];
            descendantsNodeIds := Some ["a"; "b"];
            descendantsAssetNodeIds := Some ["a"; "b"];
            expanded := Some true; sectionContainer := None |};
         {| nodeType := ASSET_NODE; namespace := "outer/inner"; id := "a";
            parentId := Some "inner"; level := 2; width := None; height := None;
            incomingEdges := None; outgoingEdges := None; hideInLayout := None;
            childrenIds := None; descendantsNodeIds := None;
            descendantsAssetNodeIds := None; expanded := None; sectionContainer := None |};
         {| nodeType := ASSET_NODE; namespace := "outer/inner"; id := "b";
            parentId := Some "inner"; level := 2; width := None; height := None;
            incomingEdges := None; outgoingEdges := None; hideInLayout := None;
            childrenIds := None; descendantsNodeIds := None;
            descendantsAssetNodeIds := None; expanded := None; sectionContainer := None |} ];
     nodes := [0; 1; 2; 3];
     artificialGroupNodeIds := None;
     nodesById := list_to_map [("outer", 0); ("inner", 1); ("a", 2); ("b", 3)];
     rootNodes := [0];
     edgesByGroupNodeIds := {[ "inner" := [] ]};
     maxDescendantAssetNodeCount := Num 2;
     minDescendantAssetNodeCount := Num 2;
     layoutGraphEdges := ∅ |}.

(** Collaborators that do nothing. *)
Definition idleLayout : mutating unit := λ mg, (mg, Ret tt).

Definition idleReLayoutGraph : option (list string) → option bool → mutating unit :=
  λ _ _ mg, (mg, Ret tt).

Definition idleExpandAllGroups : mutating (list string) := λ mg, (mg, Ret []).

Definition idleCollapseGroupNode : string → mutating (list string) := λ _ mg, (mg, Ret []).

Definition idleCollapseAllGroup : mutating (list string) := λ mg, (mg, Ret []).

Definition idleGetDeepestExpandedGroupNodeIds
  : option ref → list string → mutating (list string) := λ _ ids mg, (mg, Ret ids).

(** A stand-in for [JSON.stringify] on a payload whose keys and nodes are
    plain words: no character is escaped. *)
Definition showFlags (o : Obj bool) : string :=
  "{" +:+ foldr (λ kb s, dquote +:+ kb.1 +:+ dquote +:+ ":" +:+
                         (if kb.2 : bool then "true" else "false") +:+ "," +:+ s) "}" o.

Definition showRecords (o : Obj (Obj bool)) : string :=
  "{" +:+ foldr (λ kv s, dquote +:+ kv.1 +:+ dquote +:+ ":" +:+ showFlags kv.2 +:+ "," +:+ s)
                "}" o.

Definition showPayload (p : GraphIdPayload string) : string :=
  "{downstream:" +:+ showRecords (payloadDownstream p) +:+
  ",upstream:" +:+ showRecords (payloadUpstream p) +:+
  ",nodes:[" +:+ foldr (λ n s, n +:+ "," +:+ s) "]}" (payloadNodes p).

(** The graph [a → b], with its keys in two different orders. *)
Definition rawGraphAB : RawGraphData string :=
  {| rawNodes := [("a", "A"); ("b", "B")];
     rawUpstream := [("a", []); ("b", [("a", true)])];
     rawDownstream := [("a", [("b", true)]); ("b", [])] |}.

Definition rawGraphBA : RawGraphData string :=
  {| rawNodes := [("b", "B"); ("a", "A")];
     rawUpstream := [("b", [("a", true)]); ("a", [])];
     rawDownstream := [("b", []); ("a", [("b", true)])] |}.

(** * Properties *)

(** ** The object store *)

Lemma obj_write r f mg r' :
  obj (write r f mg) r' = if decide (r = r') then f <$> obj mg r' else obj mg r'.
Proof.
  unfold obj, write; simpl. rewrite list_lookup_alter.
  repeat case_decide; by subst.
Qed.

Lemma obj_write_eq r f mg : obj (write r f mg) r = f <$> obj mg r.
Proof. rewrite obj_write. by case_decide. Qed.

Lemma obj_write_ne r f mg r' : r ≠ r' → obj (write r f mg) r' = obj mg r'.
Proof. intros. rewrite obj_write. by case_decide. Qed.

Lemma byId_write r f mg k : byId (write r f mg) k = byId mg k.
Proof.
  unfold byId; simpl. destruct (nodesById mg !! k) as [r'|]; [|done].
  rewrite obj_write. case_decide; [|done]. by destruct (obj mg r').
Qed.

Lemma bind_Ret {A B} (m : run A) (k : A → run B) (b : B) :
  m ≫= k = Ret b → ∃ a, m = Ret a ∧ k a = Ret b.
Proof. destruct m; simpl; intros; [eauto|done..]. Qed.

(** Undo the binds of a run that returned. *)
Ltac inv_run :=
  repeat match goal with
  | H : Ret _ = Ret _ |- _ => injection H as H; try subst
  | H : Throw _ = Ret _ |- _ => discriminate H
  | H : Timeout = Ret _ |- _ => discriminate H
  | H : mret _ = Ret _ |- _ => injection H as H; try subst
  | H : _ ≫= _ = Ret _ |- _ =>
      let a := fresh "a" in
      let Ha := fresh "Ha" in
      apply bind_Ret in H as (a & Ha & H)
  | H : deref ?o = Ret _ |- _ =>
      destruct o eqn:?; simpl in H; [injection H as H; try subst | discriminate H]
  end.

Lemma foldlM_cons {A B} (f : A → B → run A) a b l :
  foldlM f a (b :: l) = f a b ≫= λ a', foldlM f a' l.
Proof. done. Qed.

(** An invariant of a loop that may throw, when the loop returns. *)
Lemma foldlM_inv {A B} (P : A → Prop) (f : A → B → run A) l a a' :
  (∀ a b a', b ∈ l → P a → f a b = Ret a' → P a') →
  P a → foldlM f a l = Ret a' → P a'.
Proof.
  revert a. induction l as [|b l IH]; simpl; intros a Hf Ha H.
  - by inv_run.
  - inv_run. eapply IH; [| |done].
    + intros ???? ; apply Hf. by right.
    + eapply Hf; [by left|done..].
Qed.

Lemma filterM_total {A} (p : A → run bool) (l : list A) :
  (∀ x, x ∈ l → ∃ b, p x = Ret b) → ∃ r, filterM p l = Ret r.
Proof.
  induction l as [|x l IH]; simpl; intros H; [eauto|].
  destruct (H x) as [b ->]; [by left|]. simpl.
  destruct IH as [r ->]; [intros; apply H; by right|]. simpl. eauto.
Qed.

Lemma foldlM_total {A B} (P : A → Prop) (f : A → B → run A) l a :
  (∀ a b, b ∈ l → P a → ∃ a', f a b = Ret a' ∧ P a') →
  P a → ∃ a', foldlM f a l = Ret a' ∧ P a'.
Proof.
  revert a. induction l as [|b l IH]; simpl; intros a Hf Ha; [eauto|].
  destruct (Hf a b) as (a1 & -> & Ha1); [by left|done|]. simpl.
  apply IH; [|done]. intros ????. apply Hf; [by right|done].
Qed.

(** ** The order on the stored numbers *)

Lemma number_leb_refl a : number_leb a a = true.
Proof. destruct a; simpl; try done. apply Z.leb_refl. Qed.

Lemma number_leb_trans a b c :
  number_leb a b = true → number_leb b c = true → number_leb a c = true.
Proof.
  destruct a, b, c; simpl; try done.
  rewrite !Z.leb_le. lia.
Qed.

Lemma number_leb_total a b : number_leb a b = false → number_leb b a = true.
Proof.
  destruct a, b; simpl; try done.
  rewrite Z.leb_gt, Z.leb_le. lia.
Qed.

Lemma Math_min_le_l a b : number_leb (Math_min a b) a = true.
Proof.
  unfold Math_min. destruct (number_leb a b) eqn:E.
  - apply number_leb_refl.
  - by apply number_leb_total.
Qed.

Lemma Math_min_le_r a b : number_leb (Math_min a b) b = true.
Proof.
  unfold Math_min. destruct (number_leb a b) eqn:E; [done|apply number_leb_refl].
Qed.

Lemma Math_max_ge_l a b : number_leb a (Math_max a b) = true.
Proof.
  unfold Math_max. destruct (number_leb a b) eqn:E; [done|apply number_leb_refl].
Qed.

Lemma Math_max_ge_r a b : number_leb b (Math_max a b) = true.
Proof.
  unfold Math_max. destruct (number_leb a b) eqn:E.
  - apply number_leb_refl.
  - by apply number_leb_total.
Qed.

(** ** The Aggregator: [populateDescendantsAndCounts] *)

Lemma descendantsConsistent_mono mn mx mn' mx' n :
  number_leb mn' mn = true → number_leb mx mx' = true →
  descendantsConsistent mn mx n → descendantsConsistent mn' mx' n.
Proof.
  intros Hmn Hmx (all & assets & ? & ? & ? & ? & ?).
  exists all, assets. repeat split; try done.
  - by eapply number_leb_trans.
  - by eapply number_leb_trans.
Qed.

Lemma idsOf_filter_subseteq mg (p : ref → Prop) `{∀ r, Decision (p r)} l :
  idsOf mg (filter p l) ⊆ idsOf mg l.
Proof.
  unfold idsOf. intros x. rewrite !list_elem_of_omap.
  intros (r & Hr & ?). exists r. split; [|done].
  by apply list_elem_of_filter in Hr as [_ ?].
Qed.

Lemma isGroupNode_Some n : isGroupNode (Some n) = true ↔ nodeType n = GROUP_NODE.
Proof. simpl. apply bool_decide_eq_true. Qed.

Lemma populate_step_spec fuel mg mn mx node mg' mn' mx' :
  populate_step fuel (mg, mn, mx) node = Ret (mg', mn', mx') →
  nodes mg' = nodes mg ∧
  number_leb mn' mn = true ∧ number_leb mx mx' = true ∧
  (∀ r n', obj mg' r = Some n' →
     ∃ n, obj mg r = Some n ∧ nodeType n' = nodeType n ∧
          ((r = node ∧ nodeType n = GROUP_NODE ∧ descendantsConsistent mn' mx' n') ∨
           (r ≠ node ∧ n' = n) ∨
           (nodeType n ≠ GROUP_NODE ∧ n' = n))).
Proof.
  unfold populate_step. destruct (isGroupNode (obj mg node)) eqn:Hg; intros H.
  - inv_run. simplify_eq. split; [done|].
    split; [apply Math_min_le_r|]. split; [apply Math_max_ge_r|].
    intros r n'. rewrite obj_write. case_decide as E.
    + subst r. destruct (obj mg node) as [n|] eqn:Hn; [|done].
      simpl. intros [= <-]. exists n. split; [done|]. split; [done|].
      left. apply isGroupNode_Some in Hg. repeat split; try done.
      rewrite obj_write_eq, Hn. simpl.
      eexists _, _. split; [done|]. split; [done|].
      split; [apply idsOf_filter_subseteq|].
      split; [apply Math_min_le_l|apply Math_max_ge_l].
    + intros Hr. exists n'. split; [done|]. split; [done|].
      right; left. split; [congruence|done].
  - inv_run. simplify_eq. split; [done|].
    split; [apply number_leb_refl|]. split; [apply number_leb_refl|].
    intros r n Hr. exists n. split; [done|]. split; [done|].
    destruct (decide (r = node)) as [->|]; [|by right; left].
    right; right. split; [|done]. intros Ht.
    rewrite Hr in Hg. apply isGroupNode_Some in Ht. congruence.
Qed.

Lemma populate_loop fuel l : ∀ done mg mn mx mg' mn' mx',
  (∀ r n, r ∈ done → obj mg r = Some n → nodeType n = GROUP_NODE →
          descendantsConsistent mn mx n) →
  foldlM (populate_step fuel) (mg, mn, mx) l = Ret (mg', mn', mx') →
  nodes mg' = nodes mg ∧
  (∀ r n, r ∈ done ++ l → obj mg' r = Some n → nodeType n = GROUP_NODE →
          descendantsConsistent mn' mx' n).
Proof.
  induction l as [|node l IH]; simpl; intros done mg mn mx mg' mn' mx' Hdone H.
  - inv_run. simplify_eq. split; [done|]. intros r n. rewrite app_nil_r. apply Hdone.
  - inv_run. destruct a as [[mg1 mn1] mx1].
    apply populate_step_spec in Ha as (Hn & Hmn & Hmx & Hobj).
    apply (IH (done ++ [node])) in H as [Hn' H].
    + split; [congruence|]. intros r n Hr. apply H.
      rewrite <- app_assoc. done.
    + intros r n1 Hr Hn1 Ht.
      destruct (Hobj _ _ Hn1) as (n & Hn0 & Hty & [(-> & _ & Hc)|[(Hne & ->)|(Hng & ->)]]).
      * done.
      * apply elem_of_app in Hr as [Hr|Hr].
        -- eapply descendantsConsistent_mono; [done..|]. by eapply Hdone.
        -- apply list_elem_of_singleton in Hr. done.
      * done.
Qed.

(** C7.  Descendant consistency: when [populateDescendantsAndCounts] returns,
    every group node of the model graph has both descendant lists set, its
    [descendantsAssetNodeIds] is a subset of its [descendantsNodeIds], and the
    length of [descendantsAssetNodeIds] lies between
    [minDescendantAssetNodeCount] and [maxDescendantAssetNodeCount]. *)
Theorem descendant_consistency fuel mg mg' :
  populateDescendantsAndCounts fuel mg = Ret mg' →
  ∀ r n, r ∈ nodes mg' → obj mg' r = Some n → nodeType n = GROUP_NODE →
    descendantsConsistent
      (minDescendantAssetNodeCount mg') (maxDescendantAssetNodeCount mg') n.
Proof.
  unfold populateDescendantsAndCounts. intros H. inv_run.
  destruct a as [[mg1 mn] mx]. inv_run. simpl.
  apply (populate_loop _ _ []) in Ha as [Hn Ha]; [|by intros ?? ?%elem_of_nil].
  intros r n Hr. apply Ha. simpl in Hr. simpl. congruence.
Qed.

Lemma descendant_consistency_witness :
  ∃ mg', populateDescendantsAndCounts 5 splitFive = Ret mg' ∧
    minDescendantAssetNodeCount mg' = Num 1 ∧ maxDescendantAssetNodeCount mg' = Num 5 ∧
    ∀ r n, r ∈ nodes mg' → obj mg' r = Some n → nodeType n = GROUP_NODE →
      descendantsConsistent
        (minDescendantAssetNodeCount mg') (maxDescendantAssetNodeCount mg') n.
Proof.
  eexists. split; [vm_compute; reflexivity|].
  split; [reflexivity|]. split; [reflexivity|].
  apply (descendant_consistency 5 splitFive).
  vm_compute; reflexivity.
Defined.

(** The pass returns when the group hierarchy below every group node is no
    deeper than the fuel. *)
Lemma gatherDescendants_total mg d : ∀ fuel descendants curRoot,
  d ≤ fuel → depthWithin d mg curRoot = true →
  ∃ l, gatherDescendants fuel mg descendants curRoot = Ret l.
Proof.
  induction d as [|d IH]; intros fuel descendants curRoot Hf Hd; [done|].
  destruct fuel as [|fuel]; [lia|]. simpl in Hd |- *.
  rewrite forallb_forall in Hd.
  match goal with
  | |- ∃ l, foldlM ?f ?a ?xs = Ret l =>
      destruct (foldlM_total (λ _, True) f xs a) as (l & Hl & _); [|done|eauto]
  end.
  intros ds childId Hin _. apply list_elem_of_In, Hd in Hin. cbv beta.
  destruct (byId mg childId) as [child|]; [|eauto].
  simpl. destruct (isGroupNode (obj mg child)); simpl.
  - destruct (IH fuel (ds ++ [child]) child) as [l' ->]; [lia|done|eauto].
  - eauto.
Qed.

Lemma depthWithin_set_descendants d mg r all assets : ∀ r',
  depthWithin d (write r (set_descendants all assets) mg) r' = depthWithin d mg r'.
Proof.
  assert (Hobj : ∀ x, isGroupNode (obj (write r (set_descendants all assets) mg) x)
                      = isGroupNode (obj mg x)).
  { intros x. rewrite obj_write. case_decide; [|done]. by destruct (obj mg x). }
  assert (Hch : ∀ x, childrenOf (write r (set_descendants all assets) mg) x
                     = childrenOf mg x).
  { intros x. unfold childrenOf. rewrite obj_write. case_decide; [|done].
    by destruct (obj mg x). }
  induction d as [|d IH]; intros r'; simpl; [done|].
  rewrite Hch. induction (childrenOf mg r') as [|childId l IHl]; simpl; [done|].
  rewrite IHl, byId_write. destruct (byId mg childId); [|done].
  by rewrite Hobj, IH.
Qed.

Lemma populateDescendantsAndCounts_total fuel mg :
  (∀ r, r ∈ nodes mg → isGroupNode (obj mg r) = true → depthWithin fuel mg r = true) →
  ∃ mg', populateDescendantsAndCounts fuel mg = Ret mg'.
Proof.
  unfold populateDescendantsAndCounts. generalize (nodes mg) as l.
  intros l. generalize MAX_VALUE, NEGATIVE_INFINITY. revert mg.
  induction l as [|node l IH]; intros mg mn mx Hd; [simpl; eauto|].
  rewrite foldlM_cons.
  assert (∃ mg1 mn1 mx1,
            populate_step fuel (mg, mn, mx) node = Ret (mg1, mn1, mx1) ∧
            ∀ r, r ∈ l → isGroupNode (obj mg1 r) = true → depthWithin fuel mg1 r = true)
    as (mg1 & mn1 & mx1 & -> & Hd1).
  { unfold populate_step. destruct (isGroupNode (obj mg node)) eqn:Hg.
    - destruct (gatherDescendants_total mg fuel fuel [] node) as [ds ->];
        [done|apply Hd; [by left|done]|].
      simpl. eexists _, _, _. split; [done|].
      intros r Hr. rewrite depthWithin_set_descendants.
      rewrite obj_write. intros Hg'. apply Hd; [by right|].
      case_decide; [|done]. by destruct (obj mg r).
    - eexists _, _, _. split; [done|]. intros r Hr. apply Hd. by right. }
  simpl. by apply IH.
Qed.



(** ** The Model Builder *)

Lemma foldl_inv {A B} (P : A → Prop) (f : A → B → A) l a :
  (∀ a b, b ∈ l → P a → P (f a b)) → P a → P (foldl f a l).
Proof.
  revert a. induction l as [|b l IH]; simpl; intros a Hf Ha; [done|].
  apply IH.
  - intros ????. apply Hf; [by right|done].
  - apply Hf; [by left|done].
Qed.

Lemma byId_Some mg k r :
  byId mg k = Some r ↔ nodesById mg !! k = Some r ∧ is_Some (obj mg r).
Proof.
  unfold byId. destruct (nodesById mg !! k) as [r'|]; cycle 1.
  { split; [done|]. by intros [? _]. }
  destruct (obj mg r') as [n|] eqn:E; simpl.
  - split.
    + intros [= <-]. split; [done|]. by exists n.
    + by intros [? _].
  - split; [done|]. intros [Hr [n Hn]]. injection Hr as <-. congruence.
Qed.

Lemma byId_index_ok mg k r :
  index_ok mg → (byId mg k = Some r ↔ nodesById mg !! k = Some r).
Proof.
  intros Hi. rewrite byId_Some. split; [by intros [? _]|].
  intros H. split; [done|]. destruct (Hi _ _ H) as (n & -> & _). eauto.
Qed.

Lemma byId_inj mg k k' r :
  index_ok mg → byId mg k = Some r → byId mg k' = Some r → k = k'.
Proof.
  intros Hi H1%byId_Some H2%byId_Some.
  destruct H1 as [H1 _], H2 as [H2 _].
  destruct (Hi _ _ H1) as (n & Hn & <-), (Hi _ _ H2) as (n' & Hn' & <-). congruence.
Qed.

Lemma built_empty : built createEmptyModelGraph.
Proof. by split. Qed.

Lemma addNode_built n mg : bare n → built mg → built (addNode n mg).
Proof.
  intros Hn [? ? Hnodes Hi Hb ?]. unfold addNode, nextRef, alloc. split; simpl; try done.
  - rewrite Hnodes, length_app. simpl.
    replace (length (objects mg) + 1) with (S (length (objects mg))) by lia.
    by rewrite seq_S.
  - intros k r. unfold obj; simpl. rewrite lookup_insert. case_decide as E.
    + intros [= <-]. subst k. exists n. split; [|done].
      by rewrite lookup_app_r, Nat.sub_diag.
    + intros H. destruct (Hi _ _ H) as (n' & Hn' & ?). exists n'. split; [|done].
      unfold obj in Hn'. by rewrite lookup_app_l by by eapply lookup_lt_Some.
  - intros r n'. unfold obj; simpl. intros [Hr|[_ Hr]]%lookup_app_Some.
    + by eapply Hb.
    + apply list_lookup_singleton_Some in Hr as [_ <-]. done.
Qed.

Lemma processNodes_built this mg : built mg → built (processNodes this mg).
Proof.
  intros H. unfold processNodes.
  apply (foldl_inv (λ st, built st.2)); [|done].
  intros [seen mg1] graphNode _ H1. simpl in *.
  assert (built (addNode (newAssetNode graphNode) mg1)) as H2.
  { apply addNode_built; [|done]. by repeat split. }
  destruct (negb (flattenLayers this)); simpl; [|done].
  case_bool_decide; simpl; [done|].
  apply addNode_built; [|done]. by repeat split.
Qed.

Lemma sameButEdges_refl mg : sameButEdges mg mg.
Proof. by split. Qed.

Lemma sameButEdges_trans mg1 mg2 mg3 :
  sameButEdges mg1 mg2 → sameButEdges mg2 mg3 → sameButEdges mg1 mg3.
Proof.
  intros [] []. split; congruence.
Qed.

Lemma sameButEdges_write_in r v mg : sameButEdges mg (write r (set_incomingEdges v) mg).
Proof.
  split; try done.
  - unfold write; simpl. apply length_alter.
  - intros r'. rewrite obj_write. case_decide; [|done]. by destruct (obj mg r').
Qed.

Lemma sameButEdges_write_out r v mg : sameButEdges mg (write r (set_outgoingEdges v) mg).
Proof.
  split; try done.
  - unfold write; simpl. apply length_alter.
  - intros r'. rewrite obj_write. case_decide; [|done]. by destruct (obj mg r').
Qed.

Lemma sameButEdges_byId mg mg' k : sameButEdges mg mg' → byId mg' k = byId mg k.
Proof.
  intros H. unfold byId. rewrite (sbe_nodesById _ _ H).
  destruct (nodesById mg !! k) as [r|]; [|done].
  pose proof (sbe_skeleton _ _ H r) as Hs.
  destruct (obj mg' r), (obj mg r); done || by inversion Hs.
Qed.

Lemma sameButEdges_built mg mg' : sameButEdges mg mg' → built mg → built mg'.
Proof.
  intros H [? ? ? Hi Hb ?]. split.
  - by rewrite (sbe_id _ _ H).
  - by rewrite (sbe_rootNodes _ _ H).
  - by rewrite (sbe_nodes _ _ H), (sbe_length _ _ H).
  - intros k r. rewrite (sbe_nodesById _ _ H). intros Hk.
    destruct (Hi _ _ Hk) as (n & Hn & Hid).
    pose proof (sbe_skeleton _ _ H r) as Hs. rewrite Hn in Hs.
    destruct (obj mg' r) as [n'|]; [|by inversion Hs].
    injection Hs as Hs.
    exists n'. split; [done|]. unfold skeleton in Hs. congruence.
  - intros r n' Hn'.
    pose proof (sbe_skeleton _ _ H r) as Hs. rewrite Hn' in Hs.
    destruct (obj mg r) as [n|] eqn:Hn; [|by inversion Hs].
    injection Hs as Hs. apply Hb in Hn.
    unfold skeleton in Hs. unfold bare in *.
    destruct Hn as (? & ? & ? & ? & ? & ?). repeat split; congruence.
  - by rewrite (sbe_artificial _ _ H).
Qed.

Lemma pushIncomingEdge_sameButEdges node e mg :
  sameButEdges mg (pushIncomingEdge node e mg).
Proof.
  unfold pushIncomingEdge.
  repeat first
    [ apply sameButEdges_refl
    | match goal with |- sameButEdges _ (if ?c then _ else _) => destruct c end
    | match goal with |- sameButEdges _ (write _ (set_incomingEdges _) _) =>
        eapply sameButEdges_trans; [|apply sameButEdges_write_in] end ].
Qed.

Lemma pushOutgoingEdge_sameButEdges src n e mg :
  sameButEdges mg (pushOutgoingEdge src n e mg).
Proof.
  unfold pushOutgoingEdge.
  repeat first
    [ apply sameButEdges_refl
    | match goal with |- sameButEdges _ (if ?c then _ else _) => destruct c end
    | match goal with |- sameButEdges _ (write _ (set_outgoingEdges _) _) =>
        eapply sameButEdges_trans; [|apply sameButEdges_write_out] end ].
Qed.

Lemma processEdge_sameButEdges graphNode node mg s :
  sameButEdges mg (processEdge graphNode node mg s).
Proof.
  unfold processEdge.
  destruct (obj mg node) as [n|]; [|apply sameButEdges_refl].
  destruct (lookupById mg s) as [src| |]; [| |apply sameButEdges_refl].
  - eapply sameButEdges_trans; [apply pushIncomingEdge_sameButEdges|].
    apply pushOutgoingEdge_sameButEdges.
  - apply pushIncomingEdge_sameButEdges.
Qed.

Lemma processEdgeRelationships_sameButEdges this mg :
  sameButEdges mg (processEdgeRelationships this mg).
Proof.
  unfold processEdgeRelationships.
  apply (foldl_inv (sameButEdges mg)); [|apply sameButEdges_refl].
  intros mg1 graphNode _ H1. eapply sameButEdges_trans; [done|].
  unfold processEdgeRelationships_step.
  destruct (byId mg1 _) as [node|]; [|apply sameButEdges_refl].
  apply (foldl_inv (sameButEdges mg1)); [|apply sameButEdges_refl].
  intros mg2 s _ H2. eapply sameButEdges_trans; [done|].
  apply processEdge_sameButEdges.
Qed.

Lemma build_built this : built (build this).
Proof.
  unfold build. eapply sameButEdges_built; [apply processEdgeRelationships_sameButEdges|].
  apply processNodes_built, built_empty.
Qed.

(** *** Edge symmetry *)

Lemma find_is_null_filter {A} (f : A → string) (s : string) (l : list A) :
  find_is_null (λ e, string_eqb (f e) s) l = true ↔ length (filter (λ e, f e = s) l) = 0.
Proof.
  unfold find_is_null. induction l as [|x l IH]; simpl; [done|].
  rewrite filter_cons. unfold string_eqb at 1. case_bool_decide; simpl.
  - case_decide; [|done]. simpl. split; [done|lia].
  - case_decide; [done|]. apply IH.
Qed.

Lemma edgesOf_write_in_in r v mg r' :
  is_Some (obj mg r) →
  edgesOf incomingEdges (write r (set_incomingEdges v) mg) r'
  = if decide (r = r') then v else edgesOf incomingEdges mg r'.
Proof.
  intros [n Hn]. unfold edgesOf. rewrite obj_write.
  case_decide; [|done]. subst. by rewrite Hn.
Qed.

Lemma edgesOf_write_in_out r v mg r' :
  edgesOf outgoingEdges (write r (set_incomingEdges v) mg) r' = edgesOf outgoingEdges mg r'.
Proof.
  unfold edgesOf. rewrite obj_write. case_decide; [|done]. by destruct (obj mg r').
Qed.

Lemma edgesOf_write_out_out r v mg r' :
  is_Some (obj mg r) →
  edgesOf outgoingEdges (write r (set_outgoingEdges v) mg) r'
  = if decide (r = r') then v else edgesOf outgoingEdges mg r'.
Proof.
  intros [n Hn]. unfold edgesOf. rewrite obj_write.
  case_decide; [|done]. subst. by rewrite Hn.
Qed.

Lemma edgesOf_write_out_in r v mg r' :
  edgesOf incomingEdges (write r (set_outgoingEdges v) mg) r' = edgesOf incomingEdges mg r'.
Proof.
  unfold edgesOf. rewrite obj_write. case_decide; [|done]. by destruct (obj mg r').
Qed.

Lemma is_Some_obj_write r f mg r' : is_Some (obj (write r f mg) r') ↔ is_Some (obj mg r').
Proof.
  rewrite obj_write. case_decide; [|done]. by rewrite fmap_is_Some.
Qed.

(** What the two blocks do to the edge lists. *)
Lemma pushIncomingEdge_edges node e mg :
  is_Some (obj mg node) →
  let mg' := pushIncomingEdge node e mg in
  let ins := default [] (edgesOf incomingEdges mg node) in
  (∀ r, is_Some (obj mg' r) ↔ is_Some (obj mg r)) ∧
  (∀ r, edgesOf incomingEdges mg' r =
        if decide (node = r)
        then Some (if find_is_null (λ e', string_eqb (sourceNodeId e') (sourceNodeId e)) ins
                   then ins ++ [e] else ins)
        else edgesOf incomingEdges mg r) ∧
  (∀ r, edgesOf outgoingEdges mg' r = edgesOf outgoingEdges mg r).
Proof.
  intros Hnode mg' ins. subst mg'. unfold pushIncomingEdge.
  set (mg1 := if is_null (edgesOf incomingEdges mg node)
              then write node (set_incomingEdges (Some [])) mg else mg).
  assert (Hmg1 : (∀ r, is_Some (obj mg1 r) ↔ is_Some (obj mg r)) ∧
                 default [] (edgesOf incomingEdges mg1 node) = ins ∧
                 (∀ r, r ≠ node → edgesOf incomingEdges mg1 r = edgesOf incomingEdges mg r) ∧
                 (is_Some (edgesOf incomingEdges mg1 node)) ∧
                 (∀ r, edgesOf outgoingEdges mg1 r = edgesOf outgoingEdges mg r)).
  { subst mg1 ins. destruct (edgesOf incomingEdges mg node) eqn:E; simpl.
    - rewrite E. split; [done|]. split; [done|]. split; [done|]. split; [eauto|done].
    - split; [intros; apply is_Some_obj_write|].
      rewrite edgesOf_write_in_in by done. rewrite decide_True by done.
      split; [done|]. split.
      + intros r Hr. rewrite edgesOf_write_in_in by done. by rewrite decide_False.
      + split; [eauto|]. intros r. apply edgesOf_write_in_out. }
  clearbody mg1. destruct Hmg1 as (Hv1 & Hins & Hin1 & Hsome1 & Hout1).
  rewrite Hins.
  set (add_in := find_is_null (λ e', string_eqb (sourceNodeId e') (sourceNodeId e)) ins).
  destruct add_in.
  - split; [intros; rewrite is_Some_obj_write; apply Hv1|]. split.
    + intros r. rewrite edgesOf_write_in_in by by apply Hv1.
      case_decide; [done|]. apply Hin1. congruence.
    + intros r. rewrite edgesOf_write_in_out. apply Hout1.
  - split; [done|]. split; [|done].
    intros r. case_decide as E; [|apply Hin1; congruence].
    subst r. destruct Hsome1 as [l Hl]. rewrite Hl in Hins |- *.
    simpl in Hins. by rewrite Hins.
Qed.

Lemma pushOutgoingEdge_edges src n e mg :
  is_Some (obj mg src) →
  let mg' := pushOutgoingEdge src n e mg in
  let outs := default [] (edgesOf outgoingEdges mg src) in
  (∀ r, is_Some (obj mg' r) ↔ is_Some (obj mg r)) ∧
  (∀ r, edgesOf incomingEdges mg' r = edgesOf incomingEdges mg r) ∧
  (∀ r, edgesOf outgoingEdges mg' r =
        if decide (src = r)
        then Some (if find_is_null (λ e', string_eqb (targetNodeId e') (id n)) outs
                   then outs ++ [{| sourceNodeId := sourceNodeId e; targetNodeId := id n |}]
                   else outs)
        else edgesOf outgoingEdges mg r).
Proof.
  intros Hsrc mg' outs. subst mg'. unfold pushOutgoingEdge.
  set (mg3 := if is_null (edgesOf outgoingEdges mg src)
              then write src (set_outgoingEdges (Some [])) mg else mg).
  assert (Hmg3 : (∀ r, is_Some (obj mg3 r) ↔ is_Some (obj mg r)) ∧
                 default [] (edgesOf outgoingEdges mg3 src) = outs ∧
                 (∀ r, r ≠ src → edgesOf outgoingEdges mg3 r = edgesOf outgoingEdges mg r) ∧
                 (is_Some (edgesOf outgoingEdges mg3 src)) ∧
                 (∀ r, edgesOf incomingEdges mg3 r = edgesOf incomingEdges mg r)).
  { subst mg3 outs. destruct (edgesOf outgoingEdges mg src) eqn:E; simpl.
    - rewrite E. split; [done|]. split; [done|]. split; [done|]. split; [eauto|done].
    - split; [intros; apply is_Some_obj_write|].
      rewrite edgesOf_write_out_out by done. rewrite decide_True by done.
      split; [done|]. split.
      + intros r Hr. rewrite edgesOf_write_out_out by done. by rewrite decide_False.
      + split; [eauto|]. intros r. apply edgesOf_write_out_in. }
  clearbody mg3. destruct Hmg3 as (Hv3 & Houts & Hout3 & Hsome3 & Hin3).
  rewrite Houts.
  set (add_out := find_is_null (λ e', string_eqb (targetNodeId e') (id n)) outs).
  destruct add_out.
  - split; [intros; rewrite is_Some_obj_write; apply Hv3|]. split.
    + intros r. rewrite edgesOf_write_out_in. apply Hin3.
    + intros r. rewrite edgesOf_write_out_out by by apply Hv3.
      case_decide; [done|]. apply Hout3. congruence.
  - split; [done|]. split; [done|].
    intros r. case_decide as E; [|apply Hout3; congruence].
    subst r. destruct Hsome3 as [l Hl]. rewrite Hl in Houts |- *.
    simpl in Houts. by rewrite Houts.
Qed.

Lemma lookupById_Registered mg k r : lookupById mg k = Registered r ↔ byId mg k = Some r.
Proof.
  unfold lookupById. destruct (byId mg k); [|case_bool_decide]; split; congruence.
Qed.

(** What one turn of the inner loop does to the two edge lists, when both end
    points are registered. *)
Lemma processEdge_edges graphNode node mg s src n :
  byId mg s = Some src → obj mg node = Some n →
  let mg' := processEdge graphNode node mg s in
  let ins := default [] (edgesOf incomingEdges mg node) in
  let outs := default [] (edgesOf outgoingEdges mg src) in
  (∀ r, edgesOf incomingEdges mg' r =
        if decide (node = r)
        then Some (if find_is_null (λ e, string_eqb (sourceNodeId e) s) ins
                   then ins ++ [{| sourceNodeId := s; targetNodeId := graphNodeId graphNode |}]
                   else ins)
        else edgesOf incomingEdges mg r) ∧
  (∀ r, edgesOf outgoingEdges mg' r =
        if decide (src = r)
        then Some (if find_is_null (λ e, string_eqb (targetNodeId e) (id n)) outs
                   then outs ++ [{| sourceNodeId := s; targetNodeId := id n |}]
                   else outs)
        else edgesOf outgoingEdges mg r).
Proof.
  intros Hs Hn mg' ins outs. subst mg'. unfold processEdge. rewrite Hn.
  rewrite (proj2 (lookupById_Registered _ _ _) Hs).
  apply byId_Some in Hs as [_ Hsrc].
  set (e := {| sourceNodeId := s; targetNodeId := graphNodeId graphNode |}).
  destruct (pushIncomingEdge_edges node e mg) as (Hv1 & Hin1 & Hout1); [eauto|].
  destruct (pushOutgoingEdge_edges src n e (pushIncomingEdge node e mg))
    as (Hv2 & Hin2 & Hout2); [by apply Hv1|].
  split.
  - intros r. rewrite Hin2. apply Hin1.
  - intros r. rewrite Hout2, !Hout1. done.
Qed.

(** The same when the source is a key of [Object.prototype] only: the edge is
    stored on the target, and no node gets an outgoing edge. *)
Lemma processEdge_edges_runtime graphNode node mg s n :
  lookupById mg s = RuntimeObject → obj mg node = Some n →
  let mg' := processEdge graphNode node mg s in
  let ins := default [] (edgesOf incomingEdges mg node) in
  (∀ r, edgesOf incomingEdges mg' r =
        if decide (node = r)
        then Some (if find_is_null (λ e, string_eqb (sourceNodeId e) s) ins
                   then ins ++ [{| sourceNodeId := s; targetNodeId := graphNodeId graphNode |}]
                   else ins)
        else edgesOf incomingEdges mg r) ∧
  (∀ r, edgesOf outgoingEdges mg' r = edgesOf outgoingEdges mg r).
Proof.
  intros Hs Hn mg' ins. subst mg'. unfold processEdge. rewrite Hn, Hs.
  set (e := {| sourceNodeId := s; targetNodeId := graphNodeId graphNode |}).
  destruct (pushIncomingEdge_edges node e mg) as (Hv1 & Hin1 & Hout1); [eauto|].
  done.
Qed.

Lemma length_filter_snoc {A} (P : A → Prop) `{∀ x, Decision (P x)} (l : list A) (x : A) :
  length (filter P (l ++ [x])) = length (filter P l) + (if decide (P x) then 1 else 0).
Proof.
  rewrite filter_app, length_app. f_equal.
  rewrite filter_cons, filter_nil. by case_decide.
Qed.

Lemma processEdge_counts graphNode node mg s src :
  index_ok mg →
  byId mg (graphNodeId graphNode) = Some node → byId mg s = Some src →
  let t := graphNodeId graphNode in
  let mg' := processEdge graphNode node mg s in
  (∀ a b, incomingCount mg' b a =
          incomingCount mg b a +
          (if decide (b = t ∧ a = s ∧ incomingCount mg t s = 0) then 1 else 0)) ∧
  (∀ a b, outgoingCount mg' a b =
          outgoingCount mg a b +
          (if decide (a = s ∧ b = t ∧ outgoingCount mg s t = 0) then 1 else 0)).
Proof.
  intros Hi Hnode Hsrc. cbv zeta.
  pose proof Hnode as [Hk [n Hn]]%byId_Some.
  destruct (Hi _ _ Hk) as (n0 & Hn0 & Hid). rewrite Hn in Hn0. injection Hn0 as <-.
  destruct (processEdge_edges graphNode node mg s src n Hsrc Hn) as [Hin Hout].
  set (t := graphNodeId graphNode) in *.
  set (mg' := processEdge graphNode node mg s) in *.
  assert (Hby : ∀ k, byId mg' k = byId mg k).
  { intros k. apply sameButEdges_byId, processEdge_sameButEdges. }
  split.
  - intros a b. unfold incomingCount at 1 2. rewrite Hby.
    destruct (byId mg b) as [B|] eqn:HB.
    + rewrite Hin. case_decide as E.
      * subst B. assert (b = t) as -> by by eapply byId_inj.
        unfold incomingCount. rewrite Hnode. clear Hin Hout.
        destruct (find_is_null _ _) eqn:Hf.
        -- apply find_is_null_filter in Hf. simpl.
           rewrite length_filter_snoc. simpl. f_equal.
           destruct (decide (s = a)) as [<-|Hne].
           ++ by rewrite decide_True.
           ++ rewrite decide_False; [done|]. by intros (_ & -> & _).
        -- simpl. rewrite decide_False; [lia|].
           intros (_ & _ & H0). apply find_is_null_filter in H0. congruence.
      * rewrite decide_False; [lia|]. intros (-> & _). congruence.
    + rewrite decide_False; [lia|]. intros (-> & _). congruence.
  - intros a b. unfold outgoingCount at 1 2. rewrite Hby.
    destruct (byId mg a) as [A|] eqn:HA.
    + rewrite Hout. case_decide as E.
      * subst A. assert (a = s) as -> by by eapply byId_inj.
        unfold outgoingCount. rewrite Hsrc, Hid. clear Hin Hout.
        destruct (find_is_null _ _) eqn:Hf.
        -- apply find_is_null_filter in Hf. simpl.
           rewrite length_filter_snoc. simpl. f_equal.
           destruct (decide (t = b)) as [<-|Hne].
           ++ by rewrite decide_True.
           ++ rewrite decide_False; [done|]. by intros (_ & -> & _).
        -- simpl. rewrite decide_False; [lia|].
           intros (_ & _ & H0). apply find_is_null_filter in H0. congruence.
      * rewrite decide_False; [lia|]. intros (-> & _). congruence.
    + rewrite decide_False; [lia|]. intros (-> & _). congruence.
Qed.

(** The counts when the source is a key of [Object.prototype] only. *)
Lemma processEdge_counts_runtime graphNode node mg s :
  index_ok mg →
  byId mg (graphNodeId graphNode) = Some node → lookupById mg s = RuntimeObject →
  let t := graphNodeId graphNode in
  let mg' := processEdge graphNode node mg s in
  (∀ a b, incomingCount mg' b a =
          incomingCount mg b a +
          (if decide (b = t ∧ a = s ∧ incomingCount mg t s = 0) then 1 else 0)) ∧
  (∀ a b, outgoingCount mg' a b = outgoingCount mg a b).
Proof.
  intros Hi Hnode Hsrc. cbv zeta.
  pose proof Hnode as [Hk [n Hn]]%byId_Some.
  destruct (processEdge_edges_runtime graphNode node mg s n Hsrc Hn) as [Hin Hout].
  set (t := graphNodeId graphNode) in *.
  set (mg' := processEdge graphNode node mg s) in *.
  assert (Hby : ∀ k, byId mg' k = byId mg k).
  { intros k. apply sameButEdges_byId, processEdge_sameButEdges. }
  split.
  - intros a b. unfold incomingCount at 1 2. rewrite Hby.
    destruct (byId mg b) as [B|] eqn:HB.
    + rewrite Hin. case_decide as E.
      * subst B. assert (b = t) as -> by by eapply byId_inj.
        unfold incomingCount. rewrite Hnode. clear Hin Hout.
        destruct (find_is_null _ _) eqn:Hf.
        -- apply find_is_null_filter in Hf. simpl.
           rewrite length_filter_snoc. simpl. f_equal.
           destruct (decide (s = a)) as [<-|Hne].
           ++ by rewrite decide_True.
           ++ rewrite decide_False; [done|]. by intros (_ & -> & _).
        -- simpl. rewrite decide_False; [lia|].
           intros (_ & _ & H0). apply find_is_null_filter in H0. congruence.
      * rewrite decide_False; [lia|]. intros (-> & _). congruence.
    + rewrite decide_False; [lia|]. intros (-> & _). congruence.
  - intros a b. unfold outgoingCount. rewrite Hby.
    destruct (byId mg a) as [A|]; [|done]. by rewrite Hout.
Qed.

Lemma processEdge_symmetric graphNode node mg s :
  index_ok mg → byId mg (graphNodeId graphNode) = Some node →
  edgesSymmetric mg → edgesSymmetric (processEdge graphNode node mg s).
Proof.
  intros Hi Hnode [Hc Ho Hs].
  pose proof (processEdge_sameButEdges graphNode node mg s) as Hsame.
  pose proof Hnode as [Hk [n Hn]]%byId_Some.
  destruct (lookupById mg s) as [src| |] eqn:Hlook; cycle 2.
  { unfold processEdge. rewrite Hn, Hlook. by split. }
  - apply lookupById_Registered in Hlook as Hsrc.
    destruct (processEdge_counts graphNode node mg s src Hi Hnode Hsrc) as [Hin Hout].
    split.
    + intros a b Ha. rewrite (sameButEdges_byId _ _ _ Hsame) in Ha.
      rewrite Hin, Hout, (Hc _ _ Ha). f_equal.
      destruct (decide (a = s ∧ _)) as [E1|E1], (decide (b = _ ∧ _)) as [E2|E2];
        [done| | |done]; exfalso.
      * destruct E1 as (-> & -> & E1). apply E2. repeat split; try done.
        rewrite <- Hc by done. done.
      * destruct E2 as (-> & -> & E2). apply E1. repeat split; try done.
        rewrite Hc by done. done.
    + intros a b. rewrite Hin. pose proof (Ho a b).
      destruct (decide _) as [(-> & -> & E0)|_]; simpl; lia.
    + intros r n' Hr Hreg.
      rewrite (sameButEdges_byId _ _ _ Hsame) in Hreg.
      pose proof (sbe_skeleton _ _ Hsame r) as Hsk. rewrite Hr in Hsk.
      destruct (obj mg r) as [n0|] eqn:Hr0; [|by inversion Hsk].
      injection Hsk as Hsk. unfold skeleton in Hsk.
      assert (id n' = id n0) as Hid by congruence. rewrite Hid in Hreg.
      destruct (Hs _ _ Hr0 Hreg) as [Hin0 Hout0].
      destruct (processEdge_edges graphNode node mg s src n Hsrc Hn) as [Hin' Hout'].
      specialize (Hin' r). specialize (Hout' r).
      unfold edgesOf at 1 in Hin'. unfold edgesOf at 1 in Hout'.
      rewrite Hr in Hin', Hout'. simpl in Hin', Hout'.
      rewrite decide_False in Hin'; cycle 1.
      { intros <-. apply Hreg. destruct (Hi _ _ Hk) as (? & ? & ?). congruence. }
      rewrite decide_False in Hout'; cycle 1.
      { intros <-. apply Hreg. pose proof Hsrc as [Hk' _]%byId_Some.
        destruct (Hi _ _ Hk') as (? & ? & ?). congruence. }
      unfold edgesOf in Hin', Hout'. rewrite Hr0 in Hin', Hout'. simpl in *.
      split; congruence.
  - assert (byId mg s = None) as Hnone.
    { unfold lookupById in Hlook. by destruct (byId mg s). }
    destruct (processEdge_counts_runtime graphNode node mg s Hi Hnode Hlook) as [Hin Hout].
    split.
    + intros a b Ha. rewrite (sameButEdges_byId _ _ _ Hsame) in Ha.
      rewrite Hin, Hout, (Hc _ _ Ha).
      rewrite decide_False; [lia|]. intros (_ & -> & _). rewrite Hnone in Ha.
      by destruct Ha.
    + intros a b. rewrite Hin. pose proof (Ho a b).
      destruct (decide _) as [(-> & -> & E0)|_]; simpl; lia.
    + intros r n' Hr Hreg.
      rewrite (sameButEdges_byId _ _ _ Hsame) in Hreg.
      pose proof (sbe_skeleton _ _ Hsame r) as Hsk. rewrite Hr in Hsk.
      destruct (obj mg r) as [n0|] eqn:Hr0; [|by inversion Hsk].
      injection Hsk as Hsk. unfold skeleton in Hsk.
      assert (id n' = id n0) as Hid by congruence. rewrite Hid in Hreg.
      destruct (Hs _ _ Hr0 Hreg) as [Hin0 Hout0].
      destruct (processEdge_edges_runtime graphNode node mg s n Hlook Hn) as [Hin' Hout'].
      specialize (Hin' r). specialize (Hout' r).
      unfold edgesOf at 1 in Hin'. unfold edgesOf at 1 in Hout'.
      rewrite Hr in Hin', Hout'. simpl in Hin', Hout'.
      rewrite decide_False in Hin'; cycle 1.
      { intros <-. apply Hreg. destruct (Hi _ _ Hk) as (? & ? & ?). congruence. }
      unfold edgesOf in Hin', Hout'. rewrite Hr0 in Hin', Hout'. simpl in *.
      split; congruence.
Qed.

Lemma processEdgeRelationships_symmetric this mg :
  index_ok mg → edgesSymmetric mg → edgesSymmetric (processEdgeRelationships this mg).
Proof.
  intros Hi Hs. unfold processEdgeRelationships.
  assert (Hinv : ∀ mg', sameButEdges mg mg' → index_ok mg').
  { intros mg' Hsame k r. rewrite (sbe_nodesById _ _ Hsame). intros Hk.
    destruct (Hi _ _ Hk) as (n & Hn & Hid).
    pose proof (sbe_skeleton _ _ Hsame r) as Hsk. rewrite Hn in Hsk.
    destruct (obj mg' r) as [n'|]; [|by inversion Hsk].
    injection Hsk as Hsk. unfold skeleton in Hsk. exists n'. split; [done|congruence]. }
  apply (foldl_inv (λ m, sameButEdges mg m ∧ edgesSymmetric m));
    [|by split; [apply sameButEdges_refl|]].
  intros mg1 graphNode _ [Hsame1 Hs1]. unfold processEdgeRelationships_step.
  destruct (byId mg1 (graphNodeId graphNode)) as [node|] eqn:Hnode; [|done].
  apply (foldl_inv (λ m, sameButEdges mg m ∧ edgesSymmetric m)); [|done].
  intros mg2 s _ [Hsame2 Hs2]. split.
  - eapply sameButEdges_trans; [done|]. apply processEdge_sameButEdges.
  - apply processEdge_symmetric; [by apply Hinv| |done].
    assert (sameButEdges mg1 mg2) as H12.
    { destruct Hsame1, Hsame2. split; congruence. }
    by rewrite (sameButEdges_byId _ _ _ H12).
Qed.

Lemma processNodes_edgeless this mg :
  (∀ r n, obj mg r = Some n → incomingEdges n = None ∧ outgoingEdges n = None) →
  ∀ r n, obj (processNodes this mg) r = Some n →
         incomingEdges n = None ∧ outgoingEdges n = None.
Proof.
  intros H. unfold processNodes.
  apply (foldl_inv (λ st, ∀ r n, obj st.2 r = Some n →
                                 incomingEdges n = None ∧ outgoingEdges n = None)); [|done].
  assert (Hadd : ∀ n mg, (incomingEdges n = None ∧ outgoingEdges n = None) →
            (∀ r n, obj mg r = Some n → incomingEdges n = None ∧ outgoingEdges n = None) →
            ∀ r n', obj (addNode n mg) r = Some n' →
                    incomingEdges n' = None ∧ outgoingEdges n' = None).
  { intros n mg0 Hn Hmg r n'. unfold addNode, alloc, obj; simpl.
    intros [Hr|[_ Hr]]%lookup_app_Some; [by eapply Hmg|].
    apply list_lookup_singleton_Some in Hr as [_ <-]. done. }
  intros [seen mg1] graphNode _ H1; simpl in *.
  destruct (negb (flattenLayers this)); simpl; [|by apply Hadd].
  case_bool_decide; simpl; [by apply Hadd|].
  apply Hadd; [done|]. by apply Hadd.
Qed.

Lemma build_symmetric this : edgesSymmetric (build this).
Proof.
  unfold build.
  pose proof (processNodes_built this _ built_empty) as Hb.
  apply processEdgeRelationships_symmetric; [apply Hb|].
  assert (He : ∀ r n, obj (processNodes this createEmptyModelGraph) r = Some n →
                      incomingEdges n = None ∧ outgoingEdges n = None).
  { apply processNodes_edgeless. intros r n. unfold obj; simpl. by rewrite lookup_nil. }
  assert (Hz : ∀ r, edgesOf incomingEdges (processNodes this createEmptyModelGraph) r = None ∧
                    edgesOf outgoingEdges (processNodes this createEmptyModelGraph) r = None).
  { intros r. unfold edgesOf.
    destruct (obj _ r) as [n|] eqn:E; [|done]. simpl. by apply He in E. }
  split.
  - intros a b _. unfold outgoingCount, incomingCount.
    destruct (byId _ a) as [A|], (byId _ b) as [B|]; try done.
    + destruct (Hz A) as [_ ->], (Hz B) as [-> _]. done.
    + by destruct (Hz A) as [_ ->].
    + by destruct (Hz B) as [-> _].
  - intros a b. unfold incomingCount. destruct (byId _ b) as [B|]; [|lia].
    destruct (Hz B) as [-> _]. simpl. lia.
  - intros r n Hr _. by eapply He.
Qed.

(** The same, read on the node objects: for two nodes that are the ones
    registered under their ids (every node is, when the ids are pairwise
    distinct), [A] holds an outgoing edge to [B] if and only if [B] holds an
    incoming edge from [A]. *)
Lemma build_symmetric_objects this A B nA nB :
  obj (build this) A = Some nA → obj (build this) B = Some nB →
  byId (build this) (id nA) = Some A → byId (build this) (id nB) = Some B →
  (∃ e, e ∈ default [] (outgoingEdges nA) ∧ targetNodeId e = id nB) ↔
  (∃ e, e ∈ default [] (incomingEdges nB) ∧ sourceNodeId e = id nA).
Proof.
  intros HA HB HrA HrB. destruct (build_symmetric this) as [Hc _ _].
  specialize (Hc (id nA) (id nB) ltac:(eauto)). unfold outgoingCount, incomingCount in Hc.
  rewrite HrA, HrB in Hc. unfold edgesOf in Hc. rewrite HA, HB in Hc. simpl in Hc.
  assert (∀ (P : Edge → Prop) `{∀ e, Decision (P e)} (l : list Edge),
            (∃ e, e ∈ l ∧ P e) ↔ length (filter P l) ≠ 0) as Hex.
  { intros P ? l. split.
    - intros (e & He & HP) Hz. assert (e ∈ filter P l) as Hf by by apply list_elem_of_filter.
      destruct (filter P l); [by apply elem_of_nil in Hf|done].
    - destruct (filter P l) as [|e l'] eqn:Hf; [done|]. intros _.
      assert (e ∈ filter P l) as He by (rewrite Hf; by left).
      apply list_elem_of_filter in He as [? ?]. eauto. }
  rewrite !Hex. by rewrite Hc.
Qed.

(** C2, as stated, fails: in the graph [g → b] in which the asset [g] has
    the id of the group of [b], the node [b] holds an incoming edge from
    [g], and the asset node [g] holds no outgoing edge (the group node [g],
    which has replaced it in [nodesById], holds it). *)
Lemma edge_symmetry_fails : ¬ edgeSymmetry (build shadowProcessor).
Proof.
  intros H.
  assert (∃ nA nB, obj (build shadowProcessor) 0 = Some nA ∧
                   obj (build shadowProcessor) 2 = Some nB ∧
                   id nA = "g" ∧ nodeType nA = ASSET_NODE ∧ outgoingEdges nA = None ∧
                   id nB = "b" ∧
                   incomingEdges nB = Some [{| sourceNodeId := "g"; targetNodeId := "b" |}])
    as (nA & nB & HA & HB & HidA & _ & Hout & HidB & Hin).
  { eexists _, _. repeat split; vm_compute; reflexivity. }
  assert (0 ∈ nodes (build shadowProcessor)) as H0
    by (apply (list_elem_of_lookup_2 _ 0); vm_compute; reflexivity).
  assert (2 ∈ nodes (build shadowProcessor)) as H2
    by (apply (list_elem_of_lookup_2 _ 2); vm_compute; reflexivity).
  destruct (proj2 (H 0 2 nA nB H0 H2 HA HB)) as (e & He & _).
  - exists {| sourceNodeId := "g"; targetNodeId := "b" |}. rewrite Hin, HidA.
    split; [by left|done].
  - rewrite Hout in He. by apply elem_of_nil in He.
Qed.

Lemma allRegistered_addNode n mg :
  nodesById mg !! id n = None → allRegistered mg → allRegistered (addNode n mg).
Proof.
  intros Hfresh H r n'. unfold addNode, alloc, obj, nextRef. simpl.
  intros [Hr|[Hlen Hr]]%lookup_app_Some.
  - assert (id n' ≠ id n) as Hne.
    { intros E. apply H in Hr. congruence. }
    rewrite lookup_insert_ne by done. by apply H.
  - apply list_lookup_singleton_Some in Hr as [Hz <-].
    rewrite lookup_insert_eq. f_equal. lia.
Qed.

Lemma processNodes_allRegistered this l : ∀ seen mg,
  NoDup (graphNodeId <$> l) →
  (∀ k, k ∈ graphNodeId <$> l → nodesById mg !! k = None) →
  (flattenLayers this = false →
   (∀ k, k ∈ graphNodeId <$> l → k ∉ groupIdForNode <$> l) ∧
   (∀ g, g ∈ groupIdForNode <$> l → g ∉ seen → nodesById mg !! g = None)) →
  allRegistered mg →
  allRegistered (foldl (processNodes_step this) (seen, mg) l).2.
Proof.
  induction l as [|gn l IH]; intros seen mg Hnd Hids Hgroups Hreg; [done|].
  rewrite !fmap_cons in *. apply NoDup_cons in Hnd as [Hgn Hnd].
  assert (allRegistered (addNode (newAssetNode gn) mg)) as Hreg1.
  { apply allRegistered_addNode; [|done]. apply Hids. by left. }
  assert (∀ k, k ∈ graphNodeId <$> l →
               nodesById (addNode (newAssetNode gn) mg) !! k = None) as Hids1.
  { intros k Hk. unfold addNode. simpl. rewrite lookup_insert_ne by (intros <-; done).
    apply Hids. by right. }
  cbn [foldl]. unfold processNodes_step at 2. cbn [hideInLayout newAssetNode truthy_bool].
  cbn [default negb andb].
  destruct (flattenLayers this) eqn:Hflat; cbn [negb].
  { apply IH; try done. }
  destruct (Hgroups eq_refl) as [Hdisj Hunseen].
  case_bool_decide as Hseen.
  - apply IH; try done. intros _. split.
    + intros k Hk. specialize (Hdisj k ltac:(by right)).
      intros Hx. apply Hdisj. by right.
    + intros g Hg Hns. unfold addNode. simpl. rewrite lookup_insert_ne.
      * apply Hunseen; [by right|done].
      * intros <-. apply (Hdisj (graphNodeId gn)); [by left|by right].
  - assert (groupIdForNode gn ≠ graphNodeId gn) as Hne.
    { intros E. apply (Hdisj (graphNodeId gn)); [by left|]. rewrite <- E. by left. }
    apply IH; try done.
    + intros k Hk. unfold addNode at 1. simpl. rewrite lookup_insert_ne.
      * by apply Hids1.
      * intros <-. apply (Hdisj (groupIdForNode gn)); [by right|by left].
    + intros _. split.
      * intros k Hk. specialize (Hdisj k ltac:(by right)).
        intros Hx. apply Hdisj. by right.
      * intros g Hg Hns. unfold addNode. simpl.
        rewrite lookup_insert_ne
          by (intros <-; apply Hns; by apply elem_of_union_l, elem_of_singleton).
        rewrite lookup_insert_ne.
        -- apply Hunseen; [by right|]. intros Hx. apply Hns. by apply elem_of_union_r.
        -- intros <-. apply (Hdisj (graphNodeId gn)); [by left|by right].
    + apply allRegistered_addNode; [|done]. unfold addNode. simpl.
      rewrite lookup_insert_ne by done. apply Hunseen; [by left|done].
Qed.

Lemma build_allRegistered this : distinctIds this → allRegistered (build this).
Proof.
  intros [Hnd Hdisj].
  assert (allRegistered (processNodes this createEmptyModelGraph)) as H.
  { unfold processNodes. apply processNodes_allRegistered; try done.
    intros Hflat. split; [by apply Hdisj|]. intros g _ _. apply lookup_empty. }
  pose proof (processEdgeRelationships_sameButEdges this
                (processNodes this createEmptyModelGraph)) as Hsame.
  fold (build this) in Hsame. intros r n Hr.
  rewrite (sbe_nodesById _ _ Hsame).
  pose proof (sbe_skeleton _ _ Hsame r) as Hsk. rewrite Hr in Hsk.
  destruct (obj (processNodes this createEmptyModelGraph) r) as [n0|] eqn:Hr0;
    [|by inversion Hsk].
  apply (inj Some) in Hsk. unfold skeleton in Hsk.
  assert (id n = id n0) as -> by congruence. by apply H.
Qed.

(** C2, amended.  In the model graph the builder produces (for a graph in
    which [__proto__] is no key): for any two nodes [A] and [B] that
    [nodesById] registers under their ids, [A] has an outgoing edge to [B] if
    and only if [B] has an incoming edge from [A], and a directed pair appears
    at most once on each side; a node that another node with the same id has
    replaced in [nodesById] holds no edge; and when the ids of the input graph
    are pairwise distinct, every node is registered under its id, so that
    edge symmetry holds as the spec states it. *)
Theorem edge_symmetry_registered (this : GraphProcessor) :
  plainKeys (graph this) →
  (∀ A B nA nB,
     obj (build this) A = Some nA → obj (build this) B = Some nB →
     byId (build this) (id nA) = Some A → byId (build this) (id nB) = Some B →
     ((∃ e, e ∈ default [] (outgoingEdges nA) ∧ targetNodeId e = id nB) ↔
      (∃ e, e ∈ default [] (incomingEdges nB) ∧ sourceNodeId e = id nA)) ∧
     length (filter (λ e, targetNodeId e = id nB) (default [] (outgoingEdges nA))) ≤ 1 ∧
     length (filter (λ e, sourceNodeId e = id nA) (default [] (incomingEdges nB))) ≤ 1) ∧
  (∀ r n, obj (build this) r = Some n → byId (build this) (id n) ≠ Some r →
          incomingEdges n = None ∧ outgoingEdges n = None) ∧
  (distinctIds this → edgeSymmetry (build this)).
Proof.
  intros _. destruct (build_symmetric this) as [Hc Ho Hs].
  split; [|split; [exact Hs|]].
  - intros A B nA nB HA HB HrA HrB.
    split; [by apply (build_symmetric_objects this A B)|].
    pose proof (Ho (id nA) (id nB)) as Hle.
    pose proof (Hc (id nA) (id nB) ltac:(eauto)) as Heq.
    unfold outgoingCount, incomingCount, edgesOf in Hle, Heq.
    rewrite HrB, HB in Hle. rewrite HrA, HrB, HA, HB in Heq.
    simpl in Hle, Heq. lia.
  - intros Hd A B nA nB _ _ HA HB.
    pose proof (build_allRegistered this Hd) as Hreg.
    apply (build_symmetric_objects this A B); try done; apply byId_Some; eauto.
Qed.

Lemma edge_symmetry_registered_witness :
  plainKeys chainGraph ∧ distinctIds (chainProcessor 10 false) ∧
  edgeSymmetry (build (chainProcessor 10 false)) ∧
  outgoingCount (build (chainProcessor 10 false)) "a" "b" = 1 ∧
  incomingCount (build (chainProcessor 10 false)) "b" "a" = 1.
Proof.
  assert (plainKeys chainGraph) as Hp by (apply (bool_decide_unpack _); vm_compute; exact I).
  assert (distinctIds (chainProcessor 10 false)) as Hd.
  { split; [apply (bool_decide_unpack _); vm_compute; exact I|].
    intros _ k Hk Hg. simpl in Hk, Hg.
    repeat (apply elem_of_cons in Hk as [->|Hk];
            [repeat (apply elem_of_cons in Hg as [Hg|Hg]; [discriminate Hg|]);
             by apply elem_of_nil in Hg|]).
    by apply elem_of_nil in Hk. }
  split; [exact Hp|]. split; [exact Hd|].
  split; [exact (proj2 (proj2 (edge_symmetry_registered (chainProcessor 10 false) Hp)) Hd)|].
  split; vm_compute; reflexivity.
Defined.

(** ** The Layout-Connectivity Generator *)

Lemma sum_list_with_le {A} (f g : A → nat) (l : list A) :
  (∀ x, f x ≤ g x) → sum_list_with f l ≤ sum_list_with g l.
Proof.
  intros H. induction l as [|x l IH]; simpl; [done|]. specialize (H x). lia.
Qed.

Lemma unseenWork_visit mg seen r n :
  obj mg r = Some n → id n ∉ seen →
  unseenWork mg (seen ++ [id n]) + S (outDegree n) ≤ unseenWork mg seen.
Proof.
  intros Hr Hn. unfold unseenWork, obj in *.
  apply list_elem_of_lookup_2, list_elem_of_split in Hr as (l1 & l2 & ->).
  rewrite !sum_list_with_app. simpl.
  rewrite decide_True by (apply elem_of_app; right; by left).
  rewrite decide_False by done.
  assert (∀ l, sum_list_with (λ n0, if decide (id n0 ∈ seen ++ [id n]) then 0
                                    else S (outDegree n0)) l
               ≤ sum_list_with (λ n0, if decide (id n0 ∈ seen) then 0
                                      else S (outDegree n0)) l) as Hle.
  { intros l. apply sum_list_with_le. intros x.
    repeat case_decide; try lia. exfalso. set_solver. }
  pose proof (Hle l1). pose proof (Hle l2). lia.
Qed.

(** The breadth-first loop always comes to an end: a fuel above the work
    left is enough. *)
Lemma bfs_total mg fuel : ∀ queue seen,
  length queue + unseenWork mg seen < fuel →
  ∃ out, bfs fuel mg queue seen = Ret out.
Proof.
  induction fuel as [|fuel IH]; intros queue seen Hf; [lia|].
  simpl. destruct queue as [|curNode queue]; [eauto|]. simpl in Hf.
  destruct (curNode ≫= obj mg) as [n|] eqn:Hn; [|apply IH; lia].
  destruct (truthy_bool (hideInLayout n)); [apply IH; lia|].
  case_bool_decide as Hseen; [apply IH; lia|].
  apply IH. rewrite length_app, length_map.
  destruct curNode as [r|]; [|done]. simpl in Hn.
  pose proof (unseenWork_visit mg seen r n Hn Hseen). unfold outDegree in *. lia.
Qed.

(** The ids the loop has seen are pairwise distinct: no node is visited
    twice. *)
Lemma bfs_NoDup mg fuel : ∀ queue seen out,
  NoDup seen → bfs fuel mg queue seen = Ret out → NoDup out.
Proof.
  induction fuel as [|fuel IH]; intros queue seen out Hnd; [done|].
  simpl. destruct queue as [|curNode queue]; [by intros [= <-]|].
  destruct (curNode ≫= obj mg) as [n|]; [|by apply IH].
  destruct (truthy_bool (hideInLayout n)); [by apply IH|].
  case_bool_decide as Hseen; [by apply IH|].
  apply IH. apply NoDup_app. split; [done|]. split; [|apply NoDup_singleton].
  intros x Hx ->%list_elem_of_singleton. done.
Qed.

(** On a model graph whose incoming edges all have a source that [nodesById]
    leads somewhere, the search for the traversal roots does not throw. *)
Lemma assetNodesWithoutIncomingEdges_total mg :
  (∀ r n e, obj mg r = Some n → e ∈ default [] (incomingEdges n) →
            lookupById mg (sourceNodeId e) ≠ Undefined) →
  ∃ roots, assetNodesWithoutIncomingEdges mg = Ret roots ∧
           length roots ≤ length (nodes mg).
Proof.
  intros Hsrc. unfold assetNodesWithoutIncomingEdges.
  generalize (nodes mg) as l. intros l.
  cut (∀ acc, ∃ roots, foldlM (findRoots_step mg) acc l = Ret roots ∧
                       length roots ≤ length acc + length l).
  { intros H. destruct (H []) as (roots & ? & ?). eauto. }
  induction l as [|r l IH]; intros acc; simpl; [exists acc; split; [done|lia]|].
  assert (∃ acc', findRoots_step mg acc r = Ret acc' ∧ length acc' ≤ S (length acc))
    as (acc' & -> & Hacc').
  { unfold findRoots_step. destruct (obj mg r) as [n|] eqn:Hn; [|eauto].
    destruct (negb _ || _); [eauto|].
    destruct (filterM_total (sourceIsVisible mg) (default [] (incomingEdges n))) as [f ->].
    { intros e He. pose proof (Hsrc _ _ _ Hn He) as Hs.
      unfold sourceIsVisible. destruct (lookupById mg (sourceNodeId e)) as [s| |] eqn:Hl;
        [|eauto|done].
      apply lookupById_Registered, byId_Some in Hl as [_ [sn ->]]. simpl. eauto. }
    simpl. destruct (_ =? _)%nat; eexists; split; try done; try lia.
    rewrite length_app. simpl. lia. }
  simpl. destruct (IH acc') as (roots & -> & Hroots). exists roots. split; [done|lia].
Qed.

Lemma sameButEdges_lookupById mg mg' k :
  sameButEdges mg mg' → lookupById mg' k = lookupById mg k.
Proof. intros H. unfold lookupById. by rewrite (sameButEdges_byId _ _ _ H). Qed.

Lemma processEdge_sourcesFound graphNode node mg s :
  sourcesFound mg → sourcesFound (processEdge graphNode node mg s).
Proof.
  intros H r e. pose proof (processEdge_sameButEdges graphNode node mg s) as Hsame.
  rewrite (sameButEdges_lookupById _ _ _ Hsame).
  destruct (obj mg node) as [n|] eqn:Hn; cycle 1.
  { unfold processEdge. rewrite Hn. apply H. }
  assert (∀ ins : list Edge,
            e ∈ (if find_is_null (λ e0, string_eqb (sourceNodeId e0) s) ins
                 then ins ++ [{| sourceNodeId := s; targetNodeId := graphNodeId graphNode |}]
                 else ins) →
            e ∈ ins ∨ sourceNodeId e = s) as Hcases.
  { intros ins. destruct (find_is_null _ _); [|by left].
    intros [?|He]%elem_of_app; [by left|]. apply list_elem_of_singleton in He.
    subst e. by right. }
  destruct (lookupById mg s) as [src| |] eqn:Hl.
  - apply lookupById_Registered in Hl as Hsrc.
    destruct (processEdge_edges graphNode node mg s src n Hsrc Hn) as [Hin _].
    rewrite Hin. case_decide as E; [|apply H]. subst r. simpl.
    intros He%Hcases. destruct He as [He | Hs]; [by eapply H|]. by rewrite Hs, Hl.
  - destruct (processEdge_edges_runtime graphNode node mg s n Hl Hn) as [Hin _].
    rewrite Hin. case_decide as E; [|apply H]. subst r. simpl.
    intros He%Hcases. destruct He as [He | Hs]; [by eapply H|]. by rewrite Hs, Hl.
  - unfold processEdge. rewrite Hn, Hl. apply H.
Qed.

Lemma build_sourcesFound this : sourcesFound (build this).
Proof.
  unfold build, processEdgeRelationships.
  apply (foldl_inv sourcesFound).
  - intros mg graphNode _ H. unfold processEdgeRelationships_step.
    destruct (byId mg _) as [node|]; [|done].
    apply (foldl_inv sourcesFound); [|done].
    intros mg' s _ H'. by apply processEdge_sourcesFound.
  - intros r e. unfold edgesOf.
    destruct (obj _ r) as [n|] eqn:Hn; [|by intros ?%elem_of_nil].
    apply (processNodes_edgeless this createEmptyModelGraph) in Hn as [Hin _].
    + simpl. rewrite Hin. by intros ?%elem_of_nil.
    + intros r' n'. unfold obj; simpl. by rewrite lookup_nil.
Qed.

Lemma build_sources_found this r n e :
  obj (build this) r = Some n → e ∈ default [] (incomingEdges n) →
  lookupById (build this) (sourceNodeId e) ≠ Undefined.
Proof.
  intros Hr He. apply (build_sourcesFound this r e). unfold edgesOf. by rewrite Hr.
Qed.

Lemma generateLayoutGraphConnections_build this fuel :
  processFuel this ≤ fuel →
  generateLayoutGraphConnections fuel (build this)
  = Ret (with_layoutGraphEdges ∅ (build this)).
Proof.
  intros Hf. unfold generateLayoutGraphConnections, layoutTraversal.
  destruct (assetNodesWithoutIncomingEdges_total (with_layoutGraphEdges ∅ (build this)))
    as (roots & -> & Hroots).
  { intros r n e. apply build_sources_found. }
  simpl.
  destruct (bfs_total (with_layoutGraphEdges ∅ (build this)) fuel (Some <$> roots) [])
    as [out ->]; [|done].
  rewrite length_fmap. simpl in Hroots. unfold processFuel in Hf.
  change (unseenWork (with_layoutGraphEdges ∅ (build this)) [])
    with (unseenWork (build this) []). lia.
Qed.

(** ** The whole pipeline on a freshly built graph *)

(** With no root node and a threshold that is not negative, the splitter
    looks at the root scope, finds it within the threshold, and stops. *)
Lemma splitLoop_no_root getLayoutGraph this fuel mg :
  2 ≤ fuel → rootNodes mg = [] → (0 ≤ groupNodeChildrenCountThreshold this)%Z →
  splitLoop getLayoutGraph this fuel [None] false mg = Ret (mg, false).
Proof.
  intros Hf Hroot HT. destruct fuel as [|[|fuel]]; [lia..|].
  simpl. rewrite Hroot. simpl.
  replace (Z.of_nat 0 >? groupNodeChildrenCountThreshold this)%Z with false; [done|].
  symmetry. rewrite Z.gtb_ltb. apply Z.ltb_ge. lia.
Qed.

Lemma populate_step_flat fuel done mg mn mx node :
  1 ≤ fuel → flat done mg →
  ∃ mg' mn' mx',
    populate_step fuel (mg, mn, mx) node = Ret (mg', mn', mx') ∧
    flat (done ++ [node]) mg' ∧
    modelGraphId mg' = modelGraphId mg ∧ rootNodes mg' = rootNodes mg ∧
    nodes mg' = nodes mg ∧ length (objects mg') = length (objects mg).
Proof.
  intros Hf Hflat. unfold populate_step.
  destruct (isGroupNode (obj mg node)) eqn:Hg.
  - destruct (obj mg node) as [n|] eqn:Hn; [|done].
    destruct (Hflat _ _ Hn) as (_ & Hc & _).
    destruct fuel as [|fuel]; [lia|].
    assert (gatherDescendants (S fuel) mg [] node = Ret []) as ->.
    { simpl. unfold childrenOf. rewrite Hn. simpl. by rewrite Hc. }
    simpl. eexists _, _, _. split; [done|].
    split; [|by repeat split; simpl; rewrite ?length_alter].
    intros r n'. rewrite obj_write. case_decide as E.
    + subst r. rewrite Hn. simpl. intros [= <-]. simpl.
      destruct (Hflat _ _ Hn) as (? & ? & _). done.
    + intros Hr. destruct (Hflat _ _ Hr) as (? & ? & Hd).
      split; [done|]. split; [done|].
      intros [?|?%list_elem_of_singleton]%elem_of_app; [by apply Hd|done].
  - eexists _, _, _. split; [done|]. split; [|done].
    intros r n Hr. destruct (Hflat _ _ Hr) as (? & ? & Hd).
    split; [done|]. split; [done|].
    intros [?|Hx%list_elem_of_singleton]%elem_of_app; [by apply Hd|]. subst r.
    intros Ht. rewrite Hr in Hg. apply isGroupNode_Some in Ht. congruence.
Qed.

Lemma populate_flat fuel mg :
  1 ≤ fuel → flat [] mg →
  ∃ mg', populateDescendantsAndCounts fuel mg = Ret mg' ∧
         flat (nodes mg) mg' ∧
         modelGraphId mg' = modelGraphId mg ∧ rootNodes mg' = rootNodes mg ∧
         nodes mg' = nodes mg ∧ length (objects mg') = length (objects mg).
Proof.
  intros Hf Hflat. unfold populateDescendantsAndCounts.
  cut (∀ l done mg0 mn mx, flat done mg0 →
         ∃ mg' mn' mx',
           foldlM (populate_step fuel) (mg0, mn, mx) l = Ret (mg', mn', mx') ∧
           flat (done ++ l) mg' ∧
           modelGraphId mg' = modelGraphId mg0 ∧ rootNodes mg' = rootNodes mg0 ∧
           nodes mg' = nodes mg0 ∧ length (objects mg') = length (objects mg0)).
  { intros H. destruct (H (nodes mg) [] mg MAX_VALUE NEGATIVE_INFINITY Hflat)
      as (mg' & mn' & mx' & -> & ? & ? & ? & ? & ?). simpl. eauto 10. }
  induction l as [|node l IH]; intros done mg0 mn mx H0.
  - simpl. rewrite app_nil_r. eauto 10.
  - rewrite foldlM_cons.
    destruct (populate_step_flat fuel done mg0 mn mx node Hf H0)
      as (mg1 & mn1 & mx1 & -> & H1 & ? & ? & ? & ?). simpl.
    destruct (IH _ _ mn1 mx1 H1) as (mg' & mn' & mx' & -> & H' & ? & ? & ? & ?).
    rewrite <- app_assoc in H'. simpl in H'.
    eexists _, _, _. split; [done|]. split; [done|]. repeat split; congruence.
Qed.

(** The outcome of [process], for an input graph, a threshold that is not
    negative and enough fuel: the three progress messages, and a model graph
    with the fixed id, no root node, and flat nodes only.  The splitter does
    not take its split branch. *)
Lemma process_outcome getLayoutGraph this fuel :
  (0 ≤ groupNodeChildrenCountThreshold this)%Z → processFuel this ≤ fuel →
  let mgL := with_layoutGraphEdges ∅ (build this) in
  splitLoop getLayoutGraph this fuel [None] false mgL = Ret (mgL, false) ∧
  ∃ mg,
    process getLayoutGraph fuel this
    = ([updateProcessingProgress (paneId this) PROCESSING_NODES_AND_EDGES None;
        updateProcessingProgress (paneId this) PROCESSING_LAYOUT_DATA None;
        updateProcessingProgress (paneId this) SPLITTING_LARGE_LAYERS None], Ret mg) ∧
    modelGraphId mg = "<ROOT>" ∧ rootNodes mg = [] ∧
    nodes mg = seq 0 (length (objects mg)) ∧
    length (graphNodes (graph this)) ≤ length (nodes mg) ∧
    flat (nodes mg) mg.
Proof.
  intros HT Hf mgL. pose proof (build_built this) as [Hid Hroot Hnodes Hi Hbare Hart].
  assert (2 ≤ fuel) as Hf2 by (unfold processFuel in Hf; lia).
  assert (splitLoop getLayoutGraph this fuel [None] false mgL = Ret (mgL, false)) as Hsplit.
  { by apply splitLoop_no_root. }
  split; [done|].
  destruct (populate_flat fuel mgL) as (mg & Hpop & Hflat & Hid' & Hroot' & Hnodes' & Hlen');
    [lia| |].
  { intros r n Hr. destruct (Hbare r n Hr) as (? & ? & _).
    split; [done|]. split; [done|]. by intros ?%elem_of_nil. }
  exists mg. unfold process.
  fold (build this). rewrite generateLayoutGraphConnections_build by done.
  unfold splitLargeGroupNodes. fold mgL. rewrite Hsplit. simpl. rewrite Hpop.
  split; [done|]. simpl in *. split; [congruence|]. split; [congruence|].
  split; [congruence|]. split; [|by rewrite Hnodes'].
  rewrite Hnodes'. clear.
  unfold build.
  rewrite (sbe_nodes _ _ (processEdgeRelationships_sameButEdges this _)).
  unfold processNodes.
  cut (∀ l st, length (nodes st.2) + length l
               ≤ length (nodes (foldl (processNodes_step this) st l).2)).
  { intros H. specialize (H (graphNodes (graph this)) (∅, createEmptyModelGraph)).
    simpl in H. done. }
  induction l as [|x l IH]; intros [seen mg0]; simpl; [lia|].
  etrans; [|apply IH]. unfold processNodes_step.
  destruct (negb (flattenLayers this)); [case_bool_decide|];
    simpl; rewrite ?length_app; simpl; lia.
Qed.






(** C9.  The model graph that [handleProcessGraph] returns carries the id
    ["<ROOT>"], whatever graph id the request supplies: [createEmptyModelGraph]
    sets it and nothing writes it afterwards.  (Without an initial layout, so
    that no collaborator runs.) *)
Theorem processGraph_id_is_ROOT getLayoutGraph threshold layout fuel graphId graph
    initialLayout :
  let processor :=
    {| paneId := graphId; graph := graph; groupNodeChildrenCountThreshold := threshold;
       testMode := false; flattenLayers := false |} in
  (0 ≤ threshold)%Z → processFuel processor ≤ fuel → truthy_bool initialLayout = false →
  ∃ msgs mg,
    handleProcessGraph getLayoutGraph threshold layout fuel graphId graph initialLayout
    = (msgs, Ret mg) ∧
    modelGraphId mg = "<ROOT>".
Proof.
  intros processor HT Hf Hl. unfold handleProcessGraph. fold processor.
  destruct (process_outcome getLayoutGraph processor fuel HT Hf)
    as (_ & mg & -> & Hid & _).
  rewrite Hl, andb_false_r. eauto.
Qed.

Lemma processGraph_id_is_ROOT_witness :
  ∃ msgs mg,
    handleProcessGraph getLayoutGraph_spec 10 (λ mg, (mg, Ret tt)) 20 "graph-1" chainGraph None
    = (msgs, Ret mg) ∧
    modelGraphId mg = "<ROOT>" ∧ "<ROOT>" ≠ "graph-1".
Proof.
  destruct (processGraph_id_is_ROOT getLayoutGraph_spec 10 (λ mg, (mg, Ret tt)) 20
              "graph-1" chainGraph None) as (msgs & mg & H & Hid).
  - lia.
  - vm_compute. lia.
  - reflexivity.
  - exists msgs, mg. split; [exact H|]. split; [exact Hid|]. discriminate.
Defined.

(** ** The Group Partitioner: [splitLargeGroupNodes] *)

Section SplitInvariant.

Variable getLayoutGraph :
  string → list (option ref) → ModelGraph → bool → bool → run LayoutGraph.t.
Variable this : GraphProcessor.

Let T := groupNodeChildrenCountThreshold this.



Lemma splitInv_same L N0 M mg mg' :
  objects mg' = objects mg → nodes mg' = nodes mg →
  splitInv this L N0 M mg → splitInv this L N0 M mg'.
Proof.
  intros Ho Hn [? ? ?]. split; unfold obj; rewrite ?Ho, ?Hn; done.
Qed.




Lemma splitInv_with_layoutGraphEdges L N0 M v mg :
  splitInv this L N0 M mg → splitInv this L N0 M (with_layoutGraphEdges v mg).
Proof. by apply splitInv_same. Qed.



(** *** The buckets *)




(** *** Namespace rewriting keeps the invariant *)







(** *** One split keeps the invariant *)




End SplitInvariant.

(** The generator returns the model graph it was given with
    [layoutGraphEdges] reset to the empty record: the traversal writes
    nothing. *)
Lemma generateLayoutGraphConnections_result fuel mg mg' :
  generateLayoutGraphConnections fuel mg = Ret mg' → mg' = with_layoutGraphEdges ∅ mg.
Proof. unfold generateLayoutGraphConnections. intros H. by inv_run. Qed.



(** *** What a split does to the child counts *)













Section SplitCounts.

Variable getLayoutGraph :
  string → list (option ref) → ModelGraph → bool → bool → run LayoutGraph.t.
Variable this : GraphProcessor.
Variable mg0 : ModelGraph.

Let T := groupNodeChildrenCountThreshold this.
Let L := length (objects mg0).



End SplitCounts.




(** C3, as stated, fails: with threshold 2, the first run leaves the group
    [g] with three sections, and a second run on that output splits [g]
    again (it creates two more group nodes). *)
Lemma resplit_splits_again :
  ∃ mg1 mg2,
    splitLargeGroupNodes getLayoutGraph_spec (splitter 2) 50 fiveChildren = Ret mg1 ∧
    splitLoop getLayoutGraph_spec (splitter 2) 50 [None] false mg1 = Ret (mg2, true) ∧
    length (nodes mg1) = 9 ∧ length (nodes mg2) = 11.
Proof.
  eexists _, _. split; [vm_compute; reflexivity|].
  split; [vm_compute; reflexivity|]. split; reflexivity.
Qed.

(** A run on a model graph whose scopes are all within the threshold takes no
    split. *)
Lemma splitLoop_within_threshold getLayoutGraph this mg fuel : ∀ queue,
  withinThreshold (groupNodeChildrenCountThreshold this) mg →
  splitLoop getLayoutGraph this fuel queue false mg = Ret (mg, false) ∨
  splitLoop getLayoutGraph this fuel queue false mg = Timeout.
Proof.
  intros queue [Hroot Hgroups]. revert queue.
  induction fuel as [|fuel IH]; intros queue; [by right|].
  simpl. destruct queue as [|curGroupNode queue]; [by left|].
  match goal with
  | |- context [(Z.of_nat (length ?c) >? _)%Z] =>
      assert ((Z.of_nat (length c) >? groupNodeChildrenCountThreshold this)%Z = false) as ->
  end.
  { rewrite Z.gtb_ltb. apply Z.ltb_ge. destruct curGroupNode as [cur|].
    - rewrite length_fmap. unfold childrenOf.
      destruct (obj mg cur) as [n|] eqn:Hn; simpl; [|lia].
      by eapply (Forall_lookup_1 _ _ _ _ Hgroups).
    - by rewrite length_fmap. }
  simpl. apply IH.
Qed.

(** C3, amended.  On a model graph whose scopes, the root scope and every
    group, all have at most [threshold] direct children, a run of
    [splitLargeGroupNodes] makes no split: it does not throw, and when it
    returns, it returns the model graph unchanged.  (The output of a first run
    need not be such a graph.) *)
Theorem resplit_within_threshold getLayoutGraph this fuel mg :
  withinThreshold (groupNodeChildrenCountThreshold this) mg →
  splitLargeGroupNodes getLayoutGraph this fuel mg = Ret mg ∨
  splitLargeGroupNodes getLayoutGraph this fuel mg = Timeout.
Proof.
  intros H. unfold splitLargeGroupNodes.
  destruct (splitLoop_within_threshold getLayoutGraph this mg fuel [None] H) as [-> | ->];
    [by left|by right].
Qed.

Lemma resplit_within_threshold_witness :
  splitLargeGroupNodes getLayoutGraph_spec (splitter 3) 50 fiveChildren
  = Ret splitFiveByThree ∧
  withinThreshold 3 splitFiveByThree ∧
  splitLargeGroupNodes getLayoutGraph_spec (splitter 3) 50 splitFiveByThree
  = Ret splitFiveByThree.
Proof.
  split; [vm_compute; reflexivity|].
  assert (withinThreshold 3 splitFiveByThree) as H.
  { split; [vm_compute; discriminate|]. vm_compute. repeat constructor; discriminate. }
  split; [exact H|].
  destruct (resplit_within_threshold getLayoutGraph_spec (splitter 3) 50 splitFiveByThree H)
    as [Hret|Hout]; [exact Hret|].
  vm_compute in Hout. discriminate Hout.
Defined.

(** ** The layout-connectivity index *)

Lemma filterM_empty {A} (p : A → run bool) (l : list A) (r : list A) :
  filterM p l = Ret r → (length r = 0 ↔ ∀ x, x ∈ l → p x = Ret false).
Proof.
  revert r. induction l as [|x l IH]; simpl; intros r H.
  - inv_run. split; [by intros _ ? ?%elem_of_nil|done].
  - apply bind_Ret in H as (b & Hb & H). apply bind_Ret in H as (r' & Hr' & H).
    injection H as <-. specialize (IH _ Hr'). destruct b; simpl.
    + split; [done|]. intros Hall. specialize (Hall x ltac:(by left)). congruence.
    + rewrite IH. split.
      * intros Hall y [->|Hy]%elem_of_cons; [done|by apply Hall].
      * intros Hall y Hy. apply Hall. by right.
Qed.

(** X24.  The traversal roots are exactly the asset nodes of the model graph
    that are not hidden and have no incoming edge from a source that is not
    hidden. *)
Lemma assetNodesWithoutIncomingEdges_spec mg roots :
  assetNodesWithoutIncomingEdges mg = Ret roots →
  ∀ r, r ∈ roots ↔
       r ∈ nodes mg ∧
       ∃ n, obj mg r = Some n ∧ nodeType n = ASSET_NODE ∧
            truthy_bool (hideInLayout n) = false ∧
            ∀ e, e ∈ default [] (incomingEdges n) → sourceIsVisible mg e = Ret false.
Proof.
  unfold assetNodesWithoutIncomingEdges. generalize (nodes mg) as l. intros l.
  set (isRoot r := ∃ n, obj mg r = Some n ∧ nodeType n = ASSET_NODE ∧
                        truthy_bool (hideInLayout n) = false ∧
                        ∀ e, e ∈ default [] (incomingEdges n) →
                             sourceIsVisible mg e = Ret false).
  cut (∀ acc, foldlM (findRoots_step mg) acc l = Ret roots →
              ∀ r, r ∈ roots ↔ r ∈ acc ∨ (r ∈ l ∧ isRoot r)).
  { intros H Hr r. rewrite (H [] Hr). split; [|by right].
    by intros [?%elem_of_nil|?]. }
  induction l as [|x l IH]; intros acc H r.
  - simpl in H. inv_run. split; [by left|]. by intros [?|[?%elem_of_nil _]].
  - rewrite foldlM_cons in H. apply bind_Ret in H as (acc' & Hstep & H).
    rewrite (IH _ H). clear IH H.
    assert (r ∈ acc' ↔ r ∈ acc ∨ (r = x ∧ isRoot x)) as ->.
    { unfold findRoots_step in Hstep. destruct (obj mg x) as [n|] eqn:Hn; cycle 1.
      { inv_run. split; [by left|]. intros [?|[_ (n & Hn' & _)]]; [done|congruence]. }
      destruct (negb (isAssetNode (Some n)) || truthy_bool (hideInLayout n)) eqn:Hc.
      { inv_run. split; [by left|]. intros [?|[_ (n' & Hn' & Ht & Hh & _)]]; [done|].
        rewrite Hn in Hn'. injection Hn' as <-. exfalso.
        apply orb_true_iff in Hc as [Hc|Hc]; [|congruence].
        simpl in Hc. rewrite bool_decide_eq_true_2 in Hc; done. }
      apply orb_false_iff in Hc as [Ht Hh].
      apply negb_false_iff, bool_decide_eq_true in Ht.
      apply bind_Ret in Hstep as (f & Hf & Hstep). apply filterM_empty in Hf.
      destruct (length f =? 0)%nat eqn:Hz; injection Hstep as <-.
      - apply Nat.eqb_eq in Hz. rewrite elem_of_app, list_elem_of_singleton.
        split; (intros [?|?]; [by left|right]).
        + split; [done|]. subst x. exists n. repeat split; try done.
          intros e He. by apply Hf.
        + tauto.
      - apply Nat.eqb_neq in Hz. split; [by left|].
        intros [?|[_ (n' & Hn' & _ & _ & Hall)]]; [done|]. exfalso. apply Hz, Hf.
        rewrite Hn in Hn'. injection Hn' as <-. intros e He.
        exact (Hall e He). }
    rewrite elem_of_cons. split.
    + intros [[?|[-> ?]]|[? ?]]; [by left|right..]; split; try done; [by left|by right].
    + intros [?|[[->|?] ?]]; [by left; left|by left; right|by right].
Qed.

(** C4.  [generateLayoutGraphConnections] leaves [layoutGraphEdges] empty on
    every model graph: it resets the index and walks the graph breadth-first
    (no node twice), and records nothing of what it walks. *)
Theorem layoutGraphEdges_left_empty fuel mg mg' :
  generateLayoutGraphConnections fuel mg = Ret mg' →
  layoutGraphEdges mg' = ∅ ∧
  ∃ seen, layoutTraversal fuel (with_layoutGraphEdges ∅ mg) = Ret seen ∧ NoDup seen.
Proof.
  intros H. split; [by apply generateLayoutGraphConnections_result in H as ->|].
  unfold generateLayoutGraphConnections in H.
  apply bind_Ret in H as (seen & Hseen & _). exists seen. split; [done|].
  unfold layoutTraversal in Hseen. apply bind_Ret in Hseen as (roots & _ & Hseen).
  eapply bfs_NoDup; [|done]. constructor.
Qed.

Lemma layoutGraphEdges_left_empty_witness :
  outgoingCount (build (chainProcessor 10 false)) "a" "b" = 1 ∧
  generateLayoutGraphConnections 20 (build (chainProcessor 10 false))
  = Ret (with_layoutGraphEdges ∅ (build (chainProcessor 10 false))) ∧
  layoutGraphEdges (with_layoutGraphEdges ∅ (build (chainProcessor 10 false))) = ∅ ∧
  ∃ seen, layoutTraversal 20 (with_layoutGraphEdges ∅ (build (chainProcessor 10 false)))
          = Ret seen ∧ NoDup seen.
Proof.
  assert (generateLayoutGraphConnections 20 (build (chainProcessor 10 false))
          = Ret (with_layoutGraphEdges ∅ (build (chainProcessor 10 false)))) as H.
  { vm_compute. reflexivity. }
  split; [vm_compute; reflexivity|]. split; [exact H|].
  exact (layoutGraphEdges_left_empty 20 _ _ H).
Defined.

(** ** The request router *)

Section Router.

Variable getLayoutGraph :
  string → list (option ref) → ModelGraph → bool → bool → run LayoutGraph.t.
Variable threshold : Z.
Variable layout : mutating unit.
Variable reLayoutGraph : option (list string) → option bool → mutating unit.
Variable expandAllGroups : mutating (list string).
Variable collapseGroupNode : string → mutating (list string).
Variable collapseAllGroup : mutating (list string).
Variable getDeepestExpandedGroupNodeIds : option ref → list string → mutating (list string).

Let listener :=
  onMessage getLayoutGraph threshold layout reLayoutGraph expandAllGroups
            collapseGroupNode collapseAllGroup getDeepestExpandedGroupNodeIds.

(** A request that names a key the store does not hold is rejected with the
    cache-miss error; the worker's state (the cached graphs, the cache, the
    messages posted) is as it was. *)
Lemma cache_miss_rejected fuel w modelGraphId rendererId :
  MODEL_GRAPHS_CACHE w !! getModelGraphKey modelGraphId rendererId = None →
  (∀ groupNodeId expand graphId all ts,
     listener fuel w
       (ExpandOrCollapseGroupNodeRequest modelGraphId groupNodeId expand rendererId
          graphId all ts)
     = (w, Throw (Error ("ModelGraph with id " +:+ dquote +:+ modelGraphId +:+ dquote +:+
                         " not found for rendererId " +:+ dquote +:+ rendererId +:+ dquote)))) ∧
  (∀ target selectedNodeId restoring rect clear toggling,
     listener fuel w
       (RelayoutGraphRequest modelGraphId target selectedNodeId rendererId restoring rect
          clear toggling)
     = (w, Throw (Error ("ModelGraph with id " +:+ dquote +:+ modelGraphId +:+ dquote +:+
                         " not found for rendererId " +:+ dquote +:+ rendererId +:+ dquote)))).
Proof.
  intros Hmiss. split; intros; unfold listener, onMessage, getCachedModelGraph;
    by rewrite Hmiss.
Qed.

(** C6.  A request to expand or to collapse all the groups under a group id
    that the cached model graph does not hold ends in an uncaught
    [TypeError], although its key is in the store: nothing is posted, and the
    worker's state is as it was. *)
Theorem unknown_group_all_throws fuel w modelGraphId rendererId g mg
    groupNodeId expand graphId ts :
  MODEL_GRAPHS_CACHE w !! getModelGraphKey modelGraphId rendererId = Some g →
  graphs w !! g = Some mg →
  byId mg groupNodeId = None →
  listener fuel w
    (ExpandOrCollapseGroupNodeRequest modelGraphId (Some groupNodeId) expand rendererId
       graphId (Some true) ts)
  = (w, Throw TypeError).
Proof.
  intros Hkey Hg Hid. unfold listener, onMessage, getCachedModelGraph. rewrite Hkey.
  unfold onCached. rewrite Hg.
  assert ({| graphs := <[g := mg]> (graphs w);
             MODEL_GRAPHS_CACHE := MODEL_GRAPHS_CACHE w; posted := posted w |} = w) as Hw.
  { rewrite list_insert_id by done. by destruct w. }
  destruct expand.
  - unfold handleExpandGroupNode, mbind, mutating_bind, reading, mret, mutating_ret.
    simpl. rewrite Hid. simpl. by rewrite Hw.
  - unfold handleCollapseGroupNode, mbind, mutating_bind, reading, mret, mutating_ret.
    simpl. rewrite Hid. simpl. by rewrite Hw.
Qed.

End Router.

Lemma unknown_group_all_throws_witness :
  MODEL_GRAPHS_CACHE chainWorker !! getModelGraphKey "<ROOT>" "graph-1" = Some 0 ∧
  graphs chainWorker !! 0 = Some chainModelGraph ∧
  byId chainModelGraph "missing" = None ∧
  onMessage getLayoutGraph_spec 10
    (λ mg, (mg, Ret tt)) (λ _ _ mg, (mg, Ret tt)) (λ mg, (mg, Ret []))
    (λ _ mg, (mg, Ret [])) (λ mg, (mg, Ret [])) (λ _ ids mg, (mg, Ret ids))
    20 chainWorker
    (ExpandOrCollapseGroupNodeRequest "<ROOT>" (Some "missing") false "graph-1" "graph-1"
       (Some true) None)
  = (chainWorker, Throw TypeError).
Proof.
  assert (MODEL_GRAPHS_CACHE chainWorker !! getModelGraphKey "<ROOT>" "graph-1" = Some 0)
    as Hkey by (vm_compute; reflexivity).
  assert (graphs chainWorker !! 0 = Some chainModelGraph)
    as Hg by (vm_compute; reflexivity).
  assert (byId chainModelGraph "missing" = None)
    as Hid by (vm_compute; reflexivity).
  split; [exact Hkey|]. split; [exact Hg|]. split; [exact Hid|].
  exact (unknown_group_all_throws getLayoutGraph_spec 10
           (λ mg, (mg, Ret tt)) (λ _ _ mg, (mg, Ret tt)) (λ mg, (mg, Ret []))
           (λ _ mg, (mg, Ret [])) (λ mg, (mg, Ret [])) (λ _ ids mg, (mg, Ret ids))
           20 chainWorker "<ROOT>" "graph-1" 0 chainModelGraph "missing" false "graph-1"
           None Hkey Hg Hid).
Defined.

(** ** The Model Builder: what [build] produces *)

Lemma omap_lookup_seq {A} (l : list A) : omap (λ i, l !! i) (seq 0 (length l)) = l.
Proof.
  induction l as [|x l IH] using rev_ind; [done|].
  rewrite length_app. simpl. rewrite Nat.add_1_r, seq_S, omap_app. simpl.
  rewrite lookup_app_r by lia. rewrite Nat.sub_diag. simpl.
  f_equal. rewrite <- IH at 2. apply list_omap_ext.
  apply Forall2_same_length_lookup. split; [done|].
  intros i a b Ha Hb. rewrite Ha in Hb. injection Hb as <-.
  apply lookup_seq in Ha as [-> Hlt]. simpl. by rewrite lookup_app_l.
Qed.

Lemma built_nodeList mg : built mg → nodeList mg = objects mg.
Proof.
  intros [_ _ Hn _ _ _]. unfold nodeList, obj. rewrite Hn. apply omap_lookup_seq.
Qed.

Lemma objects_addNode n mg : objects (addNode n mg) = objects mg ++ [n].
Proof. done. Qed.

Lemma nodesById_addNode n mg :
  nodesById (addNode n mg) = <[id n := length (objects mg)]> (nodesById mg).
Proof. done. Qed.

(** What the loop of [processNodes] adds to the store for the graph nodes
    [l], from the state [(seen, mg)]. *)
Lemma processNodes_added this l : ∀ seen mg,
  ∃ added,
    objects (foldl (processNodes_step this) (seen, mg) l).2 = objects mg ++ added ∧
    (λ n, (id n, namespace n, level n)) <$> filter (λ n, nodeType n = ASSET_NODE) added
    = (λ gn, (graphNodeId gn, groupIdForNode gn +:+ "/" +:+ graphNodeId gn, 1)) <$> l ∧
    NoDup (id <$> filter (λ n, nodeType n = GROUP_NODE) added) ∧
    (∀ g, g ∈ id <$> filter (λ n, nodeType n = GROUP_NODE) added ↔
          flattenLayers this = false ∧ (g ∉ seen) ∧ g ∈ groupIdForNode <$> l) ∧
    Forall (λ n, nodeType n = GROUP_NODE → freshGroup n) added ∧
    (∀ k, is_Some (nodesById (foldl (processNodes_step this) (seen, mg) l).2 !! k) ↔
          is_Some (nodesById mg !! k) ∨ k ∈ id <$> added).
Proof.
  induction l as [|gn l IH]; intros seen mg; simpl.
  { exists []. rewrite app_nil_r. split; [done|]. split; [done|].
    split; [constructor|]. split.
    { intros g. split; [by intros ?%elem_of_nil|by intros (_ & _ & ?%elem_of_nil)]. }
    split; [constructor|].
    intros k. split; [tauto|]. intros [?|?%elem_of_nil]; done. }
  change (list_fmap GraphNode string groupIdForNode l) with (groupIdForNode <$> l).
  change (list_fmap GraphNode (string * string * nat)%type ?f l) with (f <$> l).
  set (a := newAssetNode gn).
  destruct (flattenLayers this) eqn:Hflat; simpl.
  - destruct (IH seen (addNode a mg)) as (added & Hobj & Hasset & Hnd & Hg & Hfresh & Hdom).
    exists (a :: added). rewrite Hobj, objects_addNode, <- app_assoc. split; [done|].
    rewrite filter_cons_True by done. rewrite (filter_cons_False (λ n, nodeType n = GROUP_NODE)) by done.
    split; [by rewrite fmap_cons, Hasset|]. split; [done|]. split.
    { intros g. rewrite Hg. split; intros (? & ? & ?); done. }
    split; [constructor; [done|done]|].
    intros k. rewrite Hdom, nodesById_addNode, lookup_insert_is_Some, fmap_cons, elem_of_cons.
    destruct (decide (id a = k)) as [<-|Hne]; [tauto|].
    assert (k ≠ id a) by congruence. tauto.
  - case_bool_decide as Hseen; simpl.
    + destruct (IH seen (addNode a mg)) as (added & Hobj & Hasset & Hnd & Hg & Hfresh & Hdom).
      exists (a :: added). rewrite Hobj, objects_addNode, <- app_assoc. split; [done|].
      rewrite filter_cons_True by done.
      rewrite (filter_cons_False (λ n, nodeType n = GROUP_NODE)) by done.
      split; [by rewrite fmap_cons, Hasset|]. split; [done|]. split.
      { intros g. rewrite Hg, elem_of_cons. split; [tauto|].
        intros (_ & Hns & [->|?]); done. }
      split; [constructor; [done|done]|].
      intros k. rewrite Hdom, nodesById_addNode, lookup_insert_is_Some, fmap_cons, elem_of_cons.
      destruct (decide (id a = k)) as [<-|Hne]; [tauto|].
    assert (k ≠ id a) by congruence. tauto.
    + set (grp := newGroupNodeFor (groupIdForNode gn)).
      destruct (IH ({[groupIdForNode gn]} ∪ seen) (addNode grp (addNode a mg)))
        as (added & Hobj & Hasset & Hnd & Hg & Hfresh & Hdom).
      exists (a :: grp :: added).
      rewrite Hobj, !objects_addNode, <- !app_assoc. split; [done|].
      rewrite filter_cons_True by done. rewrite filter_cons_False by done.
      rewrite (filter_cons_False (λ n, nodeType n = GROUP_NODE) a) by done.
      rewrite (filter_cons_True (λ n, nodeType n = GROUP_NODE) grp) by done.
      split; [by rewrite fmap_cons, Hasset|]. split.
      { rewrite fmap_cons. apply NoDup_cons. split; [|done].
        rewrite Hg. intros (_ & Hn & _). apply Hn, elem_of_union_l, elem_of_singleton. done. }
      split.
      { intros g. rewrite fmap_cons, !elem_of_cons, Hg. simpl. split.
        - intros [->|(_ & Hn & Hl)]; [by repeat split; [|left]|].
          split; [done|]. split; [|by right].
          intros ?. apply Hn, elem_of_union_r. done.
        - intros (_ & Hn & [->|Hl]); [by left|].
          destruct (decide (g = groupIdForNode gn)) as [->|Hne]; [by left|].
          right. split; [done|]. split; [|done].
          intros [?%elem_of_singleton|?]%elem_of_union; done. }
      split; [constructor; [done|constructor; [by intros _; repeat split|done]]|].
      intros k. rewrite Hdom, !nodesById_addNode, !lookup_insert_is_Some, !fmap_cons, !elem_of_cons.
      destruct (decide (id grp = k)) as [<-|Hne1]; [tauto|].
      destruct (decide (id a = k)) as [<-|Hne2]; [tauto|].
      assert (k ≠ id a) by congruence. assert (k ≠ id grp) by congruence. tauto.
Qed.

Lemma sameButEdges_skeletons mg mg' :
  sameButEdges mg mg' →
  Forall2 (λ n' n, skeleton n' = skeleton n) (objects mg') (objects mg).
Proof.
  intros H. apply Forall2_same_length_lookup. split; [apply (sbe_length _ _ H)|].
  intros i n' n Hn' Hn. pose proof (sbe_skeleton _ _ H i) as Hs.
  change (obj mg' i = Some n') in Hn'. change (obj mg i = Some n) in Hn.
  rewrite Hn', Hn in Hs. apply (inj Some). exact Hs.
Qed.

Lemma skeletons_filter_fmap {B} (P : ModelNode → Prop) `{∀ n, Decision (P n)}
    (g : ModelNode → B) l' l :
  (∀ a b, skeleton a = skeleton b → (P a ↔ P b) ∧ g a = g b) →
  Forall2 (λ n' n, skeleton n' = skeleton n) l' l →
  g <$> filter P l' = g <$> filter P l.
Proof.
  intros Hs. induction 1 as [|a b l' l Hab _ IH]; [done|].
  destruct (Hs _ _ Hab) as [HP Hg]. rewrite !filter_cons.
  destruct (decide (P a)), (decide (P b)); try tauto.
  by rewrite !fmap_cons, Hg, IH.
Qed.

Lemma build_objects this :
  ∃ added,
    Forall2 (λ n' n, skeleton n' = skeleton n) (nodeList (build this)) added ∧
    (λ n, (id n, namespace n, level n)) <$> filter (λ n, nodeType n = ASSET_NODE) added
    = (λ gn, (graphNodeId gn, groupIdForNode gn +:+ "/" +:+ graphNodeId gn, 1))
        <$> graphNodes (graph this) ∧
    NoDup (id <$> filter (λ n, nodeType n = GROUP_NODE) added) ∧
    (∀ g, g ∈ id <$> filter (λ n, nodeType n = GROUP_NODE) added ↔
          flattenLayers this = false ∧ g ∈ groupIdForNode <$> graphNodes (graph this)) ∧
    Forall (λ n, nodeType n = GROUP_NODE → freshGroup n) added ∧
    (∀ k, is_Some (nodesById (build this) !! k) ↔ k ∈ id <$> added).
Proof.
  destruct (processNodes_added this (graphNodes (graph this)) ∅ createEmptyModelGraph)
    as (added & Hobj & Hasset & Hnd & Hg & Hfresh & Hdom).
  exists added. simpl in Hobj.
  pose proof (processEdgeRelationships_sameButEdges this
                (processNodes this createEmptyModelGraph)) as Hsame.
  fold (build this) in Hsame.
  split.
  { rewrite (built_nodeList _ (build_built this)).
    apply sameButEdges_skeletons in Hsame. unfold processNodes in Hsame.
    by rewrite Hobj in Hsame. }
  split; [done|]. split; [done|]. split.
  { intros g. rewrite Hg. split; [tauto|]. intros [? ?]. split; [done|]. split; [|done].
    apply not_elem_of_empty. }
  split; [done|].
  intros k. rewrite (sbe_nodesById _ _ Hsame). unfold processNodes.
  rewrite Hdom. simpl. rewrite lookup_empty. split; [|tauto].
  intros [[? [=]]|?]; done.
Qed.

(** X1.  The asset nodes of the model graph the builder produces are, in the
    order of the node list, the nodes of the input graph in the order of
    [Object.values(graph.nodes)]: one asset node per graph node, with the
    graph node's id, the namespace [`${group}/${id}`] and the level 1. *)
Theorem build_asset_nodes (this : GraphProcessor) :
  (λ n, (id n, namespace n, level n))
    <$> filter (λ n, nodeType n = ASSET_NODE) (nodeList (build this))
  = (λ gn, (graphNodeId gn, groupIdForNode gn +:+ "/" +:+ graphNodeId gn, 1))
      <$> graphNodes (graph this).
Proof.
  destruct (build_objects this) as (added & Hsk & Hasset & _).
  rewrite <- Hasset. apply skeletons_filter_fmap; [|done].
  intros a b Hab. unfold skeleton in Hab. split; [split; congruence|congruence].
Qed.

(** X2.  The group nodes of the model graph the builder produces: with
    [flattenLayers] there is none; without it there is exactly one group node
    per group id of the input graph, and each is created at level 0, with
    its id as its namespace, and collapsed. *)
Theorem build_group_nodes (this : GraphProcessor) :
  NoDup (id <$> filter (λ n, nodeType n = GROUP_NODE) (nodeList (build this))) ∧
  (∀ g, g ∈ id <$> filter (λ n, nodeType n = GROUP_NODE) (nodeList (build this)) ↔
        flattenLayers this = false ∧ g ∈ groupIdForNode <$> graphNodes (graph this)) ∧
  Forall (λ n, nodeType n = GROUP_NODE → freshGroup n) (nodeList (build this)).
Proof.
  destruct (build_objects this) as (added & Hsk & _ & Hnd & Hg & Hfresh & _).
  assert (id <$> filter (λ n, nodeType n = GROUP_NODE) (nodeList (build this))
          = id <$> filter (λ n, nodeType n = GROUP_NODE) added) as ->.
  { apply skeletons_filter_fmap; [|done].
    intros a b Hab. unfold skeleton in Hab. split; [split; congruence|congruence]. }
  split; [done|]. split; [done|].
  clear -Hsk Hfresh. induction Hsk as [|a b l' l Hab _ IH]; [constructor|].
  apply Forall_cons in Hfresh as [Hb Hl]. constructor; [|by apply IH].
  unfold skeleton in Hab. intros Ht. unfold freshGroup in *.
  destruct Hb as (? & ? & ?); [congruence|]. repeat split; congruence.
Qed.

(** X3.  The ids that [nodesById] registers after the builder's passes are
    the ids of the input graph's nodes and, without [flattenLayers], their
    group ids; each registered id leads to a node that carries it. *)
Theorem build_registered_ids (this : GraphProcessor) (k : string) :
  (∃ r n, byId (build this) k = Some r ∧ obj (build this) r = Some n ∧ id n = k) ↔
  k ∈ graphNodeId <$> graphNodes (graph this) ∨
  (flattenLayers this = false ∧ k ∈ groupIdForNode <$> graphNodes (graph this)).
Proof.
  destruct (build_objects this) as (added & Hsk & Hasset & _ & Hg & _ & Hdom).
  pose proof (build_built this) as Hb. pose proof (built_index _ Hb) as Hi.
  assert ((∃ r n, byId (build this) k = Some r ∧ obj (build this) r = Some n ∧ id n = k)
          ↔ k ∈ id <$> added) as ->.
  { rewrite <- Hdom. split.
    - intros (r & n & Hr%byId_Some & _). destruct Hr as [Hr _]. by rewrite Hr.
    - intros [r Hr]. destruct (Hi _ _ Hr) as (n & Hn & Hid).
      exists r, n. split; [|done]. by apply byId_index_ok. }
  rewrite <- Hg.
  assert (graphNodeId <$> graphNodes (graph this)
          = id <$> filter (λ n, nodeType n = ASSET_NODE) added) as ->.
  { apply (f_equal (fmap (λ x : string * string * nat, x.1.1))) in Hasset.
    rewrite <- !list_fmap_compose in Hasset. symmetry. exact Hasset. }
  rewrite !list_elem_of_fmap. split.
  - intros (n & -> & Hn). destruct (nodeType n) eqn:Ht.
    + left. exists n. split; [done|]. by apply list_elem_of_filter.
    + right. exists n. split; [done|]. by apply list_elem_of_filter.
  - intros [(n & -> & Hn%list_elem_of_filter)|(n & -> & Hn%list_elem_of_filter)];
      exists n; tauto.
Qed.

(** *** The edges the builder records *)

Lemma lookupById_found mg k :
  lookupById mg k ≠ Undefined ↔ is_Some (byId mg k) ∨ k ∈ Object_prototype_keys.
Proof.
  unfold lookupById. destruct (byId mg k) as [r|].
  - split; [eauto|done].
  - case_bool_decide; split; try done; try tauto.
    intros [[? [=]]|?]; done.
Qed.

Lemma processEdge_incoming gn node mg s a b :
  index_ok mg → byId mg (graphNodeId gn) = Some node →
  0 < incomingCount (processEdge gn node mg s) b a ↔
  0 < incomingCount mg b a ∨ (b = graphNodeId gn ∧ a = s ∧ lookupById mg s ≠ Undefined).
Proof.
  intros Hi Hnode.
  assert (∀ mg',
            (∀ a b, incomingCount mg' b a =
                    incomingCount mg b a +
                    (if decide (b = graphNodeId gn ∧ a = s ∧
                                incomingCount mg (graphNodeId gn) s = 0) then 1 else 0)) →
            0 < incomingCount mg' b a ↔
            0 < incomingCount mg b a ∨ (b = graphNodeId gn ∧ a = s)) as Hcount.
  { intros mg' Hin. rewrite Hin.
    destruct (decide (b = graphNodeId gn ∧ a = s ∧ incomingCount mg (graphNodeId gn) s = 0))
      as [E|E].
    - destruct E as (-> & -> & Hz). split; [|lia]. intros _. by right.
    - split; [intros ?; left; lia|].
      intros [?|(-> & ->)]; [lia|].
      destruct (decide (incomingCount mg (graphNodeId gn) s = 0)); [|lia].
      exfalso. apply E. done. }
  destruct (lookupById mg s) as [src| |] eqn:Hl.
  - apply lookupById_Registered in Hl.
    destruct (processEdge_counts gn node mg s src Hi Hnode Hl) as [Hin _].
    rewrite (Hcount _ Hin). split; (intros [?|?]; [by left|right]); [|tauto].
    split; [tauto|]. split; [tauto|done].
  - destruct (processEdge_counts_runtime gn node mg s Hi Hnode Hl) as [Hin _].
    rewrite (Hcount _ Hin). split; (intros [?|?]; [by left|right]); [|tauto].
    split; [tauto|]. split; [tauto|done].
  - assert (processEdge gn node mg s = mg) as ->.
    { unfold processEdge. rewrite Hl. by destruct (obj mg node). }
    split; [by left|]. intros [?|(_ & _ & ?)]; done.
Qed.

Lemma processEdges_incoming gn node srcs : ∀ mg,
  built mg → byId mg (graphNodeId gn) = Some node →
  sameButEdges mg (foldl (processEdge gn node) mg srcs) ∧
  ∀ a b, 0 < incomingCount (foldl (processEdge gn node) mg srcs) b a ↔
         0 < incomingCount mg b a ∨
         (b = graphNodeId gn ∧ a ∈ srcs ∧ lookupById mg a ≠ Undefined).
Proof.
  induction srcs as [|s srcs IH]; intros mg Hb Hnode; simpl.
  { split; [apply sameButEdges_refl|]. intros a b. split; [by left|].
    intros [?|(_ & ?%elem_of_nil & _)]; done. }
  pose proof (processEdge_sameButEdges gn node mg s) as Hsame.
  destruct (IH (processEdge gn node mg s)) as [Hsame' Hcount].
  { by eapply sameButEdges_built. }
  { by rewrite (sameButEdges_byId _ _ _ Hsame). }
  split; [by eapply sameButEdges_trans|].
  intros a b. rewrite Hcount, (sameButEdges_lookupById _ _ _ Hsame).
  rewrite processEdge_incoming by (done || apply Hb). rewrite elem_of_cons.
  split.
  - intros [[?|(-> & -> & ?)]|(-> & ? & ?)].
    + by left.
    + right. split; [done|]. split; [by left|done].
    + right. split; [done|]. split; [by right|done].
  - intros [?|(-> & [->|?] & ?)]; [by left; left|by left; right|by right].
Qed.

Lemma processEdgeRelationships_incoming this l : ∀ mg,
  built mg →
  sameButEdges mg (foldl (processEdgeRelationships_step this) mg l) ∧
  ∀ a b, 0 < incomingCount (foldl (processEdgeRelationships_step this) mg l) b a ↔
         0 < incomingCount mg b a ∨
         (b ∈ graphNodeId <$> l ∧ is_Some (byId mg b) ∧
          a ∈ default [] (upstream (graph this) !! b) ∧ lookupById mg a ≠ Undefined).
Proof.
  induction l as [|gn l IH]; intros mg Hb; simpl.
  { split; [apply sameButEdges_refl|]. intros a b. split; [by left|].
    intros [?|(?%elem_of_nil & _)]; done. }
  assert (sameButEdges mg (processEdgeRelationships_step this mg gn) ∧
          ∀ a b, 0 < incomingCount (processEdgeRelationships_step this mg gn) b a ↔
                 0 < incomingCount mg b a ∨
                 (b = graphNodeId gn ∧ is_Some (byId mg b) ∧
                  a ∈ default [] (upstream (graph this) !! b) ∧
                  lookupById mg a ≠ Undefined))
    as [Hsame Hstep].
  { unfold processEdgeRelationships_step.
    destruct (byId mg (graphNodeId gn)) as [node|] eqn:Hnode.
    - destruct (processEdges_incoming gn node
                  (default [] (upstream (graph this) !! graphNodeId gn)) mg Hb Hnode)
        as [Hsame Hcount].
      split; [done|]. intros a b. rewrite Hcount. split.
      + intros [?|(-> & ? & ?)]; [by left|]. right. rewrite Hnode. eauto.
      + intros [?|(-> & _ & ? & ?)]; [by left|]. by right.
    - split; [apply sameButEdges_refl|]. intros a b. split; [by left|].
      intros [?|(-> & [? Hx] & _)]; [done|]. congruence. }
  destruct (IH (processEdgeRelationships_step this mg gn)) as [Hsame' Hcount].
  { by eapply sameButEdges_built. }
  split; [by eapply sameButEdges_trans|].
  intros a b. rewrite Hcount, Hstep, !(sameButEdges_byId _ _ _ Hsame),
    (sameButEdges_lookupById _ _ _ Hsame), elem_of_cons.
  split.
  - intros [[?|(-> & ? & ? & ?)]|(? & ? & ? & ?)].
    + by left.
    + right. split; [by left|done].
    + right. split; [by right|done].
  - intros [?|([->|?] & ? & ? & ?)].
    + by left; left.
    + by left; right.
    + by right.
Qed.

(** The ids [nodesById] registers after the builder's passes. *)
Lemma build_registered this k :
  is_Some (byId (build this) k) ↔
  k ∈ graphNodeId <$> graphNodes (graph this) ∨
  (flattenLayers this = false ∧ k ∈ groupIdForNode <$> graphNodes (graph this)).
Proof.
  destruct (build_objects this) as (added & Hsk & Hasset & _ & Hg & _ & Hdom).
  pose proof (build_built this) as Hb. pose proof (built_index _ Hb) as Hi.
  assert (is_Some (byId (build this) k) ↔ k ∈ id <$> added) as ->.
  { rewrite <- Hdom. split.
    - intros [r Hr%byId_Some]. destruct Hr as [Hr _]. by rewrite Hr.
    - intros [r Hr]. exists r. by apply byId_index_ok. }
  rewrite <- Hg.
  assert (graphNodeId <$> graphNodes (graph this)
          = id <$> filter (λ n, nodeType n = ASSET_NODE) added) as ->.
  { apply (f_equal (fmap (λ x : string * string * nat, x.1.1))) in Hasset.
    rewrite <- !list_fmap_compose in Hasset. symmetry. exact Hasset. }
  rewrite !list_elem_of_fmap. split.
  - intros (n & -> & Hn). destruct (nodeType n) eqn:Ht.
    + left. exists n. split; [done|]. by apply list_elem_of_filter.
    + right. exists n. split; [done|]. by apply list_elem_of_filter.
  - intros [(n & -> & Hn%list_elem_of_filter)|(n & -> & Hn%list_elem_of_filter)];
      exists n; tauto.
Qed.

(** X4.  The edges the builder records (for a graph in which [__proto__] is
    no key): the node registered under [b] holds an incoming edge from [a]
    (exactly one) if and only if [b] is the id of a node of the input graph,
    [a] is a key of [graph.upstream[b]], and
    [nodesById[a]] is truthy: [a] is the id of an input node or, without
    [flattenLayers], a group id, or [a] is a key of [Object.prototype].  An
    upstream key of any other kind is dropped. *)
Theorem build_edge_iff (this : GraphProcessor) (a b : string) :
  plainKeys (graph this) →
  incomingCount (build this) b a = 1 ↔
  b ∈ graphNodeId <$> graphNodes (graph this) ∧
  a ∈ default [] (upstream (graph this) !! b) ∧
  (a ∈ graphNodeId <$> graphNodes (graph this) ∨
   (flattenLayers this = false ∧ a ∈ groupIdForNode <$> graphNodes (graph this)) ∨
   a ∈ Object_prototype_keys).
Proof.
  intros _.
  assert (a ∈ graphNodeId <$> graphNodes (graph this) ∨
          (flattenLayers this = false ∧ a ∈ groupIdForNode <$> graphNodes (graph this)) ∨
          a ∈ Object_prototype_keys
          ↔ lookupById (build this) a ≠ Undefined) as ->.
  { rewrite lookupById_found, build_registered. tauto. }
  pose proof (es_once _ (build_symmetric this) a b) as Hle.
  assert (incomingCount (build this) b a = 1 ↔ 0 < incomingCount (build this) b a) as ->
    by lia.
  clear Hle. set (mg0 := processNodes this createEmptyModelGraph).
  assert (built mg0) as Hb0 by apply processNodes_built, built_empty.
  destruct (processEdgeRelationships_incoming this (graphNodes (graph this)) mg0 Hb0)
    as [Hsame Hcount].
  change (foldl (processEdgeRelationships_step this) mg0 (graphNodes (graph this)))
    with (build this) in *.
  rewrite Hcount, <- !(sameButEdges_byId _ _ _ Hsame),
    <- (sameButEdges_lookupById _ _ _ Hsame).
  assert (incomingCount mg0 b a = 0) as ->.
  { unfold incomingCount. destruct (byId mg0 b) as [B|]; [|done].
    unfold edgesOf. destruct (obj mg0 B) as [n|] eqn:Hn; [|done]. simpl.
    apply (processNodes_edgeless this createEmptyModelGraph) in Hn as [-> _]; [done|].
    intros r n'. unfold obj. simpl. by rewrite lookup_nil. }
  split.
  - intros [?|(? & ? & ? & ?)]; [lia|done].
  - intros (Hb & ? & ?). right. split; [done|]. split; [|done].
    apply build_registered. by left.
Qed.

Lemma build_edge_iff_witness :
  plainKeys runtimeKeyGraph ∧
  (incomingCount (build (runtimeKeyProcessor false)) "b" "constructor" = 1 ↔
   "b" ∈ graphNodeId <$> graphNodes runtimeKeyGraph ∧
   "constructor" ∈ default [] (upstream runtimeKeyGraph !! "b") ∧
   ("constructor" ∈ graphNodeId <$> graphNodes runtimeKeyGraph ∨
    (false = false ∧ "constructor" ∈ groupIdForNode <$> graphNodes runtimeKeyGraph) ∨
    "constructor" ∈ Object_prototype_keys)) ∧
  incomingCount (build (runtimeKeyProcessor false)) "b" "constructor" = 1 ∧
  incomingCount (build (runtimeKeyProcessor false)) "b" "a" = 1 ∧
  incomingCount (build (runtimeKeyProcessor false)) "b" "missing" = 0.
Proof.
  assert (plainKeys runtimeKeyGraph) as Hp by (apply (bool_decide_unpack _); vm_compute; exact I).
  split; [exact Hp|].
  split; [exact (build_edge_iff (runtimeKeyProcessor false) "constructor" "b" Hp)|].
  repeat split; vm_compute; reflexivity.
Defined.

Lemma sameButEdges_id mg mg' r :
  sameButEdges mg mg' → id <$> obj mg' r = id <$> obj mg r.
Proof.
  intros H. pose proof (sbe_skeleton _ _ H r) as Hs.
  destruct (obj mg' r), (obj mg r); try done; try by inversion Hs.
  simpl in *. apply (inj Some) in Hs. unfold skeleton in Hs. f_equal. congruence.
Qed.

Lemma processEdge_anchored gn node mg s :
  index_ok mg → byId mg (graphNodeId gn) = Some node →
  edgesAnchored mg → edgesAnchored (processEdge gn node mg s).
Proof.
  intros Hi Hnode [Hin Hout].
  pose proof Hnode as [Hk [n Hn]]%byId_Some.
  destruct (Hi _ _ Hk) as (n0 & Hn0 & Hid). rewrite Hn in Hn0. injection Hn0 as <-.
  pose proof (processEdge_sameButEdges gn node mg s) as Hsame.
  assert (∀ r e,
            e ∈ default [] (if decide (node = r)
                            then Some (if find_is_null
                                            (λ e0, string_eqb (sourceNodeId e0) s)
                                            (default [] (edgesOf incomingEdges mg node))
                                       then default [] (edgesOf incomingEdges mg node) ++
                                            [{| sourceNodeId := s;
                                                targetNodeId := graphNodeId gn |}]
                                       else default [] (edgesOf incomingEdges mg node))
                            else edgesOf incomingEdges mg r) →
            id <$> obj mg r = Some (targetNodeId e)) as Hin'.
  { intros r e. destruct (decide (node = r)) as [<-|Hne]; [|apply Hin].
    simpl. destruct (find_is_null _ _); [|apply Hin].
    intros [He|He%list_elem_of_singleton]%elem_of_app; [by apply Hin|]. subst e.
    rewrite Hn. simpl. by rewrite Hid. }
  destruct (lookupById mg s) as [src| |] eqn:Hl; cycle 2.
  { unfold processEdge. by rewrite Hn, Hl. }
  - apply lookupById_Registered in Hl as Hsrc.
    pose proof Hsrc as [Hks [sn Hsn]]%byId_Some.
    destruct (Hi _ _ Hks) as (sn0 & Hsn0 & Hsid). rewrite Hsn in Hsn0. injection Hsn0 as <-.
    destruct (processEdge_edges gn node mg s src n Hsrc Hn) as [Ein Eout].
    split.
    + intros r e. rewrite Ein, (sameButEdges_id _ _ _ Hsame). apply Hin'.
    + intros r e. rewrite Eout, (sameButEdges_id _ _ _ Hsame). clear Ein Eout Hin'.
      destruct (decide (src = r)) as [<-|Hne]; [|apply Hout].
      simpl. destruct (find_is_null _ _); [|apply Hout].
      intros [He|He%list_elem_of_singleton]%elem_of_app; [by apply Hout|]. subst e.
      rewrite Hsn. simpl. by rewrite Hsid.
  - destruct (processEdge_edges_runtime gn node mg s n Hl Hn) as [Ein Eout].
    split.
    + intros r e. rewrite Ein, (sameButEdges_id _ _ _ Hsame). apply Hin'.
    + intros r e. rewrite Eout, (sameButEdges_id _ _ _ Hsame). apply Hout.
Qed.

Lemma build_anchored this : edgesAnchored (build this).
Proof.
  unfold build, processEdgeRelationships.
  set (mg0 := processNodes this createEmptyModelGraph).
  assert (built mg0) as Hb0 by apply processNodes_built, built_empty.
  apply (foldl_inv (λ m, built m ∧ edgesAnchored m)).
  - intros mg1 gn _ [Hb1 Ha1]. unfold processEdgeRelationships_step.
    destruct (byId mg1 (graphNodeId gn)) as [node|] eqn:Hnode; [|done].
    cut ((built (foldl (processEdge gn node) mg1
                   (default [] (upstream (graph this) !! graphNodeId gn))) ∧
          byId (foldl (processEdge gn node) mg1
                   (default [] (upstream (graph this) !! graphNodeId gn)))
               (graphNodeId gn) = Some node) ∧
         edgesAnchored (foldl (processEdge gn node) mg1
                   (default [] (upstream (graph this) !! graphNodeId gn)))).
    { tauto. }
    apply (foldl_inv (λ m, (built m ∧ byId m (graphNodeId gn) = Some node) ∧ edgesAnchored m));
      [|done].
    intros mg2 s _ [[Hb2 Hnode2] Ha2].
    pose proof (processEdge_sameButEdges gn node mg2 s) as Hsame.
    split; [split|].
    + by eapply sameButEdges_built.
    + by rewrite (sameButEdges_byId _ _ _ Hsame).
    + apply processEdge_anchored; [apply Hb2|done..].
  - split; [done|].
    assert (∀ r, edgesOf incomingEdges mg0 r = None ∧ edgesOf outgoingEdges mg0 r = None)
      as Hz.
    { intros r. unfold edgesOf. destruct (obj mg0 r) as [n|] eqn:Hn; [|done]. simpl.
      apply (processNodes_edgeless this createEmptyModelGraph) in Hn; [done|].
      intros r' n'. unfold obj. simpl. by rewrite lookup_nil. }
    split; intros r e; destruct (Hz r) as [E1 E2]; rewrite ?E1, ?E2;
      by intros ?%elem_of_nil.
Qed.

(** X5.  Every edge the builder stores on a node (for a graph in which
    [__proto__] is no key) has that node as its end: an incoming edge of [n]
    has [n]'s id as its target, and its source is a registered id or a key of
    [Object.prototype]; an outgoing edge of [n] has [n]'s id as its source,
    and a registered target. *)
Theorem build_edges_anchored (this : GraphProcessor) (r : ref) (n : ModelNode) (e : Edge) :
  plainKeys (graph this) →
  obj (build this) r = Some n →
  (e ∈ default [] (incomingEdges n) →
   targetNodeId e = id n ∧
   (is_Some (byId (build this) (sourceNodeId e)) ∨ sourceNodeId e ∈ Object_prototype_keys)) ∧
  (e ∈ default [] (outgoingEdges n) →
   sourceNodeId e = id n ∧ is_Some (byId (build this) (targetNodeId e))).
Proof.
  intros _ Hr. destruct (build_anchored this) as [Hin Hout].
  specialize (Hin r e). specialize (Hout r e). unfold edgesOf in Hin, Hout.
  rewrite Hr in Hin, Hout. simpl in Hin, Hout.
  split.
  - intros He. split; [by injection (Hin He)|].
    apply lookupById_found. by eapply build_sources_found.
  - intros He. assert (sourceNodeId e = id n) as Hs by by injection (Hout He).
    split; [done|].
    destruct (build_symmetric this) as [Hc _ Hsh].
    destruct (decide (byId (build this) (id n) = Some r)) as [Hreg|Hreg]; cycle 1.
    { destruct (Hsh _ _ Hr Hreg) as [_ Ho]. rewrite Ho in He. by apply elem_of_nil in He. }
    specialize (Hc (id n) (targetNodeId e) ltac:(eauto)).
    unfold incomingCount, outgoingCount in Hc. rewrite Hreg in Hc.
    unfold edgesOf at 1 in Hc. rewrite Hr in Hc. simpl in Hc.
    destruct (byId (build this) (targetNodeId e)); [eauto|].
    assert (e ∈ filter (λ e0, targetNodeId e0 = targetNodeId e) (default [] (outgoingEdges n)))
      as Hf by by apply list_elem_of_filter.
    destruct (filter _ _); [by apply elem_of_nil in Hf|done].
Qed.

Lemma build_edges_anchored_witness :
  plainKeys runtimeKeyGraph ∧
  ∃ n, obj (build (runtimeKeyProcessor false)) 2 = Some n ∧
       incomingEdges n = Some [{| sourceNodeId := "a"; targetNodeId := "b" |};
                               {| sourceNodeId := "constructor"; targetNodeId := "b" |}] ∧
       outgoingEdges n = Some [{| sourceNodeId := "b"; targetNodeId := "c" |}] ∧
       ("b" = id n ∧
        (is_Some (byId (build (runtimeKeyProcessor false)) "constructor") ∨
         "constructor" ∈ Object_prototype_keys)) ∧
       ("b" = id n ∧ is_Some (byId (build (runtimeKeyProcessor false)) "c")).
Proof.
  assert (plainKeys runtimeKeyGraph) as Hp by (apply (bool_decide_unpack _); vm_compute; exact I).
  split; [exact Hp|].
  assert (∃ n, obj (build (runtimeKeyProcessor false)) 2 = Some n ∧
               incomingEdges n
               = Some [{| sourceNodeId := "a"; targetNodeId := "b" |};
                       {| sourceNodeId := "constructor"; targetNodeId := "b" |}] ∧
               outgoingEdges n = Some [{| sourceNodeId := "b"; targetNodeId := "c" |}])
    as (n & Hn & Hi & Ho).
  { eexists. repeat split; vm_compute; reflexivity. }
  exists n. split; [exact Hn|]. split; [exact Hi|]. split; [exact Ho|].
  split.
  - apply (build_edges_anchored (runtimeKeyProcessor false) 2 n
             {| sourceNodeId := "constructor"; targetNodeId := "b" |} Hp Hn).
    rewrite Hi. simpl. right. left.
  - apply (build_edges_anchored (runtimeKeyProcessor false) 2 n
             {| sourceNodeId := "b"; targetNodeId := "c" |} Hp Hn).
    rewrite Ho. simpl. left.
Defined.

(** ** The Aggregator: what the pass writes *)

Lemma sameButDescendants_refl mg : sameButDescendants mg mg.
Proof. by split. Qed.

Lemma sameButDescendants_trans mg1 mg2 mg3 :
  sameButDescendants mg1 mg2 → sameButDescendants mg2 mg3 → sameButDescendants mg1 mg3.
Proof.
  intros H12 H23. destruct H12, H23. split; try congruence.
  intros r n Hr Ht. auto.
Qed.

Lemma sameButDescendants_obj mg mg' r :
  sameButDescendants mg mg' →
  match obj mg' r, obj mg r with
  | Some n', Some n => nodeBody n' = nodeBody n
  | None, None => True
  | _, _ => False
  end.
Proof.
  intros H. pose proof (sbd_body _ _ H r) as Hb.
  destruct (obj mg' r), (obj mg r); try done; try by inversion Hb.
  by apply (inj Some) in Hb.
Qed.

Lemma sameButDescendants_byId mg mg' k :
  sameButDescendants mg mg' → byId mg' k = byId mg k.
Proof.
  intros H. unfold byId. rewrite (sbd_nodesById _ _ H).
  destruct (nodesById mg !! k) as [r|]; [|done].
  pose proof (sameButDescendants_obj _ _ r H) as Hr.
  by destruct (obj mg' r), (obj mg r).
Qed.

Lemma sameButDescendants_childrenOf mg mg' r :
  sameButDescendants mg mg' → childrenOf mg' r = childrenOf mg r.
Proof.
  intros H. unfold childrenOf. pose proof (sameButDescendants_obj _ _ r H) as Hr.
  destruct (obj mg' r), (obj mg r); try done. simpl. unfold nodeBody in Hr. congruence.
Qed.

Lemma sameButDescendants_isGroupNode mg mg' r :
  sameButDescendants mg mg' → isGroupNode (obj mg' r) = isGroupNode (obj mg r).
Proof.
  intros H. pose proof (sameButDescendants_obj _ _ r H) as Hr.
  destruct (obj mg' r), (obj mg r); try done. simpl. unfold nodeBody in Hr.
  assert (nodeType m = nodeType m0) as -> by congruence. done.
Qed.

Lemma sameButDescendants_isAssetNode mg mg' r :
  sameButDescendants mg mg' → isAssetNode (obj mg' r) = isAssetNode (obj mg r).
Proof.
  intros H. pose proof (sameButDescendants_obj _ _ r H) as Hr.
  destruct (obj mg' r), (obj mg r); try done. simpl. unfold nodeBody in Hr.
  assert (nodeType m = nodeType m0) as -> by congruence. done.
Qed.

Lemma sameButDescendants_hideInLayout mg mg' r :
  sameButDescendants mg mg' → obj mg' r ≫= hideInLayout = obj mg r ≫= hideInLayout.
Proof.
  intros H. pose proof (sameButDescendants_obj _ _ r H) as Hr.
  destruct (obj mg' r), (obj mg r); try done. simpl. unfold nodeBody in Hr. congruence.
Qed.

Lemma sameButDescendants_nodeType mg mg' r :
  sameButDescendants mg mg' → nodeType <$> obj mg' r = nodeType <$> obj mg r.
Proof.
  intros H. pose proof (sameButDescendants_obj _ _ r H) as Hr.
  destruct (obj mg' r), (obj mg r); try done. simpl. unfold nodeBody in Hr. congruence.
Qed.

Lemma sameButDescendants_idsOf mg mg' l :
  sameButDescendants mg mg' → idsOf mg' l = idsOf mg l.
Proof.
  intros H. unfold idsOf. induction l as [|r l IH]; [done|]. csimpl. rewrite IH.
  pose proof (sameButDescendants_obj _ _ r H) as Hr.
  destruct (obj mg' r), (obj mg r); try done. simpl.
  unfold nodeBody in Hr. f_equal. congruence.
Qed.

Lemma foldlM_ext {A B} (f g : A → B → run A) l a :
  (∀ a b, b ∈ l → f a b = g a b) → foldlM f a l = foldlM g a l.
Proof.
  revert a. induction l as [|b l IH]; intros a H; simpl; [done|].
  rewrite H by by left. destruct (g a b); simpl; [|done..].
  apply IH. intros ???. apply H. by right.
Qed.

(** [gatherDescendants] reads neither descendant list. *)
Lemma gatherDescendants_frame mg mg' fuel :
  sameButDescendants mg mg' → ∀ descendants curRoot,
  gatherDescendants fuel mg' descendants curRoot = gatherDescendants fuel mg descendants curRoot.
Proof.
  intros H. induction fuel as [|fuel IH]; intros descendants curRoot; [done|].
  simpl. rewrite (sameButDescendants_childrenOf _ _ _ H).
  apply foldlM_ext. intros ds childId _.
  rewrite (sameButDescendants_byId _ _ _ H).
  destruct (byId mg childId) as [child|]; [|done]. simpl.
  rewrite (sameButDescendants_isGroupNode _ _ _ H), (sameButDescendants_isAssetNode _ _ _ H),
    (sameButDescendants_hideInLayout _ _ _ H).
  destruct (isGroupNode (obj mg child)); [|done]. apply IH.
Qed.

Lemma descendantOf_unfold mg r d :
  descendantOf mg r d ↔
  ∃ c x, c ∈ childrenOf mg r ∧ byId mg c = Some x ∧
         (d = x ∨ (isGroupNode (obj mg x) = true ∧ descendantOf mg x d)).
Proof.
  split.
  - intros H. destruct H as [r c d Hc Hd|r c g d Hc Hg Hgrp Hd].
    + exists c, d. split; [done|]. split; [done|]. by left.
    + exists c, g. split; [done|]. split; [done|]. right. by split.
  - intros (c & x & Hc & Hx & [->|[Hg Hd]]).
    + by eapply descendant_child.
    + by eapply descendant_deeper.
Qed.

(** [gatherDescendants] appends the listed descendants of [curRoot], each
    time it meets them, to the array it is given. *)
Lemma gatherDescendants_spec mg fuel : ∀ acc r out,
  gatherDescendants fuel mg acc r = Ret out →
  ∃ ds, out = acc ++ ds ∧ ∀ d, d ∈ ds ↔ descendantOf mg r d ∧ listed mg d.
Proof.
  induction fuel as [|fuel IH]; intros acc r out; [done|]. simpl.
  intros H.
  cut (∃ ds, out = acc ++ ds ∧
        ∀ d, d ∈ ds ↔
             ∃ c x, c ∈ childrenOf mg r ∧ byId mg c = Some x ∧
                    ((d = x ∧ listed mg x) ∨
                     (isGroupNode (obj mg x) = true ∧ descendantOf mg x d ∧ listed mg d))).
  { intros (ds & -> & Hds). exists ds. split; [done|]. intros d.
    rewrite Hds, descendantOf_unfold. split.
    - intros (c & x & Hc & Hx & [[-> Hl]|(Hg & Hd & Hl)]).
      + split; [|done]. exists c, x. split; [done|]. split; [done|]. by left.
      + split; [|done]. exists c, x. split; [done|]. split; [done|]. by right.
    - intros [(c & x & Hc & Hx & [->|[Hg Hd]]) Hl]; exists c, x.
      + split; [done|]. split; [done|]. by left.
      + split; [done|]. split; [done|]. by right. }
  revert acc out H. generalize (childrenOf mg r) as cs.
  induction cs as [|childId cs IHcs]; intros acc out H.
  { simpl in H. injection H as <-. exists []. rewrite app_nil_r. split; [done|].
    intros d. split; [by intros ?%elem_of_nil|].
    by intros (c & x & ?%elem_of_nil & _). }
  rewrite foldlM_cons in H. apply bind_Ret in H as (acc1 & Hstep & H).
  apply IHcs in H as (ds2 & -> & Hds2). clear IHcs.
  assert (∃ ds1, acc1 = acc ++ ds1 ∧
            ∀ d, d ∈ ds1 ↔
                 ∃ x, byId mg childId = Some x ∧
                      ((d = x ∧ listed mg x) ∨
                       (isGroupNode (obj mg x) = true ∧ descendantOf mg x d ∧ listed mg d)))
    as (ds1 & -> & Hds1).
  { cbv beta zeta in Hstep. destruct (byId mg childId) as [x|] eqn:Hx; cycle 1.
    { injection Hstep as <-. exists []. rewrite app_nil_r. split; [done|].
      intros d. split; [by intros ?%elem_of_nil|]. by intros (? & [=] & _). }
    simpl in Hstep. fold (listed mg x) in Hstep. unfold listed.
    destruct (isGroupNode (obj mg x)) eqn:Hg; simpl in Hstep |- *.
    - apply IH in Hstep as (ds & -> & Hds). exists (x :: ds).
      split; [by rewrite <- app_assoc|]. intros d. rewrite elem_of_cons, Hds. split.
      + intros [->|[Hd Hl]]; exists x; (split; [done|]).
        * left. split; [done|]. unfold listed. by rewrite Hg.
        * right. done.
      + intros (x' & [= <-] & [[-> _]|(_ & Hd & Hl)]); [by left|by right].
    - destruct (isAssetNode (obj mg x) && negb (truthy_bool (obj mg x ≫= hideInLayout)))
        eqn:Hv; injection Hstep as <-.
      + exists [x]. split; [done|]. intros d. rewrite list_elem_of_singleton. split.
        * intros ->. exists x. split; [done|]. left. split; [done|].
          unfold listed. by rewrite Hg.
        * intros (x' & [= <-] & [[-> _]|(? & _)]); [done|congruence].
      + exists []. rewrite app_nil_r. split; [done|]. intros d.
        split; [by intros ?%elem_of_nil|].
        intros (x' & [= <-] & [[-> Hl]|(? & _)]); [|congruence].
        rewrite Hg, Hv in Hl. done. }
  exists (ds1 ++ ds2). split; [by rewrite app_assoc|].
  intros d. rewrite elem_of_app, Hds1, Hds2. split.
  - intros [(x & Hx & Hd)|(c & x & Hc & Hx & Hd)].
    + exists childId, x. split; [by left|done].
    + exists c, x. split; [by right|done].
  - intros (c & x & [->|Hc]%elem_of_cons & Hx & Hd).
    + left. by exists x.
    + right. by exists c, x.
Qed.

Lemma sameButDescendants_write node all assets mg :
  isGroupNode (obj mg node) = true →
  sameButDescendants mg (write node (set_descendants all assets) mg).
Proof.
  intros Hg. split; try done.
  - unfold write; simpl. apply length_alter.
  - intros r. rewrite obj_write. case_decide; [|done]. by destruct (obj mg r).
  - intros r n Hr Ht. rewrite obj_write. case_decide as E; [|done]. subst r.
    rewrite Hr in Hg. apply isGroupNode_Some in Hg. congruence.
Qed.

Lemma populate_step_exact mg fuel mgk mn mx node mg' mn' mx' :
  sameButDescendants mg mgk →
  populate_step fuel (mgk, mn, mx) node = Ret (mg', mn', mx') →
  sameButDescendants mg mg' ∧
  (∀ r, r ≠ node → obj mg' r = obj mgk r) ∧
  (isGroupNode (obj mg node) = false → mg' = mgk ∧ mn' = mn ∧ mx' = mx) ∧
  (isGroupNode (obj mg node) = true →
   ∃ n', obj mg' node = Some n' ∧ nodeType n' = GROUP_NODE ∧ gathered fuel mg node n' ∧
         mn' = Math_min (Num (Z.of_nat (length (default [] (descendantsAssetNodeIds n'))))) mn ∧
         mx' = Math_max (Num (Z.of_nat (length (default [] (descendantsAssetNodeIds n'))))) mx).
Proof.
  intros Hsame. unfold populate_step.
  rewrite (sameButDescendants_isGroupNode _ _ node Hsame).
  destruct (isGroupNode (obj mg node)) eqn:Hg; intros H.
  - rewrite (gatherDescendants_frame _ _ _ Hsame) in H.
    apply bind_Ret in H as (ds & Hds & H). injection H as <- <- <-.
    assert (isGroupNode (obj mgk node) = true) as Hgk
      by by rewrite (sameButDescendants_isGroupNode _ _ node Hsame).
    split.
    { eapply sameButDescendants_trans; [done|]. by apply sameButDescendants_write. }
    split; [intros r Hr; by apply obj_write_ne|].
    split; [done|]. intros _.
    destruct (obj mgk node) as [nk|] eqn:Hnk; [|done].
    rewrite obj_write_eq, Hnk. simpl. eexists. split; [done|].
    split; [by apply isGroupNode_Some in Hgk|]. split; [|done].
    exists ds. split; [done|]. simpl.
    rewrite !(sameButDescendants_idsOf _ _ _ Hsame). split; [done|].
    do 2 f_equal. apply list_filter_iff. intros d.
    by rewrite (sameButDescendants_nodeType _ _ d Hsame).
  - injection H as <- <- <-. split; [done|]. split; [done|]. split; [done|]. done.
Qed.

Lemma gathered_length fuel mg r n n' :
  gathered fuel mg r n → gathered fuel mg r n' →
  descendantsAssetNodeIds n' = descendantsAssetNodeIds n.
Proof.
  intros (ds & Hds & _ & Ha) (ds' & Hds' & _ & Ha').
  rewrite Hds in Hds'. injection Hds' as <-. congruence.
Qed.

Lemma populate_loop_exact mg fuel l : ∀ done mgk mn mx mg' mn' mx',
  sameButDescendants mg mgk →
  (∀ r, r ∈ done → isGroupNode (obj mg r) = true →
        ∃ n, obj mgk r = Some n ∧ gathered fuel mg r n) →
  ((mn = MAX_VALUE ∧ mx = NEGATIVE_INFINITY ∧
    ∀ r, r ∈ done → isGroupNode (obj mg r) = false) ∨
   (attained mgk done mn ∧ attained mgk done mx)) →
  foldlM (populate_step fuel) (mgk, mn, mx) l = Ret (mg', mn', mx') →
  sameButDescendants mg mg' ∧
  (∀ r, r ∈ done ++ l → isGroupNode (obj mg r) = true →
        ∃ n, obj mg' r = Some n ∧ gathered fuel mg r n) ∧
  ((mn' = MAX_VALUE ∧ mx' = NEGATIVE_INFINITY ∧
    ∀ r, r ∈ done ++ l → isGroupNode (obj mg r) = false) ∨
   (attained mg' (done ++ l) mn' ∧ attained mg' (done ++ l) mx')).
Proof.
  induction l as [|node l IH]; intros done mgk mn mx mg' mn' mx' Hsame Hdone Hcount H.
  { simpl in H. injection H as <- <- <-. rewrite app_nil_r. done. }
  rewrite foldlM_cons in H. apply bind_Ret in H as ([[mg1 mn1] mx1] & Hstep & H).
  apply (populate_step_exact mg) in Hstep as (Hsame1 & Hother & Hasset & Hgroup); [|done].
  replace (done ++ node :: l) with ((done ++ [node]) ++ l) by by rewrite <- app_assoc.
  apply (IH (done ++ [node]) mg1 mn1 mx1); [done| | |done]; clear IH H.
  - intros r [Hr|Hr%list_elem_of_singleton]%elem_of_app Hg.
    + destruct (decide (r = node)) as [->|Hne].
      * destruct (Hgroup Hg) as (n' & Hn' & _ & Hgath & _). eauto.
      * rewrite Hother by done. by apply Hdone.
    + subst r. destruct (Hgroup Hg) as (n' & Hn' & _ & Hgath & _). eauto.
  - destruct (isGroupNode (obj mg node)) eqn:Hg.
    + right. destruct (Hgroup eq_refl) as (n' & Hn' & Ht' & Hgath & -> & ->).
      set (len := Num (Z.of_nat (length (default [] (descendantsAssetNodeIds n'))))).
      assert (attained mg1 (done ++ [node]) len) as Hnew.
      { exists node, n'. split; [apply elem_of_app; right; by left|done]. }
      assert (∀ v, attained mgk done v → attained mg1 (done ++ [node]) v) as Hold.
      { intros v (r & n & Hr & Hn & Ht & ->).
        destruct (decide (r = node)) as [->|Hne].
        - destruct (Hdone node Hr Hg) as (n0 & Hn0 & Hgath0).
          rewrite Hn in Hn0. injection Hn0 as <-.
          rewrite <- (gathered_length _ _ _ _ _ Hgath0 Hgath). exact Hnew.
        - exists r, n. split; [apply elem_of_app; by left|].
          rewrite Hother by done. done. }
      destruct Hcount as [(-> & -> & _)|[Hmn Hmx]].
      * split; exact Hnew.
      * split.
        -- unfold Math_min. destruct (number_leb len mn); [done|by apply Hold].
        -- unfold Math_max. destruct (number_leb len mx); [by apply Hold|done].
    + destruct (Hasset eq_refl) as (-> & -> & ->).
      destruct Hcount as [(-> & -> & Hno)|[Hmn Hmx]].
      * left. split; [done|]. split; [done|].
        intros r [Hr|Hr%list_elem_of_singleton]%elem_of_app; [by apply Hno|by subst r].
      * right. split.
        -- destruct Hmn as (r & n & Hr & Hn). exists r, n.
           split; [apply elem_of_app; by left|done].
        -- destruct Hmx as (r & n & Hr & Hn). exists r, n.
           split; [apply elem_of_app; by left|done].
Qed.

Lemma populate_exact fuel mg mg' :
  populateDescendantsAndCounts fuel mg = Ret mg' →
  sameButDescendants mg mg' ∧
  (∀ r, r ∈ nodes mg → isGroupNode (obj mg r) = true →
        ∃ n, obj mg' r = Some n ∧ gathered fuel mg r n) ∧
  ((minDescendantAssetNodeCount mg' = MAX_VALUE ∧
    maxDescendantAssetNodeCount mg' = NEGATIVE_INFINITY ∧
    ∀ r, r ∈ nodes mg → isGroupNode (obj mg r) = false) ∨
   (attained mg' (nodes mg) (minDescendantAssetNodeCount mg') ∧
    attained mg' (nodes mg) (maxDescendantAssetNodeCount mg'))).
Proof.
  unfold populateDescendantsAndCounts. intros H.
  apply bind_Ret in H as ([[mg1 mn] mx] & Hloop & H). injection H as <-.
  apply (populate_loop_exact mg fuel (nodes mg) []) in Hloop as (Hsame & Hg & Hc).
  - split.
    { destruct Hsame. by split. }
    split; [exact Hg|]. exact Hc.
  - apply sameButDescendants_refl.
  - by intros r ?%elem_of_nil.
  - left. split; [done|]. split; [done|]. by intros r ?%elem_of_nil.
Qed.

(** X6.  [populateDescendantsAndCounts] writes the two descendant lists of
    group nodes and the two counts, and nothing else: the node list, the id
    index, the root nodes and every other field of every node are the ones
    it was given, and asset nodes are not written at all. *)
Theorem populate_writes_descendants_only fuel mg mg' :
  populateDescendantsAndCounts fuel mg = Ret mg' → sameButDescendants mg mg'.
Proof. intros H. by apply populate_exact in H as [? _]. Qed.

Lemma populate_writes_descendants_only_witness :
  populateDescendantsAndCounts 5 splitFive = Ret splitFiveStats ∧
  sameButDescendants splitFive splitFiveStats.
Proof.
  assert (populateDescendantsAndCounts 5 splitFive = Ret splitFiveStats) as H
    by (vm_compute; reflexivity).
  split; [exact H|]. exact (populate_writes_descendants_only 5 _ _ H).
Defined.

(** X7.  What [populateDescendantsAndCounts] stores on a group node [r] of
    the node list: [descendantsNodeIds] holds the ids of the listed
    descendants of [r] (the nodes reached from [r] through [childrenIds] and
    group nodes, hidden asset nodes left out), in the order of the
    depth-first walk, and [descendantsAssetNodeIds] the ids of the asset
    nodes among them. *)
Theorem populate_descendants fuel mg mg' r n' :
  populateDescendantsAndCounts fuel mg = Ret mg' →
  r ∈ nodes mg → obj mg' r = Some n' → nodeType n' = GROUP_NODE →
  ∃ ds,
    descendantsNodeIds n' = Some (idsOf mg ds) ∧
    descendantsAssetNodeIds n'
    = Some (idsOf mg (filter (λ d, nodeType <$> obj mg d = Some ASSET_NODE) ds)) ∧
    ∀ d, d ∈ ds ↔ descendantOf mg r d ∧ listed mg d.
Proof.
  intros H Hr Hn' Ht. apply populate_exact in H as (Hsame & Hg & _).
  destruct (Hg r Hr) as (n & Hn & ds & Hds & Hall & Hassets).
  { rewrite <- (sameButDescendants_isGroupNode _ _ r Hsame), Hn'.
    by apply isGroupNode_Some. }
  rewrite Hn' in Hn. injection Hn as <-.
  exists ds. split; [done|]. split; [done|].
  apply gatherDescendants_spec in Hds as (ds' & Heq & Hspec). simpl in Heq. by subst ds'.
Qed.

Lemma populate_descendants_witness :
  ∃ n', obj splitFiveStats 0 = Some n' ∧
    ∃ ds,
      descendantsNodeIds n' = Some (idsOf splitFive ds) ∧
      descendantsAssetNodeIds n'
      = Some (idsOf splitFive
                (filter (λ d, nodeType <$> obj splitFive d = Some ASSET_NODE) ds)) ∧
      ∀ d, d ∈ ds ↔ descendantOf splitFive 0 d ∧ listed splitFive d.
Proof.
  assert (populateDescendantsAndCounts 5 splitFive = Ret splitFiveStats) as H
    by (vm_compute; reflexivity).
  assert (∃ n', obj splitFiveStats 0 = Some n' ∧ nodeType n' = GROUP_NODE) as (n' & Hn' & Ht).
  { eexists. split; vm_compute; reflexivity. }
  exists n'. split; [exact Hn'|].
  apply (populate_descendants 5 splitFive splitFiveStats 0 n' H); [|exact Hn'|exact Ht].
  vm_compute. left.
Defined.

(** X8.  As soon as the node list holds a group node, the minimum and the
    maximum that [populateDescendantsAndCounts] stores are attained: each is
    the number of descendant asset nodes of some group node of the node
    list. *)
Theorem counts_attained fuel mg mg' :
  populateDescendantsAndCounts fuel mg = Ret mg' →
  (∃ r, r ∈ nodes mg ∧ isGroupNode (obj mg r) = true) →
  attained mg' (nodes mg') (minDescendantAssetNodeCount mg') ∧
  attained mg' (nodes mg') (maxDescendantAssetNodeCount mg').
Proof.
  intros H (r & Hr & Hg). apply populate_exact in H as (Hsame & _ & Hc).
  rewrite (sbd_nodes _ _ Hsame).
  destruct Hc as [(_ & _ & Hno)|Hc]; [|done].
  rewrite (Hno r Hr) in Hg. done.
Qed.

Lemma counts_attained_witness :
  populateDescendantsAndCounts 5 splitFive = Ret splitFiveStats ∧
  minDescendantAssetNodeCount splitFiveStats = Num 1 ∧
  maxDescendantAssetNodeCount splitFiveStats = Num 5 ∧
  attained splitFiveStats (nodes splitFiveStats) (minDescendantAssetNodeCount splitFiveStats) ∧
  attained splitFiveStats (nodes splitFiveStats) (maxDescendantAssetNodeCount splitFiveStats).
Proof.
  assert (populateDescendantsAndCounts 5 splitFive = Ret splitFiveStats) as H
    by (vm_compute; reflexivity).
  split; [exact H|]. split; [vm_compute; reflexivity|]. split; [vm_compute; reflexivity|].
  apply (counts_attained 5 splitFive splitFiveStats H).
  exists 0. split; [vm_compute; left|vm_compute; reflexivity].
Defined.

(** ** The Group Partitioner: buckets, frame and section ids *)

Lemma visit_bucketsInv this fuel layoutGraph mg : ∀ st curNodeId st',
  bucketsInv this mg st →
  visit this fuel layoutGraph mg st curNodeId = Ret st' →
  bucketsInv this mg st'.
Proof.
  induction fuel as [|fuel IH]; intros st curNodeId st' Hst H; [done|].
  simpl in H. case_bool_decide as Hseen; [by injection H as <-|].
  apply bind_Ret in H as (node & Hnode & H).
  destruct (byId mg curNodeId) as [node'|] eqn:Hby; [|done]. injection Hnode as ->.
  apply bind_Ret in H as (n & _ & H).
  eapply (foldlM_inv (bucketsInv this mg)); [| |exact H].
  - intros ? ? ? _. apply IH.
  - clear H IH. destruct Hst as [Hfull Hopen Hnd Hnodes].
    assert (NoDup (visitedNodeIds st ++ [curNodeId])) as Hnd'.
    { apply NoDup_app. split; [done|]. split; [|apply NoDup_singleton].
      intros x Hx Hx'%list_elem_of_singleton. by subst x. }
    destruct (_ =? _)%Z eqn:E.
    + apply Z.eqb_eq in E. split; simpl.
      * apply Forall_app. split; [done|]. constructor; [|done].
        split; [done|]. rewrite length_app. simpl. lia.
      * lia.
      * done.
      * rewrite app_nil_r, concat_app, concat_cons, concat_nil, app_nil_r.
        rewrite app_assoc, (fmap_app Some (concat (groups st) ++ curGroup st)), Hnodes, fmap_app.
        f_equal. simpl. by rewrite Hby.
    + apply Z.eqb_neq in E. split; simpl.
      * done.
      * intros HT. specialize (Hopen HT). rewrite length_app in *. simpl in *. lia.
      * done.
      * rewrite app_assoc, (fmap_app Some (concat (groups st) ++ curGroup st)), Hnodes, fmap_app.
        f_equal. simpl. by rewrite Hby.
Qed.

(** The depth-first walk is a function of the graph and the ids seen so
    far. *)
Lemma walkAll_functional succ seen vs seen1 seen2 :
  walkAll succ seen vs seen1 → walkAll succ seen vs seen2 → seen1 = seen2.
Proof.
  intros H. revert seen2.
  induction H using walkAll_walkFrom_ind with
    (P := λ seen v seen1 _, ∀ seen2, walkFrom succ seen v seen2 → seen1 = seen2);
    intros s2 H2.
  - by inversion H2; subst.
  - inversion H2; subst; [done|]. by apply IHwalkAll.
  - by inversion H2; subst.
  - inversion H2; subst.
    match goal with Hw : walkFrom _ _ _ ?s |- _ => apply IHwalkAll in Hw; subst s end.
    by apply IHwalkAll0.
Qed.

Lemma visit_visited this fuel layoutGraph mg : ∀ st curNodeId st',
  index_ok mg →
  visit this fuel layoutGraph mg st curNodeId = Ret st' →
  walkFrom (λ v, default [] (LayoutGraph.outgoingEdges layoutGraph !! v))
           (visitedNodeIds st) curNodeId (visitedNodeIds st').
Proof.
  induction fuel as [|fuel IH]; intros st curNodeId st' Hi H; [done|].
  simpl in H. case_bool_decide as Hseen; [injection H as <-; by constructor|].
  apply bind_Ret in H as (node & Hnode & H).
  destruct (byId mg curNodeId) as [node'|] eqn:Hby; [|done]. injection Hnode as ->.
  apply bind_Ret in H as (n & Hn & H).
  destruct (obj mg node) as [n'|] eqn:Hobj; [|done]. injection Hn as ->.
  assert (id n = curNodeId) as Hid.
  { apply byId_Some in Hby as [Hk _]. destruct (Hi _ _ Hk) as (n0 & Hn0 & Hid).
    congruence. }
  rewrite Hid in H. apply walk_new; [done|].
  match type of H with
  | foldlM _ ?s _ = _ =>
      assert (visitedNodeIds s = visitedNodeIds st ++ [curNodeId]) as <-
        by by destruct (_ =? _)%Z
  end.
  revert H. generalize (default [] (LayoutGraph.outgoingEdges layoutGraph !! curNodeId)).
  match goal with |- ∀ l, foldlM _ ?s l = _ → _ => generalize s end.
  intros st0 l. revert st0. induction l as [|v l IHl]; intros st0 H.
  - injection H as <-. constructor.
  - rewrite foldlM_cons in H. apply bind_Ret in H as (st1 & Hv & H).
    econstructor; [by eapply IH|by apply IHl].
Qed.

(** X9.  The buckets of one split.  With a threshold below one there is no
    bucket at all.  Otherwise every bucket but the last holds exactly
    [threshold] nodes, and the last one at least one and fewer than
    [threshold].  With an id index that names every node by its own id, the
    buckets are filled in the order of the depth-first walk of the layout
    graph from its roots: put end to end, they are the nodes registered under
    the ids of that walk, in its order, and no node is in two buckets. *)
Theorem bucketize_fills_in_order this fuel layoutGraph mg groups :
  bucketize this fuel layoutGraph mg = Ret groups →
  ((groupNodeChildrenCountThreshold this ≤ 0)%Z → groups = []) ∧
  (∃ full last,
     groups = full ++ last ∧
     Forall (λ b, Z.of_nat (length b) = groupNodeChildrenCountThreshold this) full ∧
     Forall (λ b, 0 < length b ∧
                  (Z.of_nat (length b) < groupNodeChildrenCountThreshold this)%Z) last ∧
     length last ≤ 1) ∧
  (index_ok mg →
   ∃ visited,
     depthFirst layoutGraph visited ∧ NoDup visited ∧ NoDup (concat groups) ∧
     ((1 ≤ groupNodeChildrenCountThreshold this)%Z →
      Some <$> concat groups = byId mg <$> visited)).
Proof.
  unfold bucketize. intros H. apply bind_Ret in H as (st & Hst & H).
  assert (bucketsInv this mg st) as [Hfull Hopen Hnd Hnodes].
  { eapply (foldlM_inv (bucketsInv this mg)); [| |exact Hst].
    - intros st0 rootNode st1 _ Hst0 Hv. cbv beta in Hv.
      apply bind_Ret in Hv as (r & _ & Hv). apply bind_Ret in Hv as (n & _ & Hv).
      by eapply visit_bucketsInv.
    - split; simpl; [constructor|lia|constructor|done]. }
  injection H as <-.
  set (T := groupNodeChildrenCountThreshold this) in *.
  assert (T ≤ 0 → groups st = [])%Z as Hempty.
  { intros HT. destruct (groups st) as [|b bs]; [done|].
    apply Forall_cons in Hfull as [[Hb Hb'] _]. lia. }
  assert (∃ visited, NoDup visited ∧
            Some <$> concat (if (Z.of_nat (length (curGroup st)) <? T)%Z &&
                                (0 <? Z.of_nat (length (curGroup st)))%Z
                             then groups st ++ [curGroup st] else groups st)
            = byId mg <$> visited) as Hvis.
  { destruct (Z.ltb_spec (Z.of_nat (length (curGroup st))) T) as [Hlt|Hge]; simpl.
    - destruct (Z.ltb_spec 0 (Z.of_nat (length (curGroup st)))) as [Hpos|Hz]; simpl.
      + exists (visitedNodeIds st). split; [done|].
        by rewrite concat_app; simpl; rewrite app_nil_r.
      + exists (visitedNodeIds st). split; [done|]. rewrite <- Hnodes.
        destruct (curGroup st); [by rewrite app_nil_r|simpl in Hz; lia].
    - destruct (Z.le_gt_cases 1 T) as [HT|HT]; [specialize (Hopen HT); lia|].
      rewrite Hempty by lia. exists []. split; [constructor|done]. }
  split; [|split].
  - intros HT. rewrite (Hempty HT).
    destruct (Z.ltb_spec (Z.of_nat (length (curGroup st))) T); simpl; [|done]. 
    destruct (Z.ltb_spec 0 (Z.of_nat (length (curGroup st)))); simpl; [lia|done].
  - destruct (Z.ltb_spec (Z.of_nat (length (curGroup st))) T) as [Hlt|Hge]; simpl.
    + destruct (Z.ltb_spec 0 (Z.of_nat (length (curGroup st)))) as [Hpos|Hz]; simpl.
      * exists (groups st), [curGroup st]. split; [done|].
        split; [eapply Forall_impl; [exact Hfull|]; by intros b [? _]|].
        split; [|done]. constructor; [|done]. split; [lia|done].
      * exists (groups st), []. rewrite app_nil_r. split; [done|].
        split; [eapply Forall_impl; [exact Hfull|]; by intros b [? _]|].
        split; [constructor|simpl; lia].
    + exists (groups st), []. rewrite app_nil_r. split; [done|].
      split; [eapply Forall_impl; [exact Hfull|]; by intros b [? _]|].
      split; [constructor|simpl; lia].
  - intros Hi. exists (visitedNodeIds st). split; [|split; [done|split]].
    + (* the walk *)
      clear -Hst Hi. unfold depthFirst.
      set (succ := λ v, default [] (LayoutGraph.outgoingEdges layoutGraph !! v)).
      set (st0 := {| groups := []; curGroup := []; visitedNodeIds := [] |}) in Hst.
      change (walkAll succ (visitedNodeIds st0)
                (filter (λ nodeId, LayoutGraph.incomingEdges layoutGraph !! nodeId = None)
                        (LayoutGraph.nodes layoutGraph))
                (visitedNodeIds st)).
      clearbody st0. revert st0 Hst.
      induction (LayoutGraph.nodes layoutGraph) as [|nodeId l IH]; intros st0 Hst.
      { injection Hst as <-. constructor. }
      rewrite filter_cons. simpl in Hst.
      destruct (LayoutGraph.incomingEdges layoutGraph !! nodeId) as [ins|] eqn:Hin;
        simpl in Hst.
      { rewrite decide_False by done. by apply IH. }
      rewrite decide_True by done.
      apply bind_Ret in Hst as (st1 & Hv & Hst).
      apply bind_Ret in Hv as (r & Hr & Hv). apply bind_Ret in Hv as (n & Hn & Hv).
      destruct (byId mg nodeId) as [r'|] eqn:Hby; [|done]. injection Hr as ->.
      destruct (obj mg r) as [n'|] eqn:Hobj; [|done]. injection Hn as ->.
      assert (id n = nodeId) as Hid.
      { apply byId_Some in Hby as [Hk _]. destruct (Hi _ _ Hk) as (n0 & Hn0 & Hid).
        congruence. }
      rewrite Hid in Hv. econstructor; [by eapply visit_visited|by apply IH].
    + destruct Hvis as (visited & Hnd' & Hv). clear -Hi Hnd' Hv.
      revert Hv. generalize (concat (if (Z.of_nat (length (curGroup st)) <? T)%Z &&
                                  (0 <? Z.of_nat (length (curGroup st)))%Z
                               then groups st ++ [curGroup st] else groups st)).
      induction Hnd' as [|k visited Hk Hnd' IH]; intros l Hv.
      * destruct l; [constructor|done].
      * destruct l as [|r l]; [done|]. simpl in Hv. injection Hv as Hr Hv.
        change (Some <$> l = byId mg <$> visited) in Hv.
        constructor; [|by apply IH].
        intros Hin. apply (list_elem_of_fmap_2 Some) in Hin. rewrite Hv in Hin.
        apply list_elem_of_fmap in Hin as (k' & Hk' & Hin).
        assert (k = k') by (eapply byId_inj; [done| |]; by symmetry). by subst k'.
    + intros HT. specialize (Hopen HT). rewrite <- Hnodes.
      destruct (Z.ltb_spec (Z.of_nat (length (curGroup st))) T) as [Hlt|Hge]; [|lia].
      destruct (Z.ltb_spec 0 (Z.of_nat (length (curGroup st)))) as [Hpos|Hz]; simpl.
      * by rewrite concat_app; simpl; rewrite app_nil_r.
      * destruct (curGroup st); [by rewrite app_nil_r|simpl in Hz; lia].
Qed.

Lemma splitFrame_refl mg : splitFrame mg mg.
Proof.
  split; try done. exists []. rewrite app_nil_r. split; [done|]. split; [simpl; lia|constructor].
Qed.

Lemma splitFrame_fields mg0 mg mg' :
  frameFields mg' = frameFields mg → splitFrame mg0 mg → splitFrame mg0 mg'.
Proof.
  unfold frameFields. intros [= H1 H2 H3 H4 H5 H6 H7] [? ? ? ? ? ?].
  split; try congruence. by rewrite H6, H7.
Qed.

(** [updateNamespace] writes node objects and the id index, and nothing
    else. *)
Lemma updateNamespace_fields fuel : ∀ curGroupNode part mg node mg',
  updateNamespace fuel curGroupNode part mg node = Ret mg' →
  frameFields mg' = frameFields mg.
Proof.
  induction fuel as [|fuel IH]; intros curGroupNode part mg node mg' H; [done|].
  simpl in H. apply bind_Ret in H as (a & _ & H).
  set (ns := if string_eqb (namespace a) "" then _ else _) in H.
  set (mg1 := write node (set_level (levelOf ns)) (write node (set_namespace ns) mg)) in H.
  assert (frameFields mg1 = frameFields mg) as H1 by done.
  clearbody mg1.
  destruct (isGroupNode (obj mg1 node)); [|by injection H as <-].
  set (mg2 := with_nodesById _ (write node (set_id _) (with_nodesById _ mg1))) in H.
  assert (frameFields mg2 = frameFields mg) as H2 by (rewrite <- H1; done).
  clearbody mg2. apply bind_Ret in H as (mg3 & Hpar & H).
  assert (frameFields mg3 = frameFields mg) as H3.
  { clear H. rewrite <- H2. destruct (truthy_string (parentId a)); [|by injection Hpar as <-].
    apply bind_Ret in Hpar as (nsParent & _ & Hpar).
    apply bind_Ret in Hpar as (p & _ & Hpar).
    destruct (childrenIds p) as [cs|]; [|by injection Hpar as <-].
    destruct (indexOf (id a) cs) as [index|]; [|by injection Hpar as <-].
    by injection Hpar as <-. }
  clear Hpar H2 H1.
  eapply (foldlM_inv (λ m, frameFields m = frameFields mg)); [|exact H3|exact H].
  intros mg4 index mg5 _ H4 Hstep. cbv beta in Hstep.
  destruct (childrenOf mg4 node !! index) as [childId|]; [|by injection Hstep as <-].
  destruct (byId mg4 childId) as [childNode|]; [|by injection Hstep as <-].
  apply IH in Hstep. by rewrite Hstep.
Qed.

Lemma splitBucket_frame mg0 fuel curGroupNode groupsLength mg newGroupNodes
    groupIndex bucketNodes mg' newGroupNodes' :
  groupIndex < groupsLength → splitFrame mg0 mg →
  splitBucket fuel curGroupNode groupsLength (mg, newGroupNodes) (groupIndex, bucketNodes)
  = Ret (mg', newGroupNodes') →
  splitFrame mg0 mg'.
Proof.
  intros Hlt Hinv H. unfold splitBucket in H.
  apply bind_Ret in H as (newGroupNodeNamespace & _ & H).
  apply bind_Ret in H as (ids & _ & H).
  match type of H with
  | context [foldl _ (with_artificialGroupNodeIds _ (with_nodesById _ ?m)) _] =>
      set (mg1 := m) in H
  end.
  match type of H with
  | context [foldl _ (with_artificialGroupNodeIds ?a (with_nodesById ?b mg1)) _] =>
      set (mg2 := with_artificialGroupNodeIds a (with_nodesById b mg1)) in H
  end.
  assert (splitFrame mg0 mg2) as Hinv2.
  { subst mg2 mg1. destruct Hinv as [? ? ? ? ? (sids & Hart & Hlen & Hsids)].
    split; try done. simpl.
    eexists (sids ++ [_]). rewrite Hart, <- app_assoc. split; [done|].
    rewrite !length_app, Hlen. simpl. split; [lia|].
    apply Forall_app. split; [done|]. constructor; [|done].
    exists (groupIndex + 1), groupsLength. split; [lia|]. done. }
  clearbody mg2 mg1.
  match type of H with
  | context [foldlM _ (foldl ?f mg2 bucketNodes) _] =>
      set (mg3 := foldl f mg2 bucketNodes) in H
  end.
  assert (splitFrame mg0 mg3) as Hinv3.
  { subst mg3. apply (foldl_inv (splitFrame mg0)); [|done].
    intros m node _ Hm. by eapply splitFrame_fields; [|exact Hm]. }
  clearbody mg3. clear Hinv2.
  apply bind_Ret in H as (mg4 & Hupd & H).
  assert (splitFrame mg0 mg4) as Hinv4.
  { eapply (foldlM_inv (splitFrame mg0)); [|exact Hinv3|exact Hupd].
    intros m node m' _ Hm Hu. apply updateNamespace_fields in Hu.
    by eapply splitFrame_fields. }
  injection H as <- _.
  destruct (is_null curGroupNode); [|done].
  match goal with
  | |- splitFrame _ (if _ then with_rootNodes _ ?m else _) =>
      assert (splitFrame mg0 m) as Hinv5
  end.
  { apply (foldl_inv (splitFrame mg0)); [|done].
    intros m node _ Hm. destruct (indexOf node (rootNodes m)); [|done].
    by eapply splitFrame_fields; [|exact Hm]. }
  case_bool_decide; [|done]. by eapply splitFrame_fields; [|exact Hinv5].
Qed.

Lemma splitGroup_frame getLayoutGraph this mg0 fuel curGroupNode children mg mg' children' :
  splitFrame mg0 mg →
  splitGroup getLayoutGraph this fuel curGroupNode children mg = Ret (mg', children') →
  splitFrame mg0 mg'.
Proof.
  intros Hinv H. unfold splitGroup in H.
  apply bind_Ret in H as (layoutGraph & _ & H).
  apply bind_Ret in H as (groups & _ & H).
  apply bind_Ret in H as ([mg1 newGroupNodes] & Hfold & H).
  assert (splitFrame mg0 mg1) as Hinv1.
  { refine (foldlM_inv (λ st, splitFrame mg0 st.1) _ _ (mg, []) (mg1, newGroupNodes)
                         _ Hinv Hfold).
    intros [m ngs] [i b] [m' ngs'] Hb Hm Hs. simpl in *.
    eapply splitBucket_frame; [|done..].
    apply elem_of_zip_l, list_elem_of_lookup in Hb as [j Hj].
    apply lookup_seq in Hj. lia. }
  destruct curGroupNode as [cur|]; [|by injection H as <- _].
  apply bind_Ret in H as (ids & _ & H). injection H as <- _.
  by eapply splitFrame_fields; [|exact Hinv1].
Qed.

Lemma splitLoop_frame getLayoutGraph this mg0 fuel : ∀ queue flag mg mg' flag',
  splitFrame mg0 mg →
  splitLoop getLayoutGraph this fuel queue flag mg = Ret (mg', flag') →
  splitFrame mg0 mg' ∧ (flag' = false → mg' = mg ∧ flag = false).
Proof.
  induction fuel as [|fuel IH]; intros queue flag mg mg' flag' Hinv H; [done|].
  simpl in H. destruct queue as [|curGroupNode queue]; [by injection H as <- <-|].
  set (children := match curGroupNode with
                   | Some cur => byId mg <$> childrenOf mg cur
                   | None => Some <$> rootNodes mg
                   end) in H.
  apply bind_Ret in H as ([[mg1 children1] flag1] & Hstep & H).
  destruct (_ >? _)%Z eqn:Hgt.
  - apply bind_Ret in Hstep as ([mg2 children2] & Hsplit & Hstep).
    injection Hstep as <- <- <-.
    apply (splitGroup_frame _ _ mg0) in Hsplit; [|done].
    apply IH in H as [H1 H2]; [|done]. split; [done|].
    intros Hf. by destruct (H2 Hf) as [_ ?].
  - injection Hstep as <- <- <-. apply IH in H as [H1 H2]; [|done]. done.
Qed.

Lemma splitLargeGroupNodes_splitFrame getLayoutGraph this fuel mg mg' :
  splitLargeGroupNodes getLayoutGraph this fuel mg = Ret mg' →
  (mg' = mg ∨ layoutGraphEdges mg' = ∅) ∧
  splitFrame (with_layoutGraphEdges (layoutGraphEdges mg') mg) mg'.
Proof.
  unfold splitLargeGroupNodes. intros H.
  apply bind_Ret in H as ([mg1 flag] & Hloop & H).
  apply (splitLoop_frame _ _ mg) in Hloop as [Hframe Hflag]; [|apply splitFrame_refl].
  destruct flag.
  - apply generateLayoutGraphConnections_result in H as ->. split; [by right|].
    destruct Hframe. by split.
  - injection H as <-. destruct (Hflag eq_refl) as [-> _]. split; [by left|].
    destruct mg. apply splitFrame_refl.
Qed.

(** X10.  [splitLargeGroupNodes] returns either the model graph it was given,
    untouched, or a model graph whose [layoutGraphEdges] it has reset; in
    both cases the id of the model graph, the edges per group and the two
    descendant counts are the ones it was given. *)
Theorem split_untouched_or_relaid getLayoutGraph this fuel mg mg' :
  splitLargeGroupNodes getLayoutGraph this fuel mg = Ret mg' →
  (mg' = mg ∨ layoutGraphEdges mg' = ∅) ∧
  modelGraphId mg' = modelGraphId mg ∧
  edgesByGroupNodeIds mg' = edgesByGroupNodeIds mg ∧
  minDescendantAssetNodeCount mg' = minDescendantAssetNodeCount mg ∧
  maxDescendantAssetNodeCount mg' = maxDescendantAssetNodeCount mg.
Proof.
  intros H. apply splitLargeGroupNodes_splitFrame in H as [H1 [? ? ? ? ? ?]]. done.
Qed.

Lemma split_untouched_or_relaid_witness :
  splitLargeGroupNodes getLayoutGraph_spec (splitter 2) 50 fiveChildren = Ret splitFive ∧
  splitFive ≠ fiveChildren ∧
  (splitFive = fiveChildren ∨ layoutGraphEdges splitFive = ∅) ∧
  modelGraphId splitFive = modelGraphId fiveChildren ∧
  edgesByGroupNodeIds splitFive = edgesByGroupNodeIds fiveChildren ∧
  minDescendantAssetNodeCount splitFive = minDescendantAssetNodeCount fiveChildren ∧
  maxDescendantAssetNodeCount splitFive = maxDescendantAssetNodeCount fiveChildren.
Proof.
  assert (splitLargeGroupNodes getLayoutGraph_spec (splitter 2) 50 fiveChildren
          = Ret splitFive) as H by (vm_compute; reflexivity).
  split; [exact H|]. split.
  { intros E. apply (f_equal (λ m, length (nodes m))) in E. vm_compute in E. discriminate. }
  exact (split_untouched_or_relaid getLayoutGraph_spec (splitter 2) 50 _ _ H).
Defined.

(** X11.  Every section group that [splitLargeGroupNodes] adds to the node
    list is recorded in [artificialGroupNodeIds]: the list grows by as many
    ids as the node list grows by nodes, and every id it grows by is a
    section id [`section_${i}_of_${n}___group___`] with [1 ≤ i ≤ n]. *)
Theorem sections_recorded getLayoutGraph this fuel mg mg' :
  splitLargeGroupNodes getLayoutGraph this fuel mg = Ret mg' →
  ∃ ids,
    default [] (artificialGroupNodeIds mg')
    = default [] (artificialGroupNodeIds mg) ++ ids ∧
    length (nodes mg') = length (nodes mg) + length ids ∧
    Forall sectionId ids.
Proof.
  intros H. apply splitLargeGroupNodes_splitFrame in H as [_ [_ _ _ _ _ H]]. exact H.
Qed.

Lemma sections_recorded_witness :
  splitLargeGroupNodes getLayoutGraph_spec (splitter 2) 50 fiveChildren = Ret splitFive ∧
  artificialGroupNodeIds splitFive
  = Some ["section_1_of_3___group___"; "section_2_of_3___group___";
          "section_3_of_3___group___"] ∧
  ∃ ids,
    default [] (artificialGroupNodeIds splitFive)
    = default [] (artificialGroupNodeIds fiveChildren) ++ ids ∧
    length (nodes splitFive) = length (nodes fiveChildren) + length ids ∧
    Forall sectionId ids.
Proof.
  assert (splitLargeGroupNodes getLayoutGraph_spec (splitter 2) 50 fiveChildren
          = Ret splitFive) as H by (vm_compute; reflexivity).
  split; [exact H|]. split; [vm_compute; reflexivity|].
  exact (sections_recorded getLayoutGraph_spec (splitter 2) 50 _ _ H).
Defined.

Lemma bucketize_fills_in_order_witness :
  bucketize (splitter 2) 50 branchingLayout fiveChildren = Ret [[1; 3]; [4; 5]; [2]] ∧
  index_ok fiveChildren ∧
  ((2 ≤ 0)%Z → [[1; 3]; [4; 5]; [2]] = @nil (list ref)) ∧
  (∃ full last,
     [[1; 3]; [4; 5]; [2]] = full ++ last ∧
     Forall (λ b : list ref, Z.of_nat (length b) = 2%Z) full ∧
     Forall (λ b : list ref, 0 < length b ∧ (Z.of_nat (length b) < 2)%Z) last ∧
     length last ≤ 1) ∧
  (∃ visited,
     depthFirst branchingLayout visited ∧ NoDup visited ∧
     NoDup (concat [[1; 3]; [4; 5]; [2]]) ∧
     ((1 ≤ 2)%Z → Some <$> concat [[1; 3]; [4; 5]; [2]] = byId fiveChildren <$> visited)).
Proof.
  assert (bucketize (splitter 2) 50 branchingLayout fiveChildren
          = Ret [[1; 3]; [4; 5]; [2]]) as H by (vm_compute; reflexivity).
  assert (index_ok fiveChildren) as Hi.
  { assert (map_Forall (λ k r, id <$> obj fiveChildren r = Some k) (nodesById fiveChildren))
      as Hall by (apply (bool_decide_unpack _); vm_compute; exact I).
    intros k r Hk. specialize (Hall k r Hk). cbv beta in Hall.
    destruct (obj fiveChildren r) as [n|]; [|done]. exists n. split; [done|].
    by injection Hall. }
  split; [exact H|]. split; [exact Hi|].
  destruct (bucketize_fills_in_order (splitter 2) 50 branchingLayout fiveChildren _ H)
    as (H1 & H2 & H3).
  split; [exact H1|]. split; [exact H2|]. exact (H3 Hi).
Defined.

(** ** [process] and [handleProcessGraph] *)











(** ** The message listener: sessions, expanding and collapsing *)

Section Sessions.

Variable getLayoutGraph :
  string → list (option ref) → ModelGraph → bool → bool → run LayoutGraph.t.

Variable threshold : Z.

Variable layout : mutating unit.

Variable reLayoutGraph : option (list string) → option bool → mutating unit.

Variable expandAllGroups : mutating (list string).

Variable collapseGroupNode : string → mutating (list string).

Variable collapseAllGroup : mutating (list string).

Variable getDeepestExpandedGroupNodeIds : option ref → list string → mutating (list string).

Let listener :=
  onMessage getLayoutGraph threshold layout reLayoutGraph expandAllGroups
            collapseGroupNode collapseAllGroup getDeepestExpandedGroupNodeIds.


(** X16.  A [PROCESS_GRAPH_REQ] that is served: the worker has stored the
    model graph, has cached it under the key of (the model graph's id, the
    request's graph id), has posted it in the response, its last message, and
    has touched neither the graphs it held nor any other cache entry. *)
Theorem process_request_cached fuel w graph graphId initialLayout w' :
  listener fuel w (ProcessGraphRequest graph graphId initialLayout) = (w', Ret tt) →
  ∃ mg,
    graphs w' = graphs w ++ [mg] ∧
    getCachedModelGraph w' (modelGraphId mg) graphId = Ret (length (graphs w)) ∧
    last (posted w') = Some (ProcessGraphResponse mg graphId) ∧
    ∀ k, k ≠ getModelGraphKey (modelGraphId mg) graphId →
         MODEL_GRAPHS_CACHE w' !! k = MODEL_GRAPHS_CACHE w !! k.
Proof.
  unfold listener, onMessage.
  destruct (handleProcessGraph _ _ _ fuel graphId graph initialLayout) as [msgs r].
  set (w1 := foldl (λ w e, postMessage e w) w msgs).
  assert (graphs w1 = graphs w ∧ MODEL_GRAPHS_CACHE w1 = MODEL_GRAPHS_CACHE w) as [Hg Hc].
  { subst w1. apply (foldl_inv (λ x, graphs x = graphs w ∧
                                        MODEL_GRAPHS_CACHE x = MODEL_GRAPHS_CACHE w)); done. }
  clearbody w1. destruct r as [mg|e|]; [|done..].
  intros [= <-]. exists mg. unfold cacheModelGraph. simpl.
  rewrite lookup_app_r, Nat.sub_diag by done. simpl.
  split; [by rewrite Hg|]. split.
  { unfold getCachedModelGraph. simpl. by rewrite lookup_insert_eq, Hg. }
  split; [by rewrite last_snoc|].
  intros k Hk. by rewrite lookup_insert_ne, Hc.
Qed.

(** X17.  [CLEANUP] empties the session store and posts nothing; the graphs
    stay.  After it, every request to expand, to collapse or to re-lay out is
    rejected with the cache-miss error, and changes nothing. *)
Theorem cleanup_forgets_sessions fuel w :
  ∃ w',
    listener fuel w CleanupRequest = (w', Ret tt) ∧
    posted w' = posted w ∧ graphs w' = graphs w ∧
    (∀ modelGraphId groupNodeId expand rendererId graphId all ts,
       listener fuel w'
         (ExpandOrCollapseGroupNodeRequest modelGraphId groupNodeId expand rendererId
            graphId all ts)
       = (w', Throw (notFound modelGraphId rendererId))) ∧
    (∀ modelGraphId target selectedNodeId rendererId restoring rect clear toggling,
       listener fuel w'
         (RelayoutGraphRequest modelGraphId target selectedNodeId rendererId restoring rect
            clear toggling)
       = (w', Throw (notFound modelGraphId rendererId))).
Proof.
  eexists. split; [done|]. split; [done|]. split; [done|].
  split; intros; unfold listener, onMessage, getCachedModelGraph; simpl;
    by rewrite lookup_empty.
Qed.

(** X18.  A request to expand a group, without [all], for an id that the
    model graph does not register or registers for an asset node: the
    handler expands nothing and writes nothing; it re-lays out the graph
    with no target ([reLayoutGraph(undefined)]) and returns the deepest
    expanded group ids of the whole graph. *)
Theorem expand_unknown_is_relayout fuel groupNodeId mg :
  isGroupNode (byId mg groupNodeId ≫= obj mg) = false →
  handleExpandGroupNode reLayoutGraph expandAllGroups getDeepestExpandedGroupNodeIds
    fuel (Some groupNodeId) false mg
  = (_ ← reLayoutGraph None None; getDeepestExpandedGroupNodeIds None []) mg.
Proof.
  intros Hg. unfold handleExpandGroupNode, mbind, mutating_bind, reading, mret, mutating_ret.
  simpl. destruct (byId mg groupNodeId) as [g|]; simpl in Hg |- *; [rewrite Hg|]; done.
Qed.


Lemma onlyExpanded_refl mg : onlyExpanded mg mg.
Proof. split; try done. intros r. destruct (obj mg r); [by left|done]. Qed.

Lemma onlyExpanded_trans mg1 mg2 mg3 :
  onlyExpanded mg1 mg2 → onlyExpanded mg2 mg3 → onlyExpanded mg1 mg3.
Proof.
  intros [Hn Hi Ho] [Hn' Hi' Ho']. split; [congruence..|].
  intros r. specialize (Ho r). specialize (Ho' r).
  destruct (obj mg3 r) as [n3|], (obj mg2 r) as [n2|], (obj mg1 r) as [n1|]; try done.
  destruct Ho' as [->|[Ht' ->]], Ho as [->|[Ht ->]].
  - by left.
  - by right.
  - by right.
  - right. split; [done|]. by destruct n1.
Qed.

Lemma onlyExpanded_write mg r :
  isGroupNode (obj mg r) = true → onlyExpanded mg (write r (set_expanded (Some true)) mg).
Proof.
  intros Hg. split; try done. intros r'. rewrite obj_write. case_decide as E.
  - subst r'. destruct (obj mg r) as [n|] eqn:Hn; [|done]. simpl. right.
    split; [|done]. by apply isGroupNode_Some in Hg.
  - destruct (obj mg r'); [by left|done].
Qed.

Lemma onlyExpanded_byId mg mg' k : onlyExpanded mg mg' → byId mg' k = byId mg k.
Proof.
  intros [_ Hi Ho]. unfold byId. rewrite Hi.
  destruct (nodesById mg !! k) as [r|]; [|done]. specialize (Ho r).
  by destruct (obj mg' r), (obj mg r).
Qed.

(** X20.  The loop of [handleExpandGroupNode] that follows a chain of only
    children: when it returns, it has written nothing but [expanded = true]
    on group nodes; the node it stops at is the node it started from or an
    expanded group node, and has no only child that is a group node. *)
Theorem expandOnlyChildren_chain fuel : ∀ curGroupNode mg mg' last,
  expandOnlyChildren fuel curGroupNode mg = (mg', Ret last) →
  onlyExpanded mg mg' ∧
  ¬ hasOnlyGroupChild mg' last ∧
  (last = curGroupNode ∨
   (isGroupNode (obj mg' last) = true ∧ obj mg' last ≫= expanded = Some true)).
Proof.
  induction fuel as [|fuel IH]; intros cur mg mg' last H; [done|].
  simpl in H.
  assert (¬ hasOnlyGroupChild mg cur →
          (mg, Ret cur) = (mg', Ret last) →
          onlyExpanded mg mg' ∧ ¬ hasOnlyGroupChild mg' last ∧
          (last = cur ∨
           (isGroupNode (obj mg' last) = true ∧ obj mg' last ≫= expanded = Some true)))
    as Hstop.
  { intros Hno [= <- <-]. split; [apply onlyExpanded_refl|]. split; [done|by left]. }
  destruct (childrenOf mg cur) as [|childId [|? ?]] eqn:Hc;
    [apply Hstop; [|done]; intros (? & ? & Hx & _); by rewrite Hc in Hx| |
     apply Hstop; [|done]; intros (? & ? & Hx & _); by rewrite Hc in Hx].
  destruct (byId mg childId) as [child|] eqn:Hchild; cycle 1.
  { apply Hstop; [|done]. intros (c & x & Hcx & Hx & _). rewrite Hc in Hcx.
    injection Hcx as <-. congruence. }
  destruct (isGroupNode (obj mg child)) eqn:Hg; cycle 1.
  { apply Hstop; [|done]. intros (c & x & Hcx & Hx & Hgx). rewrite Hc in Hcx.
    injection Hcx as <-. congruence. }
  clear Hstop. apply IH in H as (He & Hend & Hlast).
  pose proof (onlyExpanded_write mg child Hg) as He1.
  split; [by eapply onlyExpanded_trans|]. split; [done|]. right.
  destruct Hlast as [->|Hlast]; [|done].
  pose proof (oe_objects _ _ He child) as Ho. rewrite obj_write_eq in Ho.
  destruct (obj mg child) as [n|] eqn:Hn; [|done]. simpl in Ho.
  apply isGroupNode_Some in Hg.
  destruct (obj mg' child) as [n'|]; [|done].
  destruct Ho as [->|[_ ->]]; simpl; split; try done; by apply bool_decide_eq_true.
Qed.

Lemma onlyCollapsed_refl mg : onlyCollapsed mg mg.
Proof.
  split; try done; [|by right]. intros r. destruct (obj mg r); [by left|done].
Qed.

Lemma onlyCollapsed_trans mg1 mg2 mg3 :
  onlyCollapsed mg1 mg2 → onlyCollapsed mg2 mg3 → onlyCollapsed mg1 mg3.
Proof.
  intros [Hn Hi Ho He] [Hn' Hi' Ho' He']. split; [congruence..| |].
  - intros r. specialize (Ho r). specialize (Ho' r).
    destruct (obj mg3 r) as [n3|], (obj mg2 r) as [n2|], (obj mg1 r) as [n1|]; try done.
    destruct Ho' as [->|[Ht' ->]], Ho as [->|[Ht ->]].
    + by left.
    + by right.
    + by right.
    + right. split; [done|]. by destruct n1.
  - intros k. destruct (He' k) as [?|E]; [by left|]. rewrite E. apply He.
Qed.

Lemma onlyCollapsed_byId mg mg' k : onlyCollapsed mg mg' → byId mg' k = byId mg k.
Proof.
  intros [_ Hi Ho _]. unfold byId. rewrite Hi.
  destruct (nodesById mg !! k) as [r|]; [|done]. specialize (Ho r).
  by destruct (obj mg' r), (obj mg r).
Qed.

Lemma onlyCollapsed_isGroupNode mg mg' r :
  onlyCollapsed mg mg' → isGroupNode (obj mg' r) = isGroupNode (obj mg r).
Proof.
  intros [_ _ Ho _]. specialize (Ho r).
  destruct (obj mg' r), (obj mg r); try done. by destruct Ho as [->|[_ ->]].
Qed.

(** The loop of [handleCollapseGroupNode] over the descendants of a group:
    it does not throw, and collapses every group node among them. *)
Lemma collapse_loop l : ∀ mg,
  ∃ mg1,
    forEach (λ childNodeId,
      node ← reading (λ mg, Ret (byId mg childNodeId));
      match node with
      | Some node =>
          isGroup ← reading (λ mg, Ret (isGroupNode (obj mg node)));
          if isGroup : bool then
            _ ← writing (write node (set_expanded (Some false)));
            _ ← writing (write node (set_size None None));
            writing (λ mg,
              with_edgesByGroupNodeIds
                (delete (default "" (id <$> obj mg node)) (edgesByGroupNodeIds mg)) mg)
          else mret tt
      | None => mret tt
      end) l mg = (mg1, Ret tt) ∧
    onlyCollapsed mg mg1 ∧
    ∀ d r, d ∈ l → byId mg d = Some r → isGroupNode (obj mg r) = true →
      ∃ n1, obj mg1 r = Some n1 ∧ expanded n1 = Some false ∧
            width n1 = None ∧ height n1 = None ∧
            edgesByGroupNodeIds mg1 !! id n1 = None.
Proof.
  induction l as [|d l IH]; intros mg.
  { exists mg. split; [done|]. split; [apply onlyCollapsed_refl|].
    by intros d r ?%elem_of_nil. }
  set (body := λ childNodeId : string, _) in *.
  cbn [forEach]. unfold mbind at 1, mutating_bind at 1.
  assert (∃ mg0, body d mg = (mg0, Ret tt) ∧ onlyCollapsed mg mg0 ∧
            ∀ r, byId mg d = Some r → isGroupNode (obj mg r) = true →
              ∃ n0, obj mg0 r = Some n0 ∧ n0 = collapsed n0 ∧
                    edgesByGroupNodeIds mg0 !! id n0 = None)
    as (mg0 & -> & Hc0 & Hd0).
  { subst body. cbv beta. unfold mbind, mutating_bind, reading, writing, mret, mutating_ret.
    destruct (byId mg d) as [node|] eqn:Hnode; cycle 1.
    { exists mg. split; [done|]. split; [apply onlyCollapsed_refl|done]. }
    destruct (isGroupNode (obj mg node)) eqn:Hg; cycle 1.
    { exists mg. split; [done|]. split; [apply onlyCollapsed_refl|].
      intros r [= <-]. congruence. }
    eexists. split; [done|].
    destruct (obj mg node) as [n|] eqn:Hn; [|done].
    set (mg2 := write node (set_size None None) (write node (set_expanded (Some false)) mg)).
    assert (∀ v r, obj (with_edgesByGroupNodeIds v mg2) r
                   = if decide (node = r) then collapsed <$> obj mg r else obj mg r) as Hobj.
    { intros v r. change (obj mg2 r = if decide (node = r) then collapsed <$> obj mg r
                                      else obj mg r).
      subst mg2. rewrite !obj_write. case_decide; [|done]. by destruct (obj mg r). }
    assert (default "" (id <$> obj mg2 node) = id n) as Hid.
    { specialize (Hobj ∅ node). change (obj (with_edgesByGroupNodeIds ∅ mg2) node)
        with (obj mg2 node) in Hobj. rewrite Hobj, decide_True, Hn by done. done. }
    rewrite Hid.
    assert (nodes mg2 = nodes mg ∧ nodesById mg2 = nodesById mg ∧
            edgesByGroupNodeIds mg2 = edgesByGroupNodeIds mg) as (Hn2 & Hi2 & He2) by done.
    clearbody mg2.
    split.
    - split; [done|done| |].
      + intros r. rewrite Hobj. case_decide as E.
        * subst r. rewrite Hn. simpl. right. split; [by apply isGroupNode_Some in Hg|done].
        * destruct (obj mg r); [by left|done].
      + intros k. simpl. destruct (decide (k = id n)) as [->|Hne].
        * left. apply lookup_delete_eq.
        * right. by rewrite lookup_delete_ne, He2.
    - intros r [= <-] _. rewrite Hobj, decide_True, Hn by done. simpl.
      eexists. split; [done|]. split; [done|]. simpl. apply lookup_delete_eq. }
  destruct (IH mg0) as (mg1 & -> & Hc1 & Hd1). exists mg1. split; [done|].
  split; [by eapply onlyCollapsed_trans|].
  intros d' r [->|Hin]%elem_of_cons Hr Hg.
  - destruct (Hd0 r Hr Hg) as (n0 & Hn0 & Hcol & He0).
    pose proof (oc_objects _ _ Hc1 r) as Ho. rewrite Hn0 in Ho.
    destruct (obj mg1 r) as [n1|]; [|done].
    exists n1. split; [done|].
    assert (n1 = n0) as ->.
    { destruct Ho as [->|[_ ->]]; [done|]. by rewrite <- Hcol. }
    rewrite Hcol. split; [done|]. split; [done|]. split; [done|].
    destruct (oc_edges _ _ Hc1 (id n0)) as [E|E]; [by destruct n0|].
    destruct n0; simpl in *. by rewrite E.
  - apply (Hd1 d' r Hin).
    + by rewrite (onlyCollapsed_byId _ _ _ Hc0).
    + by rewrite (onlyCollapsed_isGroupNode _ _ _ Hc0).
Qed.

(** X21.  A request to collapse all the groups under a group that the model
    graph registers: before it hands over to [collapseGroupNode], the
    handler has collapsed every group node among the group's descendants
    ([expanded = false], no width, no height, no entry in
    [edgesByGroupNodeIds]), and has written nothing else: asset nodes, the
    node list and the id index are as they were. *)
Theorem collapse_all_collapses_descendants groupNodeId mg g n :
  byId mg groupNodeId = Some g → obj mg g = Some n →
  ∃ mg1,
    handleCollapseGroupNode collapseGroupNode collapseAllGroup (Some groupNodeId) true mg
    = collapseGroupNode groupNodeId mg1 ∧
    onlyCollapsed mg mg1 ∧
    ∀ d r, d ∈ default [] (descendantsNodeIds n) → byId mg d = Some r →
      isGroupNode (obj mg r) = true →
      ∃ n1, obj mg1 r = Some n1 ∧ expanded n1 = Some false ∧
            width n1 = None ∧ height n1 = None ∧
            edgesByGroupNodeIds mg1 !! id n1 = None.
Proof.
  intros Hg Hn.
  destruct (collapse_loop (default [] (descendantsNodeIds n)) mg) as (mg1 & Hloop & Hc & Hd).
  exists mg1. split; [|done].
  unfold handleCollapseGroupNode.
  unfold mbind at 1, mutating_bind at 1. unfold mbind at 1, mutating_bind at 1.
  unfold reading at 1. rewrite Hg. simpl. rewrite Hn. simpl.
  rewrite Hloop. done.
Qed.

End Sessions.


Lemma process_request_cached_witness :
  onMessage getLayoutGraph_spec 10 idleLayout idleReLayoutGraph idleExpandAllGroups
    idleCollapseGroupNode idleCollapseAllGroup idleGetDeepestExpandedGroupNodeIds
    20 emptyWorker (ProcessGraphRequest chainGraph "graph-1" None)
  = (chainWorker, Ret tt) ∧
  ∃ mg,
    graphs chainWorker = graphs emptyWorker ++ [mg] ∧
    getCachedModelGraph chainWorker (modelGraphId mg) "graph-1"
    = Ret (length (graphs emptyWorker)) ∧
    last (posted chainWorker) = Some (ProcessGraphResponse mg "graph-1") ∧
    ∀ k, k ≠ getModelGraphKey (modelGraphId mg) "graph-1" →
         MODEL_GRAPHS_CACHE chainWorker !! k = MODEL_GRAPHS_CACHE emptyWorker !! k.
Proof.
  assert (onMessage getLayoutGraph_spec 10 idleLayout idleReLayoutGraph idleExpandAllGroups
            idleCollapseGroupNode idleCollapseAllGroup idleGetDeepestExpandedGroupNodeIds
            20 emptyWorker (ProcessGraphRequest chainGraph "graph-1" None)
          = (chainWorker, Ret tt)) as H by (vm_compute; reflexivity).
  split; [exact H|].
  exact (process_request_cached getLayoutGraph_spec 10 idleLayout idleReLayoutGraph
           idleExpandAllGroups idleCollapseGroupNode idleCollapseAllGroup
           idleGetDeepestExpandedGroupNodeIds 20 emptyWorker chainGraph "graph-1" None
           chainWorker H).
Defined.

Lemma expand_unknown_is_relayout_witness :
  isGroupNode (byId chainModelGraph "missing" ≫= obj chainModelGraph) = false ∧
  isGroupNode (byId chainModelGraph "a" ≫= obj chainModelGraph) = false ∧
  handleExpandGroupNode idleReLayoutGraph idleExpandAllGroups
    idleGetDeepestExpandedGroupNodeIds 5 (Some "missing") false chainModelGraph
  = (chainModelGraph, Ret []) ∧
  handleExpandGroupNode idleReLayoutGraph idleExpandAllGroups
    idleGetDeepestExpandedGroupNodeIds 5 (Some "a") false chainModelGraph
  = (chainModelGraph, Ret []).
Proof.
  assert (isGroupNode (byId chainModelGraph "missing" ≫= obj chainModelGraph) = false) as H1
    by (vm_compute; reflexivity).
  assert (isGroupNode (byId chainModelGraph "a" ≫= obj chainModelGraph) = false) as H2
    by (vm_compute; reflexivity).
  split; [exact H1|]. split; [exact H2|]. split.
  - exact (expand_unknown_is_relayout idleReLayoutGraph idleExpandAllGroups
             idleGetDeepestExpandedGroupNodeIds 5 "missing" chainModelGraph H1).
  - exact (expand_unknown_is_relayout idleReLayoutGraph idleExpandAllGroups
             idleGetDeepestExpandedGroupNodeIds 5 "a" chainModelGraph H2).
Defined.


Lemma expandOnlyChildren_chain_witness :
  ∃ mg',
    expandOnlyChildren 5 0 (write 0 (set_expanded (Some true)) nestedGroups) = (mg', Ret 1) ∧
    onlyExpanded (write 0 (set_expanded (Some true)) nestedGroups) mg' ∧
    ¬ hasOnlyGroupChild mg' 1 ∧
    (1 = 0 ∨ (isGroupNode (obj mg' 1) = true ∧ obj mg' 1 ≫= expanded = Some true)).
Proof.
  assert (∃ mg', expandOnlyChildren 5 0 (write 0 (set_expanded (Some true)) nestedGroups)
                 = (mg', Ret 1)) as (mg' & H).
  { eexists. vm_compute. reflexivity. }
  exists mg'. split; [exact H|].
  exact (expandOnlyChildren_chain 5 0 _ mg' 1 H).
Defined.

Lemma collapse_all_collapses_descendants_witness :
  ∃ n, obj nestedGroups 0 = Some n ∧
  ∃ mg1,
    handleCollapseGroupNode idleCollapseGroupNode idleCollapseAllGroup (Some "outer") true
      nestedGroups
    = idleCollapseGroupNode "outer" mg1 ∧
    onlyCollapsed nestedGroups mg1 ∧
    ∀ d r, d ∈ default [] (descendantsNodeIds n) → byId nestedGroups d = Some r →
      isGroupNode (obj nestedGroups r) = true →
      ∃ n1, obj mg1 r = Some n1 ∧ expanded n1 = Some false ∧
            width n1 = None ∧ height n1 = None ∧
            edgesByGroupNodeIds mg1 !! id n1 = None.
Proof.
  assert (byId nestedGroups "outer" = Some 0) as Hg by (vm_compute; reflexivity).
  assert (∃ n, obj nestedGroups 0 = Some n) as (n & Hn) by (eexists; vm_compute; reflexivity).
  exists n. split; [exact Hn|].
  exact (collapse_all_collapses_descendants idleCollapseGroupNode idleCollapseAllGroup
           "outer" nestedGroups 0 n Hg Hn).
Defined.

(** ** The graph id *)

Lemma getProp_Some {V} (o : Obj V) k v :
  NoDup (Object_keys o) → getProp k o = Some v ↔ (k, v) ∈ o.
Proof.
  unfold Object_keys. induction o as [|[k' v'] o IH]; simpl; intros Hnd.
  { split; [done|by intros ?%elem_of_nil]. }
  apply NoDup_cons in Hnd as [Hk' Hnd]. unfold string_eqb. case_bool_decide as E.
  - subst k'. split.
    + intros [= ->]. by left.
    + intros [[= ->]|Hin]%elem_of_cons; [done|]. exfalso. apply Hk'.
      apply list_elem_of_fmap. by exists (k, v).
  - rewrite (IH Hnd), elem_of_cons. split; [by right|]. intros [[= ? ?]|?]; [congruence|done].
Qed.

Lemma getProp_is_Some {V} (o : Obj V) k : k ∈ Object_keys o → is_Some (getProp k o).
Proof.
  unfold Object_keys. induction o as [|[k' v'] o IH]; simpl; [by intros ?%elem_of_nil|].
  intros [->|Hin]%elem_of_cons; unfold string_eqb.
  - rewrite bool_decide_eq_true_2 by done. eauto.
  - case_bool_decide; [eauto|by apply IH].
Qed.

Lemma sameProps_getProp {V} (o1 o2 : Obj V) k :
  sameProps o1 o2 → getProp k o1 = getProp k o2.
Proof.
  intros (Hnd1 & Hnd2 & Hp).
  destruct (getProp k o1) as [v1|] eqn:H1.
  - symmetry. apply getProp_Some; [done|]. rewrite <- Hp. by apply getProp_Some.
  - destruct (getProp k o2) as [v2|] eqn:H2; [|done].
    apply getProp_Some in H2; [|done]. rewrite <- Hp in H2.
    apply getProp_Some in H2; [|done]. congruence.
Qed.

Lemma foldl_ext_in {A B} (f g : A → B → A) (l : list B) (a : A) :
  (∀ a b, b ∈ l → f a b = g a b) → foldl f a l = foldl g a l.
Proof.
  revert a. induction l as [|b l IH]; intros a H; simpl; [done|].
  rewrite H by by left. apply IH. intros ???. apply H. by right.
Qed.

Section ComputeGraphIdProperties.

Context {V : Type}.

Variable code_unit_le : relation string.

Context `{!RelDecision code_unit_le, !PartialOrder code_unit_le, !Total code_unit_le}.

Variable JSON_stringify : GraphIdPayload V → string.

(** Sorting forgets the order the keys came in. *)
Lemma sort_Permutation l1 l2 : l1 ≡ₚ l2 → Array_sort code_unit_le l1 = Array_sort code_unit_le l2.
Proof.
  intros Hp. unfold Array_sort. apply (Sorted_unique code_unit_le).
  - apply Sorted_merge_sort; apply _.
  - apply Sorted_merge_sort; apply _.
  - by rewrite !merge_sort_Permutation.
Qed.

Lemma recreateObjectWithKeysSorted_sameFlags o1 o2 :
  sameFlags o1 o2 →
  recreateObjectWithKeysSorted code_unit_le o1 = recreateObjectWithKeysSorted code_unit_le o2.
Proof.
  intros (Hnd1 & Hnd2 & Hkeys & Hinner). unfold recreateObjectWithKeysSorted.
  rewrite (sort_Permutation _ _ Hkeys). apply foldl_ext_in.
  intros newObj key Hkey.
  assert (key ∈ Object_keys o2) as Hk2.
  { unfold Array_sort in Hkey. by rewrite merge_sort_Permutation in Hkey. }
  assert (key ∈ Object_keys o1) as Hk1 by by rewrite Hkeys.
  destruct (getProp_is_Some o1 key Hk1) as [i1 H1].
  destruct (getProp_is_Some o2 key Hk2) as [i2 H2].
  rewrite H1, H2. f_equal.
  pose proof (Hinner key i1 i2 H1 H2) as Hsame.
  assert (Object_keys i1 ≡ₚ Object_keys i2) as Hp.
  { destruct Hsame as (_ & _ & Hp). unfold Object_keys. by rewrite Hp. }
  rewrite (sort_Permutation _ _ Hp). apply foldl_ext_in.
  intros acc k _. by rewrite (sameProps_getProp i1 i2 k Hsame).
Qed.

(** X22.  The graph id does not depend on the order of the keys of the
    graph data: two graph data whose [nodes], [upstream] and [downstream]
    hold the same properties, at both levels, in whatever key order, get the
    same id. *)
Theorem computeGraphId_ignores_key_order (g1 g2 : RawGraphData V) :
  sameProps (rawNodes g1) (rawNodes g2) →
  sameFlags (rawUpstream g1) (rawUpstream g2) →
  sameFlags (rawDownstream g1) (rawDownstream g2) →
  computeGraphId code_unit_le JSON_stringify g1 = computeGraphId code_unit_le JSON_stringify g2.
Proof.
  intros Hn Hu Hd. unfold computeGraphId. f_equal.
  rewrite (recreateObjectWithKeysSorted_sameFlags _ _ Hu),
    (recreateObjectWithKeysSorted_sameFlags _ _ Hd).
  f_equal.
  assert (Object_keys (rawNodes g1) ≡ₚ Object_keys (rawNodes g2)) as Hp.
  { destruct Hn as (_ & _ & Hp). unfold Object_keys. by rewrite Hp. }
  rewrite (sort_Permutation _ _ Hp). apply list_omap_ext, Forall2_same_length_lookup.
  split; [done|]. intros i k k' Hk Hk'. rewrite Hk in Hk'. injection Hk' as <-.
  apply sameProps_getProp, Hn.
Qed.

End ComputeGraphIdProperties.

Lemma getProp_insertProp {V} (o : Obj V) k k' v :
  k' ∉ Object_keys o →
  getProp k (insertProp k' v o) = if decide (k = k') then Some v else getProp k o.
Proof.
  unfold Object_keys. induction o as [|[k0 v0] o IH]; intros Hk'.
  { simpl. unfold string_eqb. case_bool_decide; case_decide; congruence. }
  rewrite fmap_cons, not_elem_of_cons in Hk'. destruct Hk' as [Hne Hk']. simpl in Hne.
  assert (getProp k ((k', v) :: (k0, v0) :: o)
          = if decide (k = k') then Some v else getProp k ((k0, v0) :: o)) as Hhead.
  { simpl. unfold string_eqb. case_bool_decide; case_decide; congruence. }
  assert (getProp k ((k0, v0) :: insertProp k' v o)
          = if decide (k = k') then Some v else getProp k ((k0, v0) :: o)) as Htail.
  { simpl. rewrite (IH Hk'). unfold string_eqb. case_bool_decide; case_decide; congruence. }
  cbn [insertProp].
  destruct (arrayIndex k') as [i|]; [|exact Htail].
  destruct (arrayIndex k0) as [i0|]; [|exact Hhead].
  destruct (i <? i0)%N; [exact Hhead|exact Htail].
Qed.

Lemma getProp_update {V} (o : Obj V) k k' v :
  getProp k ((λ kv, if string_eqb kv.1 k' then (k', v) else kv) <$> o)
  = if decide (k = k') then (if getProp k o is Some _ then Some v else None)
    else getProp k o.
Proof.
  induction o as [|[k0 v0] o IH]; [by case_decide|].
  rewrite fmap_cons. cbn [fst getProp]. unfold string_eqb in *.
  destruct (decide (k0 = k')) as [->|Hne].
  - rewrite (bool_decide_eq_true_2 (k' = k')) by done. cbn [getProp].
    unfold string_eqb in *.
    case_bool_decide as E; [subst k; by rewrite decide_True|].
    rewrite IH. rewrite decide_False by congruence. done.
  - rewrite (bool_decide_eq_false_2 (k0 = k')) by done. cbn [getProp].
    unfold string_eqb in *.
    case_bool_decide as E; [subst k0; by rewrite decide_False by congruence|].
    exact IH.
Qed.

Lemma getProp_setProp {V} (o : Obj V) k k' v :
  k' ≠ "__proto__" →
  getProp k (setProp k' v o) = if decide (k = k') then Some v else getProp k o.
Proof.
  intros Hp. unfold setProp, string_eqb at 1. rewrite bool_decide_eq_false_2 by done.
  case_bool_decide as Hin; [|by apply getProp_insertProp].
  rewrite getProp_update. case_decide as E; [|done]. subst k'.
  by destruct (getProp_is_Some o k Hin) as [x ->].
Qed.

Lemma getProp_None {V} (o : Obj V) k : k ∉ Object_keys o → getProp k o = None.
Proof.
  intros Hk. destruct (getProp k o) as [v|] eqn:E; [|done]. exfalso. apply Hk.
  clear Hk. unfold Object_keys. induction o as [|[k0 v0] o IH]; [done|].
  simpl in E. unfold string_eqb in E. rewrite fmap_cons. case_bool_decide.
  - subst. by left.
  - right. by apply IH.
Qed.

(** A loop that assigns, for every key [key] of [l] that [g] knows, the
    property [key] of the object it builds. *)
Lemma getProp_foldl_setProp {X W} (g : string → option X) (h : X → W) l : ∀ acc k,
  k ≠ "__proto__" →
  getProp k (foldl (λ acc key,
                      match g key with
                      | Some x => setProp key (h x) acc
                      | None => acc
                      end) acc l)
  = if decide (k ∈ l) then (if g k is Some x then Some (h x) else getProp k acc)
    else getProp k acc.
Proof.
  induction l as [|key l IH]; intros acc k Hk; simpl.
  { done. }
  rewrite (IH _ k Hk).
  assert (getProp k (match g key with
                     | Some x => setProp key (h x) acc
                     | None => acc
                     end)
          = if decide (k = key) then (if g k is Some x then Some (h x) else getProp k acc)
            else getProp k acc) as ->.
  { destruct (decide (k = key)) as [->|Hne].
    - destruct (g key) as [x|]; [|done]. rewrite getProp_setProp by done.
      by rewrite decide_True.
    - destruct (g key) as [x|]; [|done].
      destruct (decide (key = "__proto__")) as [->|Hp].
      + unfold setProp, string_eqb. by rewrite bool_decide_eq_true_2.
      + rewrite getProp_setProp by done. by rewrite decide_False. }
  destruct (decide (k ∈ key :: l)) as [Hc|Hc], (decide (k ∈ l)) as [Hin|Hin],
    (decide (k = key)) as [He|He]; try done.
  - by destruct (g k).
  - apply elem_of_cons in Hc as [?|?]; done.
  - exfalso. apply Hc, elem_of_cons. by right.
  - exfalso. apply Hc, elem_of_cons. by right.
  - exfalso. apply Hc, elem_of_cons. by left.
Qed.

Section RecreateProperties.

Variable code_unit_le : relation string.

Context `{!RelDecision code_unit_le}.

(** X23.  [recreateObjectWithKeysSorted] loses nothing: under every key but
    [__proto__], at both levels, the object it returns holds the flag that
    the object it was given holds. *)
Theorem recreate_keeps_flags (obj : Obj (Obj bool)) (key k : string) :
  key ≠ "__proto__" → k ≠ "__proto__" →
  getProp key (recreateObjectWithKeysSorted code_unit_le obj) ≫= getProp k
  = getProp key obj ≫= getProp k.
Proof.
  intros Hkey Hk. unfold recreateObjectWithKeysSorted.
  rewrite (getProp_foldl_setProp (λ key, getProp key obj)
             (λ inner, foldl (λ acc k, match getProp k inner with
                                       | Some flag => setProp k flag acc
                                       | None => acc
                                       end) [] (Array_sort code_unit_le (Object_keys inner))))
    by done.
  destruct (getProp key obj) as [inner|] eqn:Hinner; simpl; [|by case_decide].
  assert (key ∈ Array_sort code_unit_le (Object_keys obj)) as Hin.
  { unfold Array_sort. rewrite merge_sort_Permutation.
    destruct (decide (key ∈ Object_keys obj)) as [|Hn]; [done|].
    apply getProp_None in Hn. congruence. }
  rewrite decide_True by done. simpl.
  rewrite (getProp_foldl_setProp (λ k, getProp k inner) (λ flag, flag)) by done.
  destruct (decide (k ∈ Array_sort code_unit_le (Object_keys inner))) as [|Hn].
  - by destruct (getProp k inner).
  - unfold Array_sort in Hn. rewrite merge_sort_Permutation in Hn.
    by rewrite (getProp_None _ _ Hn).
Qed.

End RecreateProperties.

Lemma computeGraphId_ignores_key_order_witness :
  rawGraphAB ≠ rawGraphBA ∧
  computeGraphId String.le showPayload rawGraphAB
  = computeGraphId String.le showPayload rawGraphBA.
Proof.
  assert (∀ l : list string, bool_decide (NoDup l) = true → NoDup l) as Hnd.
  { intros l H. by apply bool_decide_eq_true in H. }
  assert (∀ (m1 m2 : Obj (Obj bool)) i,
            m1 = [("a", i); ("b", [])] ∨ m1 = [("a", []); ("b", i)] →
            m2 = [("b", []); ("a", i)] ∨ m2 = [("b", i); ("a", [])] →
            Object_keys m1 ≡ₚ Object_keys m2 →
            (∀ k, getProp k m1 = getProp k m2) →
            NoDup (Object_keys i) →
            sameFlags m1 m2) as Hflags.
  { intros m1 m2 i H1 H2 Hp Hget Hi. split; [|split; [|split]]; [| |done|].
    - destruct H1 as [-> | ->]; by apply Hnd.
    - destruct H2 as [-> | ->]; by apply Hnd.
    - intros k i1 i2 E1 E2. rewrite Hget, E2 in E1. injection E1 as ->.
      assert (i1 = i ∨ i1 = []) as [-> | ->].
      { destruct H2 as [-> | ->]; simpl in E2; unfold string_eqb in E2;
          repeat case_bool_decide; simplify_eq; auto. }
      + done.
      + split; [|split]; [apply NoDup_nil_2..|done]. }
  split; [done|].
  apply (computeGraphId_ignores_key_order String.le showPayload rawGraphAB rawGraphBA).
  - split; [|split]; [by apply Hnd..|]. simpl. apply Permutation_swap.
  - apply (Hflags _ _ [("a", true)]); simpl; auto.
    + apply Permutation_swap.
    + intros k. unfold string_eqb. by repeat case_bool_decide; simplify_eq.
  - apply (Hflags _ _ [("b", true)]); simpl; auto.
    + apply Permutation_swap.
    + intros k. unfold string_eqb. by repeat case_bool_decide; simplify_eq.
Defined.

Lemma recreate_keeps_flags_witness :
  getProp "b" (recreateObjectWithKeysSorted String.le (rawUpstream rawGraphBA)) ≫= getProp "a"
  = Some true ∧
  getProp "b" (recreateObjectWithKeysSorted String.le (rawUpstream rawGraphBA)) ≫= getProp "a"
  = getProp "b" (rawUpstream rawGraphBA) ≫= getProp "a".
Proof.
  split; [vm_compute; reflexivity|].
  apply (recreate_keeps_flags String.le (rawUpstream rawGraphBA) "b" "a"); done.
Defined.

(** ** The traversal roots of the layout-connectivity pass *)

Lemma assetNodesWithoutIncomingEdges_spec_witness :
  assetNodesWithoutIncomingEdges (build (chainProcessor 10 false)) = Ret [0] ∧
  ∀ r, r ∈ [0] ↔
       r ∈ nodes (build (chainProcessor 10 false)) ∧
       ∃ n, obj (build (chainProcessor 10 false)) r = Some n ∧ nodeType n = ASSET_NODE ∧
            truthy_bool (hideInLayout n) = false ∧
            ∀ e, e ∈ default [] (incomingEdges n) →
                 sourceIsVisible (build (chainProcessor 10 false)) e = Ret false.
Proof.
  assert (assetNodesWithoutIncomingEdges (build (chainProcessor 10 false)) = Ret [0]) as H
    by (vm_compute; reflexivity).
  split; [exact H|]. exact (assetNodesWithoutIncomingEdges_spec _ _ H).
Defined.
